(* ===================================================================== *)
(* mcp-ragdocs: ingestion pipeline, collection lifecycle and embedding    *)
(* provider factory, embedded as executable Rocq definitions.             *)
(*                                                                        *)
(*   src/handlers/add-documentation.ts   AddDocumentationHandler          *)
(*   api-client.ts                       ApiClient                        *)
(*   embeddings.ts                       EmbeddingService and providers   *)
(* ===================================================================== *)

From Stdlib Require Import ZArith NArith List Bool Lia String Ascii.
From stdpp Require Import base list gmap countable pretty.

Open Scope Z_scope.

(* --------------------------------------------------------------------- *)
(* 1. JavaScript strings                                                  *)
(* --------------------------------------------------------------------- *)

(** A JavaScript string is a sequence of UTF-16 code units; [length] is the
    [.length] property and [++] is concatenation. *)
Abbreviation jsstring := (list N).

(** String literals of the source, written as Rocq strings (one code unit
    per character: every literal of the source is ASCII). *)
Definition js (s : string) : jsstring :=
  map N_of_ascii (list_ascii_of_string s).
Arguments js : simpl never.

(** [s.startsWith(p)] *)
Fixpoint startsWith (p s : jsstring) : bool :=
  match p, s with
  | [], _ => true
  | _ :: _, [] => false
  | a :: p', b :: s' => N.eqb a b && startsWith p' s'
  end.

(** [s.includes(needle)] *)
Fixpoint includes (needle s : jsstring) : bool :=
  startsWith needle s ||
  match s with
  | [] => false
  | _ :: s' => includes needle s'
  end.

(** [arr.join(sep)] on an array of strings. *)
Fixpoint join (sep : jsstring) (l : list jsstring) : jsstring :=
  match l with
  | [] => []
  | [w] => w
  | w :: rest => w ++ sep ++ join sep rest
  end.

(** The regular-expression class [\s] of ECMAScript: WhiteSpace and
    LineTerminator code points. *)
Definition is_white_space (c : N) : bool :=
  match c with
  | 9 | 10 | 11 | 12 | 13 | 32 | 160 | 5760
  | 8192 | 8193 | 8194 | 8195 | 8196 | 8197 | 8198 | 8199 | 8200 | 8201 | 8202
  | 8232 | 8233 | 8239 | 8287 | 12288 | 65279 => true
  | _ => false
  end%N.

(** [s.split(/\s+/)].  The scan of String.prototype.split: [cur] holds, in
    reverse, the code units read since the end of the last match (the
    substring from [p] to [q]); [in_run] says that the scan is inside a
    maximal run of white space, which [\s+] matches as a whole.  The
    substring after the last match is always pushed, so the result is never
    the empty array. *)
Fixpoint split_scan (in_run : bool) (cur : jsstring) (s : jsstring)
  : list jsstring :=
  match s with
  | [] => [rev cur]
  | c :: s' =>
      if is_white_space c then
        if in_run then split_scan true cur s'
        else rev cur :: split_scan true [] s'
      else split_scan false (c :: cur) s'
  end.

Definition split_ws (s : jsstring) : list jsstring := split_scan false [] s.

Definition space : jsstring := js " ".

(* --------------------------------------------------------------------- *)
(* 2. The chunker: AddDocumentationHandler.chunkText                      *)
(* --------------------------------------------------------------------- *)

(** The body of [for (const word of words)], with the two mutable locals
    [chunks] and [currentChunk] passed along. *)
Fixpoint chunk_loop (maxChunkSize : Z) (words : list jsstring)
    (chunks : list jsstring) (currentChunk : list jsstring)
  : list jsstring * list jsstring :=
  match words with
  | [] => (chunks, currentChunk)
  | word :: rest =>
      let currentChunk := currentChunk ++ [word] in
      let currentLength := Z.of_nat (length (join space currentChunk)) in
      if maxChunkSize <=? currentLength
      then chunk_loop maxChunkSize rest (chunks ++ [join space currentChunk]) []
      else chunk_loop maxChunkSize rest chunks currentChunk
  end.

Definition chunkText (text : jsstring) (maxChunkSize : Z) : list jsstring :=
  let words := split_ws text in
  let '(chunks, currentChunk) := chunk_loop maxChunkSize words [] [] in
  if (0 <? length currentChunk)%nat
  then chunks ++ [join space currentChunk]
  else chunks.

(* --------------------------------------------------------------------- *)
(* 3. Thrown values, McpError, and the monad of the asynchronous code     *)
(* --------------------------------------------------------------------- *)

(** [ErrorCode] of the MCP SDK, the three members the code uses. *)
Inductive ErrorCode := InvalidRequest | InvalidParams | InternalError.

Definition ErrorCode_value (c : ErrorCode) : Z :=
  match c with
  | InvalidRequest => -32600
  | InvalidParams => -32602
  | InternalError => -32603
  end.

Definition ErrorCode_text (c : ErrorCode) : jsstring :=
  match c with
  | InvalidRequest => js "-32600"
  | InvalidParams => js "-32602"
  | InternalError => js "-32603"
  end.

(** What a [throw] can carry.  [McpError code message] is
    [new McpError(code, message)]; [SystemError] is an [Error] of Node's
    file system, with its [code] property; [JsError] is any other instance
    of [Error]; [JsOther] is a thrown value that is not an [Error], kept as
    the string that [String(v)] gives. *)
Inductive js_value :=
  | JsError (name message : jsstring)
  | McpError (code : ErrorCode) (message : jsstring)
  | SystemError (code message : jsstring)
  | JsOther (repr : jsstring).

(** [error instanceof Error] *)
Definition instanceof_Error (v : js_value) : bool :=
  match v with
  | JsError _ _ | McpError _ _ | SystemError _ _ => true
  | JsOther _ => false
  end.

(** [error instanceof McpError] *)
Definition instanceof_McpError (v : js_value) : bool :=
  match v with
  | McpError _ _ => true
  | _ => false
  end.

(** [error.message].  The SDK's constructor passes
    [`MCP error ${code}: ${message}`] to [Error]. *)
Definition message_of (v : js_value) : jsstring :=
  match v with
  | JsError _ m => m
  | McpError c m => js "MCP error " ++ ErrorCode_text c ++ js ": " ++ m
  | SystemError _ m => m
  | JsOther r => r
  end.

(** [error.code] of a file-system error, [undefined] elsewhere. *)
Definition code_of (v : js_value) : option jsstring :=
  match v with
  | SystemError c _ => Some c
  | _ => None
  end.

(** [Error.prototype.toString] *)
Definition Error_toString (name message : jsstring) : jsstring :=
  match name, message with
  | [], _ => message
  | _, [] => name
  | _, _ => name ++ js ": " ++ message
  end.

(** [`${error}`] *)
Definition String_of (v : js_value) : jsstring :=
  match v with
  | JsError n m => Error_toString n m
  | McpError c m => Error_toString (js "Error") (message_of (McpError c m))
  | SystemError _ m => Error_toString (js "Error") m
  | JsOther r => r
  end.

(** [error instanceof Error ? error.message : error] inside a template. *)
Definition message_or_value (v : js_value) : jsstring :=
  if instanceof_Error v then message_of v else String_of v.

(** How a call completes. *)
Inductive completion (A : Type) :=
  | Normal (a : A)
  | Throw (e : js_value).
Arguments Normal {A} a.
Arguments Throw {A} e.

(* --------------------------------------------------------------------- *)
(* 4. The vector store (Qdrant), as the client sees it                    *)
(* --------------------------------------------------------------------- *)

Record DocumentChunk := {
  text : jsstring;
  url : jsstring;
  title : jsstring;
  timestamp : jsstring
}.

(** The payload of a point: the chunk's fields and the [_type] tag. *)
Record payload := {
  chunk : DocumentChunk;
  _type : jsstring
}.

(** Embedding vectors: their components are never inspected. *)
Abbreviation vector := (list Z).

Record point := {
  id : jsstring;
  vector_of : vector;
  payload_of : payload
}.

Inductive distance := Cosine.

(** The second argument of [createCollection]. *)
Record create_params := {
  vectors_size : Z;
  vectors_distance : distance;
  (** [optimizers_config: { default_segment_number: 2 }] and
      [replication_factor: 2] are present *)
  cloud_settings : bool
}.

(** A collection of the store.  [config_size] is what
    [config?.params?.vectors?.size] reads: [None] when the chain yields
    [undefined]. *)
Record collection := {
  config_size : option Z;
  config_distance : distance;
  points : gmap jsstring point
}.

Definition new_collection (p : create_params) : collection :=
  {| config_size := Some (vectors_size p);
     config_distance := vectors_distance p;
     points := ∅ |}.

(** The requests the client sends. *)
Inductive request :=
  | GetCollections
  | GetCollection (name : jsstring)
  | CreateCollection (name : jsstring) (params : create_params)
  | DeleteCollection (name : jsstring)
  | Upsert (name : jsstring) (wait : bool) (pts : list point).

(** What the store's client throws: an [Error] of the client library or
    another value, never an [McpError] (the client library does not know
    that class). *)
Inductive store_error :=
  | StoreError (name message : jsstring)
  | StoreOther (repr : jsstring).

Definition thrown (e : store_error) : js_value :=
  match e with
  | StoreError n m => JsError n m
  | StoreOther r => JsOther r
  end.

(** Effects outside the store. *)
Inductive io_event :=
  | LoadUrl (source : jsstring)
  | FsAccess (path : jsstring)
  | FsReadFile (path : jsstring)
  | Embed (input : jsstring).

(** The state the code runs against.
    - [collections]: the content of the store;
    - [faults]: for each coming request, whether the client throws instead
      of answering (connection refused, time-out, a rejected key, a
      concurrent change of the store, ...);
    - [requests]: the requests sent so far, oldest first;
    - [random_pos]: how many bytes were taken from the random source;
    - [io]: the other effects so far, oldest first. *)
Record world := {
  collections : gmap jsstring collection;
  faults : list (option store_error);
  requests : list request;
  random_pos : nat;
  io : list io_event
}.

(** A store without faults and without history. *)
Definition quiet (m : gmap jsstring collection) : world :=
  {| collections := m; faults := []; requests := []; random_pos := 0%nat;
     io := [] |}.

(** Asynchronous code as state passing with exceptions. *)
Definition M (A : Type) : Type := world -> completion A * world.

Definition ret {A} (a : A) : M A := fun w => (Normal a, w).

Definition throw {A} (e : js_value) : M A := fun w => (Throw e, w).

Definition bind {A B} (m : M A) (k : A -> M B) : M B :=
  fun w =>
    match m w with
    | (Normal a, w') => k a w'
    | (Throw e, w') => (Throw e, w')
    end.

(** [try { m } catch (error) { h error }] *)
Definition try_catch {A} (m : M A) (h : js_value -> M A) : M A :=
  fun w =>
    match m w with
    | (Normal a, w') => (Normal a, w')
    | (Throw e, w') => h e w'
    end.

Declare Scope js_scope.
Delimit Scope js_scope with js_m.
Notation "x <- m ;; k" := (bind m (fun x => k))
  (at level 100, m at next level, right associativity) : js_scope.
Notation "m ;;; k" := (bind m (fun _ => k))
  (at level 100, right associativity) : js_scope.
Open Scope js_scope.

Definition log_io (e : io_event) : M unit :=
  fun w =>
    (Normal tt,
     {| collections := collections w; faults := faults w;
        requests := requests w; random_pos := random_pos w;
        io := io w ++ [e] |}).

(** Sending a request: it is recorded, the next entry of [faults] is
    consumed, and either the client throws or the store answers with
    [answer]. *)
Definition send {A} (r : request)
    (answer : gmap jsstring collection ->
              completion A * gmap jsstring collection) : M A :=
  fun w =>
    match faults w with
    | Some e :: later =>
        (Throw (thrown e),
         {| collections := collections w; faults := later;
            requests := requests w ++ [r]; random_pos := random_pos w;
            io := io w |})
    | _ =>
        let '(c, m) := answer (collections w) in
        (c,
         {| collections := m; faults := tail (faults w);
            requests := requests w ++ [r]; random_pos := random_pos w;
            io := io w |})
    end.

(** The store's own errors, for requests that name a collection that does
    not exist or that exists already. *)
Definition store_not_found (name : jsstring) : js_value :=
  JsError (js "Error")
    (js "Not found: Collection `" ++ name ++ js "` doesn't exist!").

Definition store_conflict (name : jsstring) : js_value :=
  JsError (js "Error")
    (js "Wrong input: Collection `" ++ name ++ js "` already exists!").

(** [qdrantClient.getCollections()]: the names of the collections. *)
Definition getCollections : M (list jsstring) :=
  send GetCollections (fun m => (Normal (map fst (map_to_list m)), m)).

(** [qdrantClient.getCollection(name)], read through
    [collectionInfo?.config?.params?.vectors?.size]. *)
Definition getCollection (name : jsstring) : M (option Z) :=
  send (GetCollection name)
    (fun m =>
       match m !! name with
       | Some c => (Normal (config_size c), m)
       | None => (Throw (store_not_found name), m)
       end).

Definition createCollection (name : jsstring) (p : create_params) : M unit :=
  send (CreateCollection name p)
    (fun m =>
       match m !! name with
       | Some _ => (Throw (store_conflict name), m)
       | None => (Normal tt, <[name := new_collection p]> m)
       end).

Definition deleteCollection (name : jsstring) : M unit :=
  send (DeleteCollection name) (fun m => (Normal tt, delete name m)).

(** Points are keyed by their identifier: a point with an identifier that
    is present replaces the stored one, any other one is added. *)
Definition upsert_points (pts : list point) (ps : gmap jsstring point)
  : gmap jsstring point :=
  fold_left (fun acc p => <[id p := p]> acc) pts ps.

Definition upsert (name : jsstring) (wait : bool) (pts : list point) : M unit :=
  send (Upsert name wait pts)
    (fun m =>
       match m !! name with
       | Some c =>
           (Normal tt,
            <[name := {| config_size := config_size c;
                         config_distance := config_distance c;
                         points := upsert_points pts (points c) |}]> m)
       | None => (Throw (store_not_found name), m)
       end).

(* --------------------------------------------------------------------- *)
(* 5. embeddings.ts                                                       *)
(* --------------------------------------------------------------------- *)

(** The three implementations of [EmbeddingProvider], with their fields
    (the API key stands for the client object built from it). *)
Inductive EmbeddingProvider :=
  | OllamaProvider (model : jsstring)
  | OpenAIProvider (apiKey : jsstring) (model : jsstring)
      (baseURL : option jsstring)
  | GoogleGenAIProvider (apiKey : jsstring) (model : jsstring).

(** A parameter with a default value: the default is taken when the
    argument is [undefined]. *)
Definition default_to (d : jsstring) (o : option jsstring) : jsstring :=
  match o with
  | Some s => s
  | None => d
  end.

Definition new_OllamaProvider (model : option jsstring) : EmbeddingProvider :=
  OllamaProvider (default_to (js "nomic-embed-text") model).

Definition new_OpenAIProvider (apiKey : jsstring) (model : option jsstring)
    (baseURL : option jsstring) : EmbeddingProvider :=
  OpenAIProvider apiKey (default_to (js "text-embedding-3-small") model) baseURL.

Definition new_GoogleGenAIProvider (apiKey : jsstring)
    (model : option jsstring) : EmbeddingProvider :=
  GoogleGenAIProvider apiKey (default_to (js "embedding-001") model).

Definition getVectorSize (p : EmbeddingProvider) : Z :=
  match p with
  | OllamaProvider model =>
      if includes (js "nomic-embed-text") model then 768 else 768
  | OpenAIProvider _ model _ =>
      if includes (js "text-embedding-3-small") model
         || includes (js "ada-002") model then 1536
      else if includes (js "text-embedding-3-large") model then 3072
      else 1536
  | GoogleGenAIProvider _ model =>
      if includes (js "embedding-001") model then 768 else 768
  end.

(** The argument of [createFromConfig].  [provider] is the string the
    environment gives: the type annotation is not checked when the code
    runs. *)
Record config := {
  provider : jsstring;
  openaiApiKey : option jsstring;
  openaiBaseUrl : option jsstring;
  geminiApiKey : option jsstring;
  model : option jsstring
}.

(** [!x] for an optional string: [undefined] and the empty string. *)
Definition falsy (o : option jsstring) : bool :=
  match o with
  | None | Some [] => true
  | Some (_ :: _) => false
  end.

(** [EmbeddingService.createFromConfig].  The service only wraps its
    provider, so it is represented by the provider. *)
Definition createFromConfig (c : config) : completion EmbeddingProvider :=
  if bool_decide (provider c = js "ollama") then
    Normal (new_OllamaProvider (model c))
  else if bool_decide (provider c = js "openai") then
    if falsy (openaiApiKey c) then
      Throw (McpError InvalidParams
        (js "OpenAI API key (OPENAI_API_KEY) is required for openai provider"))
    else
      Normal (new_OpenAIProvider (default [] (openaiApiKey c)) (model c)
                (openaiBaseUrl c))
  else if bool_decide (provider c = js "google") then
    if falsy (geminiApiKey c) then
      Throw (McpError InvalidParams
        (js "Google Gemini API key (GEMINI_API_KEY) is required for google provider"))
    else
      Normal (new_GoogleGenAIProvider (default [] (geminiApiKey c)) (model c))
  else
    Throw (McpError InvalidParams
      (js "Unknown embedding provider specified: " ++ provider c)).

(* --------------------------------------------------------------------- *)
(* 6. api-client.ts                                                       *)
(* --------------------------------------------------------------------- *)

(** [process.env], the variables the module reads when it is loaded. *)
Record process_env := {
  env_EMBEDDING_PROVIDER : option jsstring;
  env_EMBEDDING_MODEL : option jsstring;
  env_OPENAI_API_KEY : option jsstring;
  env_OPENAI_BASE_URL : option jsstring;
  env_GEMINI_API_KEY : option jsstring;
  env_QDRANT_URL : option jsstring;
  env_QDRANT_API_KEY : option jsstring
}.

(** [x || d] for an optional string. *)
Definition or_default (o : option jsstring) (d : jsstring) : jsstring :=
  match o with
  | Some (c :: s) => c :: s
  | _ => d
  end.

Definition EMBEDDING_PROVIDER (e : process_env) : jsstring :=
  or_default (env_EMBEDDING_PROVIDER e) (js "ollama").

Definition QDRANT_URL (e : process_env) : jsstring :=
  or_default (env_QDRANT_URL e) (js "http://127.0.0.1:6333").

(** An [ApiClient]: the endpoint and key its store client was built with,
    and its embedding service. *)
Record ApiClient := {
  qdrant_url : jsstring;
  qdrant_api_key : option jsstring;
  embeddingService : EmbeddingProvider
}.

(** The configuration the constructor hands to [createFromConfig]. *)
Definition config_of_env (e : process_env) : config :=
  {| provider := EMBEDDING_PROVIDER e;
     model := env_EMBEDDING_MODEL e;
     openaiApiKey := env_OPENAI_API_KEY e;
     openaiBaseUrl := env_OPENAI_BASE_URL e;
     geminiApiKey := env_GEMINI_API_KEY e |}.

(** [new ApiClient()].  [qdrantClient] is how [new QdrantClient({ url,
    apiKey })] completes: the constructor of the client library checks the
    URL and sends nothing; when it throws, so does [new ApiClient()]. *)
Definition new_ApiClient (qdrantClient : completion unit) (e : process_env)
  : completion ApiClient :=
  match qdrantClient with
  | Throw error => Throw error
  | Normal _ =>
      match createFromConfig (config_of_env e) with
      | Normal service =>
          Normal {| qdrant_url := QDRANT_URL e;
                    qdrant_api_key := env_QDRANT_API_KEY e;
                    embeddingService := service |}
      | Throw error =>
          Throw (JsError (js "Error")
            (js "Failed to initialize EmbeddingService: "
             ++ message_or_value error))
      end
  end.

(** [handleQdrantError]: returns when the error is swallowed, throws an
    [McpError] otherwise. *)
Definition handleQdrantError (api : ApiClient) (error : js_value)
    (context : jsstring) : M unit :=
  if instanceof_Error error then
    let m := message_of error in
    if includes (js "Not found") m && includes (js "verify") context then
      ret tt
    else if includes (js "already exists") m
            && bool_decide (context = js "create") then
      ret tt
    else if includes (js "timed out") m || includes (js "ECONNREFUSED") m then
      throw (McpError InternalError
        (js "Connection to Qdrant (" ++ qdrant_url api
         ++ js ") failed during collection " ++ context
         ++ js ". Please check Qdrant status and URL."))
    else if includes (js "Unauthorized") m || includes (js "Forbidden") m then
      throw (McpError InvalidRequest
        (js "Authentication failed for Qdrant during collection " ++ context
         ++ js ". Please check QDRANT_API_KEY if using Qdrant Cloud."))
    else
      throw (McpError InternalError
        (js "Qdrant error during collection " ++ context ++ js ": " ++ m))
  else
    throw (McpError InternalError
      (js "Unknown Qdrant error during collection " ++ context ++ js ": "
       ++ String_of error)).

Definition createQdrantCollection (api : ApiClient) (name : jsstring)
    (vectorSize : Z) : M unit :=
  try_catch
    (createCollection name
       {| vectors_size := vectorSize;
          vectors_distance := Cosine;
          cloud_settings := negb (falsy (qdrant_api_key api)) |})
    (fun error => handleQdrantError api error (js "create")).

Definition recreateQdrantCollection (api : ApiClient) (name : jsstring)
    (vectorSize : Z) : M unit :=
  try_catch
    (deleteCollection name ;;;
     createQdrantCollection api name vectorSize)
    (fun error => handleQdrantError api error (js "recreate")).

(** [!currentVectorSize]: [undefined] and [0]. *)
Definition size_unreadable (currentVectorSize : option Z) : bool :=
  match currentVectorSize with
  | None => true
  | Some n => n =? 0
  end.

(** [currentVectorSize !== requiredVectorSize] *)
Definition size_differs (currentVectorSize : option Z) (required : Z) : bool :=
  match currentVectorSize with
  | None => true
  | Some n => negb (n =? required)
  end.

Definition initCollection (api : ApiClient) (COLLECTION_NAME : jsstring)
  : M unit :=
  let requiredVectorSize := getVectorSize (embeddingService api) in
  try_catch
    (collections <- getCollections ;;
     match find (fun c => bool_decide (c = COLLECTION_NAME)) collections with
     | None =>
         createQdrantCollection api COLLECTION_NAME requiredVectorSize
     | Some _ =>
         currentVectorSize <- getCollection COLLECTION_NAME ;;
         if size_unreadable currentVectorSize then
           recreateQdrantCollection api COLLECTION_NAME requiredVectorSize
         else if size_differs currentVectorSize requiredVectorSize then
           recreateQdrantCollection api COLLECTION_NAME requiredVectorSize
         else ret tt
     end)
    (fun error => handleQdrantError api error (js "initialize/verify")).

(* --------------------------------------------------------------------- *)
(* 7. Node's [path] module (POSIX) and the rest of the environment        *)
(* --------------------------------------------------------------------- *)

Definition slash : N := 47%N.

(** [s.split(sep)] for a one-character separator. *)
Fixpoint split_on (sep : N) (s : jsstring) : list jsstring :=
  match s with
  | [] => [[]]
  | c :: s' =>
      if N.eqb c sep then [] :: split_on sep s'
      else match split_on sep s' with
           | [] => [[c]]
           | h :: r => (c :: h) :: r
           end
  end.

(** One segment of [normalizeString] for an absolute path: empty segments
    and [.] are dropped, [..] removes the last kept segment if there is
    one.  The kept segments are held last first. *)
Definition normalize_step (kept : list jsstring) (segment : jsstring)
  : list jsstring :=
  if bool_decide (segment = []) || bool_decide (segment = js ".") then kept
  else if bool_decide (segment = js "..") then tail kept
  else segment :: kept.

Definition normalize_segments (segments : list jsstring) : list jsstring :=
  rev (fold_left normalize_step segments []).

(** The segments of [path.resolve(p)] when the working directory is [cwd]
    (an absolute path). *)
Definition resolve_segments (cwd p : jsstring) : list jsstring :=
  normalize_segments
    (split_on slash
       (if startsWith (js "/") p then p else cwd ++ js "/" ++ p)).

(** [path.resolve(p)] *)
Definition path_resolve (cwd p : jsstring) : jsstring :=
  js "/" ++ join (js "/") (resolve_segments cwd p).

Fixpoint strip_common (a b : list jsstring)
  : list jsstring * list jsstring :=
  match a, b with
  | x :: a', y :: b' =>
      if bool_decide (x = y) then strip_common a' b' else (a, b)
  | _, _ => (a, b)
  end.

(** [path.relative(from, to)]: one [..] for each segment of [from] below
    the common directory, then the rest of [to]. *)
Definition path_relative (cwd from to : jsstring) : jsstring :=
  let '(up, down) :=
    strip_common (resolve_segments cwd from) (resolve_segments cwd to) in
  join (js "/") (map (fun _ => js "..") up ++ down).

(** [path.isAbsolute(p)] *)
Definition path_isAbsolute (p : jsstring) : bool := startsWith (js "/") p.

(** [path.basename(p)] *)
Definition path_basename (cwd p : jsstring) : jsstring :=
  List.last (resolve_segments cwd p) [].

(** The error object of a failed file operation: its [code] and
    [message]. *)
Record fs_error := {
  fe_code : jsstring;
  fe_message : jsstring
}.

Definition fs_throw (e : fs_error) : js_value :=
  SystemError (fe_code e) (fe_message e).

(** What the code reads from outside the store.
    - [cwd]: the working directory of the server;
    - [fs_access], [fs_readFile]: the outcome of [fs.access(path, R_OK)]
      and of [fs.readFile(path, 'utf-8')];
    - [load_url]: the outcome of the branch that handles a URL (lines
      92 to 128: [fetch] or the browser, then the extraction of title and
      content), which runs in the fetch and rendering layer: the value it
      throws, or the title and the main content;
    - [provider_embeddings]: the outcome of the provider's
      [generateEmbeddings]: the vector, or the message of the [McpError]
      with code [InternalError] that every provider throws on failure;
    - [settles_next]: the order in which the embeddings asked for together
      come back: after the events given, when [k] of the requests of the
      batch have settled, the position, among those still pending in the
      order of the batch, of the one that settles next (taken modulo their
      number);
    - [random_source]: the bytes [crypto.randomBytes] delivers, in order;
    - [Date_toISOString]: [new Date().toISOString()] when the chunk at the
      given index is built. *)
Record Env := {
  cwd : jsstring;
  fs_access : jsstring -> option fs_error;
  fs_readFile : jsstring -> fs_error + jsstring;
  load_url : jsstring -> js_value + (jsstring * jsstring);
  provider_embeddings : jsstring -> jsstring + vector;
  settles_next : list io_event -> nat -> nat;
  random_source : nat -> N;
  Date_toISOString : nat -> jsstring
}.

(* --------------------------------------------------------------------- *)
(* 8. src/handlers/add-documentation.ts                                   *)
(* --------------------------------------------------------------------- *)

Definition COLLECTION_NAME : jsstring := js "documentation".

(** [args.url] *)
Inductive js_arg :=
  | ArgUndefined
  | ArgString (s : jsstring)
  | ArgOther.

(** [McpToolResponse] with one text item. *)
Record McpToolResponse := {
  content_text : jsstring;
  isError : bool
}.

(** [buffer.toString('hex')] *)
Definition hex_digit (n : N) : N :=
  if (n <? 10)%N then (48 + n)%N else (87 + n)%N.

Definition hex_byte (b : N) : jsstring :=
  [hex_digit (b / 16)%N; hex_digit (b mod 16)%N].

Definition toString_hex (bytes : list N) : jsstring :=
  concat (map hex_byte bytes).

(** Decimal digits of a count in a template string. *)
Definition String_of_nat (n : nat) : jsstring := js (pretty (N.of_nat n)).

Definition batchSize : nat := 100.

(** [Math.ceil(n / batchSize)] *)
Definition ceil_div (n d : nat) : nat := ((n + d - 1) / d)%nat.

(** [arr.slice(i, j)] *)
Definition slice {A} (l : list A) (i j : nat) : list A :=
  take (j - i) (drop i l).

(** [crypto.randomBytes(n)] when [pos] bytes were taken from [source]
    before. *)
Definition randomBytes (source : nat -> N) (pos n : nat) : list N :=
  map (fun i => (source (pos + i)%nat mod 256)%N) (seq 0 n).

Section Handler.

Variable E : Env.

Definition generatePointId : M jsstring :=
  fun w =>
    (Normal (toString_hex (randomBytes (random_source E) (random_pos w) 16)),
     {| collections := collections w; faults := faults w;
        requests := requests w; random_pos := random_pos w + 16;
        io := io w |}).

(** An [async] function that awaits one promise of the world outside: what
    it does up to the [await], which gives what it does once the promise has
    settled. *)
Definition Async (A : Type) : Type := M (M A).

(** [ApiClient.getEmbeddings] once the provider has settled: its vector, or
    its error wrapped. *)
Definition getEmbeddings_settled (input : jsstring) : M vector :=
  try_catch
    (match provider_embeddings E input with
     | inr v => ret v
     | inl message => throw (McpError InternalError message)
     end)
    (fun error =>
       throw (McpError InternalError
         (js "Failed to generate embeddings: " ++ message_or_value error))).

(** [ApiClient.getEmbeddings]: the provider is asked at once, and the
    function goes on when the provider has settled. *)
Definition getEmbeddings (input : jsstring) : Async vector :=
  log_io (Embed input) ;;;
  ret (getEmbeddings_settled input).

(** [fs.access(path, fs.constants.R_OK)] *)
Definition access (path : jsstring) : M unit :=
  log_io (FsAccess path) ;;;
  match fs_access E path with
  | Some e => throw (fs_throw e)
  | None => ret tt
  end.

(** [fs.readFile(path, 'utf-8')] *)
Definition readFile (path : jsstring) : M jsstring :=
  log_io (FsReadFile path) ;;;
  match fs_readFile E path with
  | inl e => throw (fs_throw e)
  | inr content => ret content
  end.

(** The branch of [fetchAndProcessUrl] for a local file path: title and
    main content. *)
Definition read_local_file (source : jsstring) : M (jsstring * jsstring) :=
  let resolvedPath := path_resolve (cwd E) source in
  let workspaceRoot := path_resolve (cwd E) (js ".") in
  let relativePath := path_relative (cwd E) workspaceRoot resolvedPath in
  if startsWith (js "..") relativePath || path_isAbsolute relativePath then
    throw (McpError InvalidParams
      (js "Access denied: Path is outside the allowed workspace directory."))
  else
    try_catch
      (access resolvedPath ;;;
       mainContent <- readFile resolvedPath ;;
       ret (path_basename (cwd E) resolvedPath, mainContent))
      (fun fileError =>
         if bool_decide (code_of fileError = Some (js "ENOENT")) then
           throw (McpError InvalidParams
             (js "Local file not found: " ++ resolvedPath))
         else if bool_decide (code_of fileError = Some (js "EACCES")) then
           throw (McpError InvalidParams
             (js "Permission denied reading local file: " ++ resolvedPath))
         else
           throw (McpError InternalError
             (js "Error reading local file " ++ resolvedPath ++ js ": "
              ++ message_of fileError))).

(** The branch for a URL: title and main content, from the fetch and
    rendering layer. *)
Definition read_url (source : jsstring) : M (jsstring * jsstring) :=
  log_io (LoadUrl source) ;;;
  match load_url E source with
  | inl error => throw error
  | inr content => ret content
  end.

Definition fetchAndProcessUrl (source : jsstring) : M (list DocumentChunk) :=
  let isUrl :=
    startsWith (js "http://") source || startsWith (js "https://") source in
  try_catch
    (content <- (if isUrl then read_url source else read_local_file source) ;;
     let '(title, mainContent) := content in
     let chunks := chunkText mainContent 1000 in
     ret (imap (fun i chunk =>
                  {| text := chunk; url := source; title := title;
                     timestamp := Date_toISOString E i |}) chunks))
    (fun error =>
       if instanceof_McpError error then throw error
       else
         throw (McpError InternalError
           (js "Failed to fetch or process source " ++ source ++ js ": "
            ++ message_or_value error))).

(** The callback of [batch.map] once the embedding of its chunk has
    settled: the embedding, then a fresh identifier. *)
Definition make_point_settled (chunk : DocumentChunk) : M point :=
  embedding <- getEmbeddings_settled (text chunk) ;;
  id <- generatePointId ;;
  ret {| id := id; vector_of := embedding;
         payload_of := {| chunk := chunk; _type := js "DocumentChunk" |} |}.

(** The callback of [batch.map]: it asks for the embedding of its chunk and
    awaits it. *)
Definition make_point (chunk : DocumentChunk) : Async point :=
  getEmbeddings (text chunk) ;;;
  ret (make_point_settled chunk).

(** [l.map(f)] for an [async] callback: every call runs up to its [await],
    in the order of the list; a call that throws before gives a promise that
    is rejected. *)
Fixpoint start_all {A B} (f : A -> Async B) (l : list A) (w : world)
  : list (M B) * world :=
  match l with
  | [] => ([], w)
  | x :: rest =>
      let '(r, w1) := f x w in
      let '(ks, w2) := start_all f rest w1 in
      (match r with
       | Normal k => k
       | Throw e => throw e
       end :: ks, w2)
  end.

(** The order in which [n] pending calls settle, the environment choosing
    each time among those that are left. *)
Fixpoint settle_order (choice : nat -> nat) (step : nat) (pending : list nat)
    (n : nat) : list nat :=
  match n with
  | O => []
  | S n' =>
      let k := (choice step mod length pending)%nat in
      match pending !! k with
      | Some i => i :: settle_order choice (S step) (delete k pending) n'
      | None => []
      end
  end.

(** The calls go on, each when its promise settles: the outcome of each,
    with its index in the list. *)
Fixpoint settle_all {B} (ks : list (M B)) (order : list nat) (w : world)
  : list (nat * completion B) * world :=
  match order with
  | [] => ([], w)
  | i :: later =>
      match ks !! i with
      | Some k =>
          let '(r, w1) := k w in
          let '(rs, w2) := settle_all ks later w1 in
          ((i, r) :: rs, w2)
      | None => settle_all ks later w
      end
  end.

(** The value of the first call that was rejected. *)
Fixpoint first_rejection {B} (rs : list (nat * completion B))
  : option js_value :=
  match rs with
  | [] => None
  | (_, Throw e) :: _ => Some e
  | (_, Normal _) :: rest => first_rejection rest
  end.

(** The value the call of index [i] was fulfilled with. *)
Fixpoint fulfilled {B} (i : nat) (rs : list (nat * completion B)) : option B :=
  match rs with
  | [] => None
  | (j, r) :: rest =>
      if (i =? j)%nat then
        match r with
        | Normal b => Some b
        | Throw _ => None
        end
      else fulfilled i rest
  end.

(** [await Promise.all(l.map(f))]: all calls are started, they go on in the
    order in which their promises settle, and the result has the values in
    the order of the list, or is the first rejection.  The calls that are
    pending at a rejection go on all the same: the state given is the one
    when every call has settled. *)
Definition Promise_all_map {A B} (f : A -> Async B) (l : list A)
  : M (list B) :=
  fun w =>
    let '(ks, w1) := start_all f l w in
    let order :=
      settle_order (settles_next E (io w1)) 0 (seq 0 (length ks)) (length ks) in
    let '(rs, w2) := settle_all ks order w1 in
    match first_rejection rs with
    | Some e => (Throw e, w2)
    | None => (Normal (omap (fun i => fulfilled i rs) (seq 0 (length ks))), w2)
    end.

(** The [try] around the upsert of one batch (lines 38 to 58). *)
Definition upsert_batch (points : list point) : M unit :=
  try_catch
    (upsert COLLECTION_NAME true points)
    (fun error =>
       if instanceof_Error error
          && includes (js "unauthorized") (message_of error) then
         throw (McpError InvalidRequest
           (js "Failed to authenticate with Qdrant cloud while adding documents"))
       else if instanceof_Error error
               && (includes (js "ECONNREFUSED") (message_of error)
                   || includes (js "ETIMEDOUT") (message_of error)) then
         throw (McpError InternalError
           (js "Connection to Qdrant cloud failed while adding documents"))
       else throw error).

(** [for (let i = 0; i < chunks.length; i += batchSize)]; [fuel] bounds the
    number of rounds, and [length chunks] rounds are always enough. *)
Fixpoint batch_loop (fuel : nat) (i : nat) (chunks : list DocumentChunk)
  : M unit :=
  match fuel with
  | O => ret tt
  | S fuel' =>
      if (i <? length chunks)%nat then
        let batch := slice chunks i (i + batchSize) in
        points <- Promise_all_map make_point batch ;;
        upsert_batch points ;;;
        batch_loop fuel' (i + batchSize) chunks
      else ret tt
  end.

Definition handle (args_url : js_arg) : M McpToolResponse :=
  match args_url with
  | ArgString (c :: s) =>
      let url := c :: s in
      try_catch
        (chunks <- fetchAndProcessUrl url ;;
         batch_loop (length chunks) 0 chunks ;;;
         ret {| content_text :=
                  js "Successfully added documentation from " ++ url
                  ++ js " (" ++ String_of_nat (length chunks)
                  ++ js " chunks processed in "
                  ++ String_of_nat (ceil_div (length chunks) batchSize)
                  ++ js " batches)";
                isError := false |})
        (fun error =>
           if instanceof_McpError error then throw error
           else
             ret {| content_text :=
                      js "Failed to add documentation: " ++ String_of error;
                    isError := true |})
  | _ => throw (McpError InvalidParams (js "URL is required"))
  end.

End Handler.

(* --------------------------------------------------------------------- *)
(* 9. Notions used to state the properties, and concrete inputs           *)
(* --------------------------------------------------------------------- *)

Definition ws_free (w : jsstring) : Prop :=
  Forall (fun c => is_white_space c = false) w.

(** What [split(/\s+/)] returns after the first word: words without white
    space, none of them empty except possibly the last one. *)
Fixpoint wf_tail (l : list jsstring) : Prop :=
  match l with
  | [] => True
  | w :: rest => ws_free w /\ (rest = [] \/ w <> []) /\ wf_tail rest
  end.

(** What [split(/\s+/)] returns: at least one word; the first one may be
    empty as well (leading white space). *)
Definition wf_words (l : list jsstring) : Prop :=
  match l with
  | [] => False
  | w :: rest => ws_free w /\ wf_tail rest
  end.

Definition cons_head (c : N) (l : list jsstring) : list jsstring :=
  match l with
  | [] => [[c]]
  | h :: r => (c :: h) :: r
  end.

Definition app_head (w : jsstring) (l : list jsstring) : list jsstring :=
  match l with
  | [] => [w]
  | h :: r => (w ++ h) :: r
  end.

Definition starts_ws (s : jsstring) : bool :=
  match s with
  | [] => false
  | c :: _ => is_white_space c
  end.

(** Length of a chunk as the loop measures it. *)
Definition reaches (maxSize : Z) (g : list jsstring) : Prop :=
  maxSize <= Z.of_nat (length (join space g)).

(** An environment that selects [openai] and sets no key. *)
Definition env_openai_no_key : process_env :=
  {| env_EMBEDDING_PROVIDER := Some (js "openai");
     env_EMBEDDING_MODEL := None;
     env_OPENAI_API_KEY := None;
     env_OPENAI_BASE_URL := None;
     env_GEMINI_API_KEY := None;
     env_QDRANT_URL := None;
     env_QDRANT_API_KEY := None |}.

(** An environment that sets nothing: the provider defaults to [ollama]. *)
Definition env_empty : process_env :=
  {| env_EMBEDDING_PROVIDER := None;
     env_EMBEDDING_MODEL := None;
     env_OPENAI_API_KEY := None;
     env_OPENAI_BASE_URL := None;
     env_GEMINI_API_KEY := None;
     env_QDRANT_URL := None;
     env_QDRANT_API_KEY := None |}.

(** The parameters [createQdrantCollection] sends. *)
Definition required_params (api : ApiClient) : create_params :=
  {| vectors_size := getVectorSize (embeddingService api);
     vectors_distance := Cosine;
     cloud_settings := negb (falsy (qdrant_api_key api)) |}.

(** The world after requests [rs], with store content [m] and the faults
    [fs] still to come. *)
Definition after (w : world) (m : gmap jsstring collection)
    (fs : list (option store_error)) (rs : list request) : world :=
  {| collections := m; faults := fs; requests := requests w ++ rs;
     random_pos := random_pos w; io := io w |}.

(** The world after requests that were all answered, no fault being left. *)
Definition answered (w : world) (m : gmap jsstring collection)
    (rs : list request) : world :=
  after w m [] rs.

(** [currentVectorSize] is readable and equals the required size. *)
Definition size_agrees (current : option Z) (required : Z) : bool :=
  bool_decide (current = Some required).

(** A client for the default environment: Ollama, local store. *)
Definition api_default : ApiClient :=
  {| qdrant_url := js "http://127.0.0.1:6333";
     qdrant_api_key := None;
     embeddingService := OllamaProvider (js "nomic-embed-text") |}.

Definition empty_collection (size : option Z) : collection :=
  {| config_size := size; config_distance := Cosine; points := ∅ |}.

(** The listing, or the read of the size of a listed collection, throws
    [e]. *)
Definition read_fault (name : jsstring) (w : world) (e : store_error) : Prop :=
  (exists rest, faults w = Some e :: rest)
  \/ (exists rest c,
        faults w = None :: Some e :: rest /\ collections w !! name = Some c).

(** [createCollection] throws [e], the collection being absent or just
    deleted for a size that does not agree. *)
Definition create_fault (api : ApiClient) (name : jsstring) (w : world)
    (e : store_error) : Prop :=
  (exists rest,
      faults w = None :: Some e :: rest /\ collections w !! name = None)
  \/ (exists rest c,
        faults w = None :: None :: None :: Some e :: rest
        /\ collections w !! name = Some c
        /\ size_agrees (config_size c) (getVectorSize (embeddingService api))
           = false).

Definition init_context : jsstring := js "initialize/verify".

Definition slash_free (seg : jsstring) : Prop :=
  Forall (fun c => N.eqb c slash = false) seg.

(** A segment that [normalize_step] keeps. *)
Definition kept_segment (seg : jsstring) : Prop :=
  seg <> [] /\ seg <> js "." /\ seg <> js ".." /\ slash_free seg.

Definition access_denied : js_value :=
  McpError InvalidParams
    (js "Access denied: Path is outside the allowed workspace directory.").

(** A server started in [/srv/app] that sets nothing up: no file can be
    read, no page loaded, no embedding computed. *)
Definition env_srv_app : Env :=
  {| cwd := js "/srv/app";
     fs_access := fun _ => Some {| fe_code := js "ENOENT"; fe_message := js "no such file or directory" |};
     fs_readFile := fun _ => inl {| fe_code := js "ENOENT"; fe_message := js "no such file or directory" |};
     load_url := fun _ => inl (JsError (js "TypeError") (js "fetch failed"));
     provider_embeddings := fun _ => inl (js "Failed to generate embeddings with Ollama: Error: fetch failed");
     settles_next := fun _ _ => 0%nat;
     random_source := fun i => N.of_nat i;
     Date_toISOString := fun _ => js "2025-01-01T00:00:00.000Z" |}.

(** The identifiers made from the random source when [pos] bytes were taken
    before: the [n] next blocks of 16 bytes, in hexadecimal. *)
Definition point_ids (source : nat -> N) (pos n : nat) : list jsstring :=
  map (fun j => toString_hex (randomBytes source (pos + j * 16) 16)) (seq 0 n).

(** The identifiers of the points handed to [upsert], in order. *)
Definition upsert_ids (rs : list request) : list jsstring :=
  flat_map (fun r => match r with
                     | Upsert _ _ pts => map id pts
                     | _ => []
                     end) rs.

(** The point stored under an identifier in the collection of the
    handler. *)
Definition stored (w : world) (k : jsstring) : option point :=
  match collections w !! COLLECTION_NAME with
  | Some c => points c !! k
  | None => None
  end.

(** The parts of the state that only requests change. *)
Definition same_store (w w' : world) : Prop :=
  collections w' = collections w /\ faults w' = faults w
  /\ requests w' = requests w.

(** What the [catch] of the batch does with the value [upsert] threw. *)
Definition upsert_rethrown (error : js_value) : js_value :=
  if instanceof_Error error
     && includes (js "unauthorized") (message_of error) then
    McpError InvalidRequest
      (js "Failed to authenticate with Qdrant cloud while adding documents")
  else if instanceof_Error error
          && (includes (js "ECONNREFUSED") (message_of error)
              || includes (js "ETIMEDOUT") (message_of error)) then
    McpError InternalError
      (js "Connection to Qdrant cloud failed while adding documents")
  else error.

Definition auth_failed : js_value :=
  McpError InvalidRequest
    (js "Failed to authenticate with Qdrant cloud while adding documents").

Definition connection_failed : js_value :=
  McpError InternalError
    (js "Connection to Qdrant cloud failed while adding documents").

(** The response of the handler for a thrown value that is not an
    [McpError]. *)
Definition failure_response (error : js_value) : McpToolResponse :=
  {| content_text := js "Failed to add documentation: " ++ String_of error;
     isError := true |}.

Definition documentation_768 : gmap jsstring collection :=
  {[ COLLECTION_NAME := empty_collection (Some 768) ]}.

Definition documentation_1536 : gmap jsstring collection :=
  {[ COLLECTION_NAME := empty_collection (Some 1536) ]}.

(** The state a first [initCollection] leaves when the collection had
    another size. *)
Definition world_recreated : world :=
  snd (initCollection api_default COLLECTION_NAME (quiet documentation_1536)).

Definition world_with (m : gmap jsstring collection)
    (fs : list (option store_error)) : world :=
  {| collections := m; faults := fs; requests := []; random_pos := 0%nat;
     io := [] |}.

Definition not_found_error : store_error :=
  StoreError (js "Error")
    (js "Not found: Collection `documentation` doesn't exist!").

Definition already_exists_error : store_error :=
  StoreError (js "Error")
    (js "Wrong input: Collection `documentation` already exists!").

Definition refused_error : store_error :=
  StoreError (js "Error") (js "connect ECONNREFUSED 127.0.0.1:6333").

Definition forbidden_error : store_error :=
  StoreError (js "Error") (js "Forbidden").

Definition bad_request_error : store_error :=
  StoreError (js "Error") (js "Bad Request").

(** The listing shows the collection, and the read of its size then throws
    [Not found]. *)
Definition world_not_found : world :=
  world_with documentation_768 [None; Some not_found_error].

(** A server in [/srv/app] whose files all read [alpha beta gamma] and whose
    provider answers. *)
Definition env_docs : Env :=
  {| cwd := js "/srv/app";
     fs_access := fun _ => None;
     fs_readFile := fun _ => inr (js "alpha beta gamma");
     load_url := fun _ => inl (JsError (js "TypeError") (js "fetch failed"));
     provider_embeddings := fun _ => inr [1; 2; 3];
     settles_next := fun _ _ => 0%nat;
     random_source := fun i => N.of_nat i;
     Date_toISOString := fun _ => js "2025-01-01T00:00:00.000Z" |}.

Definition guide : jsstring := js "guide.txt".

(** The number of points in the collection of the handler. *)
Definition point_count (w : world) : nat :=
  match collections w !! COLLECTION_NAME with
  | Some c => size (points c)
  | None => 0
  end.

(** The store rejects the key when the batch is sent. *)
Definition world_unauthorized : world :=
  world_with documentation_768
    [Some (StoreError (js "Error") (js "401 unauthorized"))].

Definition world_bad_request : world :=
  world_with documentation_768 [Some bad_request_error].

(** The values of the calls that were fulfilled, in the order in which they
    settled. *)
Definition fulfilled_values {B} (rs : list (nat * completion B)) : list B :=
  omap (fun ir => match snd ir with
                  | Normal b => Some b
                  | Throw _ => None
                  end) rs.

(** The chunk a point carries. *)
Definition chunk_of (p : point) : DocumentChunk := chunk (payload_of p).

(** The provider has an embedding for the text of the chunk. *)
Definition embeddable (E : Env) (c : DocumentChunk) : Prop :=
  exists v, provider_embeddings E (text c) = inr v.

(** The outcome of the callback of index [fst ir] of a batch agrees with
    what the provider has for the chunk of this index. *)
Definition settled_for (E : Env) (batch : list DocumentChunk)
    (ir : nat * completion point) : Prop :=
  exists c,
    batch !! fst ir = Some c
    /\ match snd ir with
       | Normal p =>
           chunk_of p = c /\ _type (payload_of p) = js "DocumentChunk"
           /\ embeddable E c
       | Throw e =>
           (exists m, e = McpError InternalError m) /\ ~ embeddable E c
       end.

(** The points of the collection of the handler. *)
Definition points_of (w : world) : gmap jsstring point :=
  match collections w !! COLLECTION_NAME with
  | Some c => points c
  | None => ∅
  end.

(* --------------------------------------------------------------------- *)
(* 10. Notions for further properties of the code                         *)
(* --------------------------------------------------------------------- *)


(** The requests [initCollection] may send for a collection. *)
Definition init_request (api : ApiClient) (name : jsstring) (r : request)
  : Prop :=
  r = GetCollections \/ r = GetCollection name \/ r = DeleteCollection name
  \/ r = CreateCollection name (required_params api).

(** The collections of other names are as they were. *)
Definition others_kept (name : jsstring) (w w' : world) : Prop :=
  forall other : jsstring,
    other <> name -> collections w' !! other = collections w !! other.

(** A configuration for which [createFromConfig] has what it needs. *)
Definition config_complete (c : config) : Prop :=
  provider c = js "ollama"
  \/ (provider c = js "openai" /\ falsy (openaiApiKey c) = false)
  \/ (provider c = js "google" /\ falsy (geminiApiKey c) = false).

Definition config_openai_large : config :=
  {| provider := js "openai";
     openaiApiKey := Some (js "sk-test");
     openaiBaseUrl := None;
     geminiApiKey := None;
     model := Some (js "text-embedding-3-large") |}.

(** The message of a store error says that the collection exists already
    (someone else created it). *)
Definition says_already_exists (e : store_error) : bool :=
  match e with
  | StoreError _ m => includes (js "already exists") m
  | StoreOther _ => false
  end.

(** A point as the handler builds it: the tag, and an identifier of 32 code
    units. *)
Definition tagged (p : point) : Prop :=
  _type (payload_of p) = js "DocumentChunk" /\ length (id p) = 32%nat.

(** The configured size of each collection, by name. *)
Definition size_of (w : world) (name : jsstring) : option (option Z) :=
  match collections w !! name with
  | Some c => Some (config_size c)
  | None => None
  end.

(** The success response of the handler for [n] chunks in [k] batches. *)
Definition success_response (source : jsstring) (n k : nat) : McpToolResponse :=
  {| content_text :=
       js "Successfully added documentation from " ++ source
       ++ js " (" ++ String_of_nat n ++ js " chunks processed in "
       ++ String_of_nat k ++ js " batches)";
     isError := false |}.

(** The first segment of [target] below [root] starts with two dots. *)
Definition dotted_below (root target : list jsstring) : Prop :=
  exists seg rest,
    target = root ++ seg :: rest /\ startsWith (js "..") seg = true.

(** The error of the first file operation that fails on [path], if one
    does: [fs.access], then [fs.readFile]. *)
Definition read_failure (E : Env) (path : jsstring) : option fs_error :=
  match fs_access E path with
  | Some e => Some e
  | None =>
      match fs_readFile E path with
      | inl e => Some e
      | inr _ => None
      end
  end.

(** A source that the handler takes for a local path. *)
Definition local_source (source : jsstring) : Prop :=
  startsWith (js "http://") source = false
  /\ startsWith (js "https://") source = false.

(** A server in [/srv/app] where [notes.txt] is missing and [secret.txt]
    may not be read. *)
Definition env_files : Env :=
  {| cwd := js "/srv/app";
     fs_access := fun path =>
       if bool_decide (path = js "/srv/app/notes.txt") then
         Some {| fe_code := js "ENOENT";
                 fe_message := js "ENOENT: no such file or directory" |}
       else if bool_decide (path = js "/srv/app/secret.txt") then
         Some {| fe_code := js "EACCES";
                 fe_message := js "EACCES: permission denied" |}
       else None;
     fs_readFile := fun path =>
       if bool_decide (path = js "/srv/app/docs") then
         inl {| fe_code := js "EISDIR";
                fe_message := js "EISDIR: illegal operation on a directory, read" |}
       else inr (js "alpha beta gamma");
     load_url := fun _ => inl (JsError (js "TypeError") (js "fetch failed"));
     provider_embeddings := fun input =>
       if bool_decide (input = js "alpha beta gamma") then inr [1; 2; 3]
       else inl (js "Failed to generate embeddings with Ollama: Error: model not found");
     settles_next := fun _ _ => 0%nat;
     random_source := fun i => N.of_nat i;
     Date_toISOString := fun _ => js "2025-01-01T00:00:00.000Z" |}.

(** The state after more effects outside the store. *)
Definition with_io (w : world) (events : list io_event) : world :=
  {| collections := collections w; faults := faults w;
     requests := requests w; random_pos := random_pos w;
     io := io w ++ events |}.

(** A source that the handler takes for a URL. *)
Definition url_source (source : jsstring) : Prop :=
  startsWith (js "http://") source || startsWith (js "https://") source = true.

(** Files can be read, but the embedding model is missing. *)
Definition env_no_model : Env :=
  {| cwd := js "/srv/app";
     fs_access := fun _ => None;
     fs_readFile := fun _ => inr (js "alpha beta gamma");
     load_url := fun _ => inl (JsError (js "TypeError") (js "fetch failed"));
     provider_embeddings := fun _ =>
       inl (js "Failed to generate embeddings with Ollama: Error: model not found");
     settles_next := fun _ _ => 0%nat;
     random_source := fun i => N.of_nat i;
     Date_toISOString := fun _ => js "2025-01-01T00:00:00.000Z" |}.

(** The store answers every request and has the collection of the
    handler. *)
Definition store_ready (w : world) : Prop :=
  faults w = [] /\ is_Some (collections w !! COLLECTION_NAME).

(** The store throws [Unauthorized], the text of a 401, when the batch is
    sent. *)
Definition world_401 : world :=
  world_with documentation_768
    [Some (StoreError (js "Error") (js "Unauthorized"))].

(** An empty store whose listing throws [Not found] once. *)
Definition world_listing_not_found : world :=
  world_with ∅ [Some not_found_error].

(** As [env_docs], but of two embeddings asked for together the second comes
    back first. *)
Definition env_second_first : Env :=
  {| cwd := js "/srv/app";
     fs_access := fun _ => None;
     fs_readFile := fun _ => inr (js "alpha beta gamma");
     load_url := fun _ => inl (JsError (js "TypeError") (js "fetch failed"));
     provider_embeddings := fun _ => inr [1; 2; 3];
     settles_next := fun _ _ => 1%nat;
     random_source := fun i => N.of_nat i;
     Date_toISOString := fun _ => js "2025-01-01T00:00:00.000Z" |}.

Definition chunk_alpha : DocumentChunk :=
  {| text := js "alpha"; url := guide; title := guide;
     timestamp := js "2025-01-01T00:00:00.000Z" |}.

Definition chunk_beta : DocumentChunk :=
  {| text := js "beta"; url := guide; title := guide;
     timestamp := js "2025-01-01T00:00:00.000Z" |}.

(** The store after [guide.txt] was added once. *)
Definition world_guide_added : world :=
  Eval vm_compute in
    snd (handle env_docs (ArgString guide) (world_with documentation_768 [])).
Example split_ws_ex1 : split_ws (js "a  b") = [js "a"; js "b"].
Proof. reflexivity. Qed.
Example split_ws_ex2 : split_ws (js " a ") = [[]; js "a"; []].
Proof. reflexivity. Qed.
Example split_ws_ex3 : split_ws (js "") = [[]].
Proof. reflexivity. Qed.
Example chunkText_ex1 :
  chunkText (js "aa bb cc d") 4 = [js "aa bb"; js "cc d"].
Proof. reflexivity. Qed.

(* --------------------------------------------------------------------- *)
(* Facts about split and join                                             *)
(* --------------------------------------------------------------------- *)

Lemma split_scan_cur (cur s : jsstring) :
  split_scan false cur s = app_head (rev cur) (split_scan false [] s).
Proof.
  revert cur. induction s as [|c s IH]; intros cur; simpl.
  - by rewrite app_nil_r.
  - destruct (is_white_space c); simpl.
    + by rewrite app_nil_r.
    + rewrite (IH (c :: cur)), (IH [c]). simpl.
      destruct (split_scan false [] s); simpl; by rewrite <- ?app_assoc.
Qed.

Lemma split_ws_nil : split_ws [] = [[]].
Proof. reflexivity. Qed.

Lemma split_ws_char (c : N) (s : jsstring) :
  is_white_space c = false -> split_ws (c :: s) = cons_head c (split_ws s).
Proof.
  intros Hc. unfold split_ws. simpl. rewrite Hc, split_scan_cur. simpl.
  by destruct (split_scan false [] s).
Qed.

Lemma split_ws_space (c : N) (s : jsstring) :
  is_white_space c = true -> split_ws (c :: s) = [] :: split_scan true [] s.
Proof. intros Hc. unfold split_ws. simpl. by rewrite Hc. Qed.

Lemma split_after_char (c : N) (s : jsstring) :
  is_white_space c = false -> split_scan true [] (c :: s) = split_ws (c :: s).
Proof. intros Hc. unfold split_ws. simpl. by rewrite Hc. Qed.

Lemma split_after_space (c : N) (s : jsstring) :
  is_white_space c = true -> split_scan true [] (c :: s) = split_scan true [] s.
Proof. intros Hc. simpl. by rewrite Hc. Qed.

Lemma split_ws_not_nil (s : jsstring) : split_ws s <> [].
Proof.
  induction s as [|c s IH]; [done|].
  destruct (is_white_space c) eqn:Hc.
  - by rewrite split_ws_space.
  - rewrite split_ws_char by done. by destruct (split_ws s).
Qed.

Lemma split_wf (s : jsstring) :
  wf_words (split_ws s) /\ wf_tail (split_scan true [] s).
Proof.
  induction s as [|c s [IH1 IH2]].
  - simpl. repeat split; auto; constructor.
  - destruct (is_white_space c) eqn:Hc.
    + rewrite split_ws_space, split_after_space by done.
      simpl. repeat split; auto. constructor.
    + rewrite split_after_char, split_ws_char by done.
      destruct (split_ws s) as [|h r]; [done|].
      destruct IH1 as [Hh Hr]. simpl.
      assert (ws_free (c :: h)) by (by constructor).
      repeat split; auto.
Qed.

Lemma split_ws_app_word (w t : jsstring) :
  ws_free w -> split_ws (w ++ t) = app_head w (split_ws t).
Proof.
  induction 1 as [|c w Hc Hw IH]; simpl.
  - by destruct (split_ws t) eqn:E; [destruct (split_ws_not_nil t)|].
  - rewrite split_ws_char, IH by done. by destruct (split_ws t).
Qed.

Lemma split_after_no_ws (t : jsstring) :
  starts_ws t = false -> split_scan true [] t = split_ws t.
Proof. destruct t as [|c t]; [done|]. simpl. intros H. by apply split_after_char. Qed.

Lemma wf_tail_join_starts (l : list jsstring) :
  wf_tail l -> starts_ws (join space l) = false.
Proof.
  destruct l as [|w rest]; [done|]. intros (Hw & Hne & _).
  destruct rest as [|w' rest].
  - simpl. destruct Hw; [done|]. simpl. done.
  - destruct Hne as [|Hne]; [done|]. simpl.
    destruct Hw; [done|]. done.
Qed.

Lemma wf_tail_words (l : list jsstring) : l <> [] -> wf_tail l -> wf_words l.
Proof. destruct l; [done|]. simpl. tauto. Qed.

(** Joining the words of a split with single spaces and splitting again
    gives the words back. *)
Lemma split_join (l : list jsstring) :
  wf_words l -> split_ws (join space l) = l.
Proof.
  induction l as [|w rest IH]; [done|]. intros [Hw Hrest].
  destruct rest as [|w' rest].
  - simpl. rewrite <- (app_nil_r w) at 1.
    rewrite split_ws_app_word by done. simpl. by rewrite app_nil_r.
  - change (join space (w :: w' :: rest))
      with (w ++ space ++ join space (w' :: rest)).
    rewrite split_ws_app_word by done.
    change (space ++ join space (w' :: rest))
      with (32%N :: join space (w' :: rest)).
    rewrite split_ws_space by done.
    rewrite split_after_no_ws by (by apply wf_tail_join_starts).
    rewrite IH by (by apply wf_tail_words). simpl. by rewrite app_nil_r.
Qed.

Lemma split_join_split (s : jsstring) :
  split_ws (join space (split_ws s)) = split_ws s.
Proof. apply split_join, split_wf. Qed.

Lemma split_ws_free (w : jsstring) : ws_free w -> split_ws w = [w].
Proof.
  intros Hw. rewrite <- (app_nil_r w) at 1.
  rewrite split_ws_app_word by done. simpl. by rewrite app_nil_r.
Qed.

(* --------------------------------------------------------------------- *)
(* The chunker                                                            *)
(* --------------------------------------------------------------------- *)

Lemma join_app (sep : jsstring) (l1 l2 : list jsstring) :
  l1 <> [] -> l2 <> [] ->
  join sep (l1 ++ l2) = join sep l1 ++ sep ++ join sep l2.
Proof.
  induction l1 as [|w l1 IH]; [done|]. intros _ Hl2.
  destruct l1 as [|w' l1].
  - destruct l2; [done|]. reflexivity.
  - change (join sep ((w :: w' :: l1) ++ l2))
      with (w ++ sep ++ join sep ((w' :: l1) ++ l2)).
    rewrite IH by done.
    change (join sep (w :: w' :: l1)) with (w ++ sep ++ join sep (w' :: l1)).
    by rewrite <- !app_assoc.
Qed.

Lemma concat_groups_not_nil (g : list jsstring) (gs : list (list jsstring)) :
  g <> [] -> concat (g :: gs) <> [].
Proof. destruct g; [done|]. by simpl. Qed.

Lemma join_concat (sep : jsstring) (gs : list (list jsstring)) :
  Forall (fun g => g <> []) gs ->
  join sep (map (join sep) gs) = join sep (concat gs).
Proof.
  induction 1 as [|g gs Hg Hgs IH]; [done|].
  destruct gs as [|g' gs].
  - simpl. by rewrite app_nil_r.
  - change (join sep (map (join sep) (g :: g' :: gs)))
      with (join sep g ++ sep ++ join sep (map (join sep) (g' :: gs))).
    rewrite IH.
    change (concat (g :: g' :: gs)) with (g ++ concat (g' :: gs)).
    rewrite join_app; [done|done|].
    apply concat_groups_not_nil. by inversion Hgs.
Qed.

(** The loop cuts the words into groups: the closed groups become chunks,
    the open one is handed back. *)
Lemma chunk_loop_groups (maxSize : Z) (words chunks cur : list jsstring) :
  exists (gs : list (list jsstring)) (cur' : list jsstring),
    chunk_loop maxSize words chunks cur = (chunks ++ map (join space) gs, cur')
    /\ concat gs ++ cur' = cur ++ words
    /\ Forall (fun g => g <> []) gs
    /\ Forall (reaches maxSize) gs.
Proof.
  revert chunks cur. induction words as [|word rest IH]; intros chunks cur.
  - exists [], cur. simpl. by rewrite !app_nil_r.
  - simpl. destruct (maxSize <=? _) eqn:Hle.
    + destruct (IH (chunks ++ [join space (cur ++ [word])]) [])
        as (gs & cur' & Heq & Hcat & Hne & Hbig).
      exists ((cur ++ [word]) :: gs), cur'. repeat split.
      * rewrite Heq. simpl. by rewrite <- app_assoc.
      * simpl. rewrite <- !app_assoc. simpl in Hcat. by rewrite Hcat.
      * constructor; [|done]. by destruct cur.
      * constructor; [|done]. unfold reaches. lia.
    + destruct (IH chunks (cur ++ [word])) as (gs & cur' & Heq & Hcat & Hne & Hbig).
      exists gs, cur'. repeat split; try done.
      by rewrite Hcat, <- app_assoc.
Qed.

(** The chunks are the groups closed by the loop, then the open group if it
    holds a word. *)
Lemma chunkText_shape (text : jsstring) (maxSize : Z) :
  exists (gs : list (list jsstring)) (cur : list jsstring),
    chunkText text maxSize
    = map (join space) gs ++ match cur with [] => [] | _ => [join space cur] end
    /\ concat gs ++ cur = split_ws text
    /\ Forall (fun g => g <> []) gs
    /\ Forall (reaches maxSize) gs.
Proof.
  unfold chunkText.
  destruct (chunk_loop_groups maxSize (split_ws text) [] [])
    as (gs & cur & Heq & Hcat & Hne & Hbig).
  exists gs, cur. rewrite Heq. simpl in *. repeat split; try done.
  destruct cur; simpl; [by rewrite app_nil_r | done].
Qed.

Lemma chunkText_groups (text : jsstring) (maxSize : Z) :
  exists groups : list (list jsstring),
    concat groups = split_ws text
    /\ Forall (fun g => g <> []) groups
    /\ chunkText text maxSize = map (join space) groups.
Proof.
  destruct (chunkText_shape text maxSize) as (gs & cur & Heq & Hcat & Hne & _).
  destruct cur as [|w cur].
  - exists gs. rewrite app_nil_r in *. done.
  - exists (gs ++ [w :: cur]). repeat split.
    + rewrite concat_app. simpl. by rewrite app_nil_r.
    + apply Forall_app. split; [done|]. by constructor.
    + by rewrite map_app.
Qed.

Lemma chunkText_not_nil (text : jsstring) (maxSize : Z) :
  chunkText text maxSize <> [].
Proof.
  destruct (chunkText_groups text maxSize) as (gs & Hcat & _ & Heq).
  rewrite Heq. destruct gs; [|done].
  simpl in Hcat. by destruct (split_ws_not_nil text).
Qed.

(** C4: for non-empty text and a positive bound, the chunks are the words
    of the text cut into consecutive non-empty groups, each chunk being the
    words of its group joined by single spaces (so no word is split), and
    splitting the chunks joined by single spaces gives the words of the
    text again, in order. *)
Theorem chunkText_keeps_words (text : jsstring) (maxSize : Z) :
  text <> [] -> 0 < maxSize ->
  (exists groups : list (list jsstring),
      concat groups = split_ws text
      /\ Forall (fun g => g <> []) groups
      /\ chunkText text maxSize = map (join space) groups)
  /\ split_ws (join space (chunkText text maxSize)) = split_ws text.
Proof.
  intros _ _. split; [apply chunkText_groups|].
  destruct (chunkText_groups text maxSize) as (gs & Hcat & Hne & Heq).
  rewrite Heq, join_concat, Hcat by done. apply split_join_split.
Qed.

Lemma chunkText_keeps_words_witness :
  (js "aa bb  cc d" <> [] /\ 0 < 4)
  /\ (exists groups : list (list jsstring),
        concat groups = split_ws (js "aa bb  cc d")
        /\ Forall (fun g => g <> []) groups
        /\ chunkText (js "aa bb  cc d") 4 = map (join space) groups)
  /\ split_ws (join space (chunkText (js "aa bb  cc d") 4))
     = split_ws (js "aa bb  cc d").
Proof.
  split; [split; [discriminate | lia]|].
  apply (chunkText_keeps_words (js "aa bb  cc d") 4); [discriminate | lia].
Defined.

(** C5, at the empty text: [''.split(/\s+/)] is [['']], so the loop leaves
    one (empty) word in [currentChunk] and one chunk, the empty string, is
    returned. *)
Theorem chunkText_empty_text (maxSize : Z) :
  0 < maxSize -> chunkText [] maxSize = [[]].
Proof.
  intros H. unfold chunkText. simpl.
  destruct (Z.leb_spec maxSize (Z.of_nat 0)); [simpl in *; lia | reflexivity].
Qed.

Lemma chunkText_empty_text_witness :
  0 < 1000 /\ chunkText (js "") 1000 = [js ""].
Proof. split; [lia | apply (chunkText_empty_text 1000); lia]. Defined.

Lemma chunkText_one_word (w : jsstring) (maxSize : Z) :
  ws_free w -> maxSize <= Z.of_nat (length w) -> chunkText w maxSize = [w].
Proof.
  intros Hw Hle. unfold chunkText. rewrite split_ws_free by done. simpl.
  destruct (Z.leb_spec maxSize (Z.of_nat (length w))); [reflexivity | lia].
Qed.

Lemma replicate_ws_free (n : nat) : ws_free (replicate n 97%N).
Proof. induction n; constructor; done. Qed.

(** C10: every chunk but the last one has reached [maxSize], and a chunk
    can be longer than [maxSize]. *)
Theorem chunkText_maxSize_lower_bound (maxSize : Z) :
  0 < maxSize ->
  (forall (text : jsstring) (i : nat) (c : jsstring),
      chunkText text maxSize !! i = Some c ->
      (S i < length (chunkText text maxSize))%nat ->
      maxSize <= Z.of_nat (length c))
  /\ (exists (text : jsstring) (c : jsstring),
        c ∈ chunkText text maxSize /\ maxSize < Z.of_nat (length c)).
Proof.
  intros Hpos. split.
  - intros text i c Hi Hlt.
    destruct (chunkText_shape text maxSize) as (gs & cur & Heq & _ & _ & Hbig).
    rewrite Heq in Hi, Hlt. rewrite length_app in Hlt.
    assert (i < length (map (join space) gs))%nat as Hin
      by (destruct cur; simpl in Hlt; lia).
    rewrite lookup_app_l in Hi by done.
    rewrite list_lookup_fmap in Hi.
    destruct (gs !! i) as [g|] eqn:Hg; [|done].
    simpl in Hi. injection Hi as <-.
    eapply Forall_lookup_1 in Hbig; [|done]. done.
  - set (w := replicate (S (Z.to_nat maxSize)) 97%N).
    exists w, w.
    assert (length w = S (Z.to_nat maxSize)) as Hlen
      by apply length_replicate.
    split; [|lia].
    rewrite chunkText_one_word; [by left | apply replicate_ws_free | lia].
Qed.

Lemma chunkText_maxSize_lower_bound_witness :
  0 < 4
  /\ (chunkText (js "aa bb cc d e") 4 !! 1%nat = Some (js "cc d") ->
      (2 < length (chunkText (js "aa bb cc d e") 4))%nat ->
      4 <= Z.of_nat (length (js "cc d"))).
Proof.
  split; [lia|].
  apply (proj1 (chunkText_maxSize_lower_bound 4 ltac:(lia))).
Defined.

(* --------------------------------------------------------------------- *)
(* The provider factory and the construction of the client                *)
(* --------------------------------------------------------------------- *)

Lemma getVectorSize_pos (p : EmbeddingProvider) : 0 < getVectorSize p.
Proof.
  destruct p; simpl; repeat (match goal with |- context [if ?b then _ else _] =>
    destruct b end); lia.
Qed.

(** C7: a configuration that selects [openai] without an OpenAI key, or
    [google] without a Gemini key, makes [createFromConfig] throw an
    [InvalidParams] error, and [new ApiClient()] then throws too, in place of
    returning a client; with [ollama] no key is read, [createFromConfig]
    returns, and so does [new ApiClient()] once the store client is built.
    Both are functions of the configuration alone: no request is sent and
    nothing else is done before they return or throw. *)
Theorem createFromConfig_credentials :
  (forall c : config,
      provider c = js "openai" -> falsy (openaiApiKey c) = true ->
      createFromConfig c
      = Throw (McpError InvalidParams
          (js "OpenAI API key (OPENAI_API_KEY) is required for openai provider")))
  /\ (forall c : config,
      provider c = js "google" -> falsy (geminiApiKey c) = true ->
      createFromConfig c
      = Throw (McpError InvalidParams
          (js "Google Gemini API key (GEMINI_API_KEY) is required for google provider")))
  /\ (forall c : config,
      provider c = js "ollama" ->
      createFromConfig c = Normal (new_OllamaProvider (model c)))
  /\ (forall (qdrantClient : completion unit) (e : process_env),
      (EMBEDDING_PROVIDER e = js "openai"
       /\ falsy (env_OPENAI_API_KEY e) = true)
      \/ (EMBEDDING_PROVIDER e = js "google"
          /\ falsy (env_GEMINI_API_KEY e) = true) ->
      (exists error, new_ApiClient qdrantClient e = Throw error)
      /\ exists reason : jsstring,
           createFromConfig (config_of_env e)
           = Throw (McpError InvalidParams reason)
           /\ new_ApiClient (Normal tt) e
              = Throw (JsError (js "Error")
                  (js "Failed to initialize EmbeddingService: "
                   ++ message_of (McpError InvalidParams reason))))
  /\ (forall e : process_env,
      EMBEDDING_PROVIDER e = js "ollama" ->
      new_ApiClient (Normal tt) e
      = Normal {| qdrant_url := QDRANT_URL e;
                  qdrant_api_key := env_QDRANT_API_KEY e;
                  embeddingService :=
                    new_OllamaProvider (env_EMBEDDING_MODEL e) |}).
Proof.
  split; [|split; [|split; [|split]]].
  - intros c Hp Hk. unfold createFromConfig. rewrite Hp, Hk. reflexivity.
  - intros c Hp Hk. unfold createFromConfig. rewrite Hp, Hk. reflexivity.
  - intros c Hp. unfold createFromConfig. rewrite Hp. reflexivity.
  - intros q e Hsel.
    assert (exists reason : jsstring,
      createFromConfig (config_of_env e) = Throw (McpError InvalidParams reason))
      as (reason & Hcreate).
    { destruct Hsel as [[Hp Hk]|[Hp Hk]]; eexists;
        unfold createFromConfig; simpl provider; simpl openaiApiKey;
        simpl geminiApiKey; rewrite Hp, Hk; reflexivity. }
    split.
    + unfold new_ApiClient. rewrite Hcreate. destruct q as [[]|error]; eauto.
    + exists reason. split; [done|]. unfold new_ApiClient. by rewrite Hcreate.
  - intros e Hp. unfold new_ApiClient, createFromConfig. simpl provider.
    rewrite Hp. reflexivity.
Qed.

Lemma createFromConfig_credentials_witness :
  (exists error, new_ApiClient (Normal tt) env_openai_no_key = Throw error)
  /\ new_ApiClient (Normal tt) env_empty
     = Normal {| qdrant_url := js "http://127.0.0.1:6333";
                 qdrant_api_key := None;
                 embeddingService := OllamaProvider (js "nomic-embed-text") |}.
Proof.
  destruct createFromConfig_credentials as (_ & _ & _ & Hfail & Hok).
  split.
  - apply (Hfail (Normal tt) env_openai_no_key). left. split; reflexivity.
  - apply (Hok env_empty). reflexivity.
Defined.

(* --------------------------------------------------------------------- *)
(* The collection lifecycle                                               *)
(* --------------------------------------------------------------------- *)

Lemma find_name_absent (m : gmap jsstring collection) (name : jsstring) :
  m !! name = None ->
  find (fun c => bool_decide (c = name)) (map fst (map_to_list m)) = None.
Proof.
  intros Hm. destruct (find _ _) as [x|] eqn:Hf; [|done].
  apply find_some in Hf as [Hin Hx].
  apply bool_decide_eq_true in Hx as ->.
  apply in_map_iff in Hin as ([k c] & Hk & Hin). simpl in Hk. subst k.
  apply list_elem_of_In, elem_of_map_to_list in Hin. congruence.
Qed.

Lemma find_name_present (m : gmap jsstring collection) (name : jsstring)
    (c : collection) :
  m !! name = Some c ->
  find (fun c => bool_decide (c = name)) (map fst (map_to_list m)) = Some name.
Proof.
  intros Hm. destruct (find _ _) as [x|] eqn:Hf.
  - apply find_some in Hf as [_ Hx].
    by apply bool_decide_eq_true in Hx as ->.
  - exfalso. eapply find_none in Hf.
    + by apply bool_decide_eq_false in Hf.
    + apply in_map_iff. exists (name, c). split; [done|].
      by apply list_elem_of_In, elem_of_map_to_list.
Qed.

Lemma size_checks (current : option Z) (required : Z) :
  0 < required ->
  size_unreadable current || size_differs current required
  = negb (size_agrees current required).
Proof.
  intros Hpos. unfold size_agrees. destruct current as [n|]; simpl.
  - case_bool_decide as Hn.
    + injection Hn as ->. rewrite Z.eqb_refl.
      destruct (Z.eqb_spec required 0); [lia | done].
    + destruct (Z.eqb_spec n required); [by subst|].
      by rewrite orb_true_r.
  - first [reflexivity | by case_bool_decide].
Qed.

Lemma answered_answered (w : world) (m1 m2 : gmap jsstring collection)
    (rs1 rs2 : list request) :
  answered (answered w m1 rs1) m2 rs2 = answered w m2 (rs1 ++ rs2).
Proof. unfold answered, after. simpl. by rewrite <- app_assoc. Qed.

Lemma send_answered {A} (r : request)
    (answer : gmap jsstring collection ->
              completion A * gmap jsstring collection) (w : world) :
  faults w = [] ->
  send r answer w
  = (fst (answer (collections w)), answered w (snd (answer (collections w))) [r]).
Proof.
  intros Hf. unfold send, answered, after. rewrite Hf.
  by destruct (answer (collections w)).
Qed.

Lemma getCollections_answered (w : world) :
  faults w = [] ->
  getCollections w
  = (Normal (map fst (map_to_list (collections w))),
     answered w (collections w) [GetCollections]).
Proof. intros Hf. unfold getCollections. by rewrite send_answered. Qed.

Lemma getCollection_answered (w : world) (name : jsstring) (c : collection) :
  faults w = [] -> collections w !! name = Some c ->
  getCollection name w
  = (Normal (config_size c), answered w (collections w) [GetCollection name]).
Proof.
  intros Hf Hc. unfold getCollection. rewrite send_answered by done.
  by rewrite Hc.
Qed.

Lemma deleteCollection_answered (w : world) (name : jsstring) :
  faults w = [] ->
  deleteCollection name w
  = (Normal tt, answered w (delete name (collections w)) [DeleteCollection name]).
Proof. intros Hf. unfold deleteCollection. by rewrite send_answered. Qed.

Lemma createQdrantCollection_answered (api : ApiClient) (w : world)
    (name : jsstring) :
  faults w = [] -> collections w !! name = None ->
  createQdrantCollection api name (getVectorSize (embeddingService api)) w
  = (Normal tt,
     answered w (<[name := new_collection (required_params api)]> (collections w))
       [CreateCollection name (required_params api)]).
Proof.
  intros Hf Hc. unfold createQdrantCollection, try_catch, createCollection.
  rewrite send_answered by done. by rewrite Hc.
Qed.

Lemma recreateQdrantCollection_answered (api : ApiClient) (w : world)
    (name : jsstring) :
  faults w = [] ->
  recreateQdrantCollection api name (getVectorSize (embeddingService api)) w
  = (Normal tt,
     answered w (<[name := new_collection (required_params api)]> (collections w))
       [DeleteCollection name; CreateCollection name (required_params api)]).
Proof.
  intros Hf. unfold recreateQdrantCollection, try_catch, bind.
  rewrite deleteCollection_answered by done.
  rewrite createQdrantCollection_answered;
    [|done|apply lookup_delete_eq].
  rewrite answered_answered. simpl collections. by rewrite insert_delete_eq.
Qed.

(** Without faults, [initCollection] returns, and what it sends and leaves
    in the store is decided by the state of the collection. *)
Lemma initCollection_answered (api : ApiClient) (name : jsstring) (w : world) :
  faults w = [] ->
  initCollection api name w =
  (Normal tt,
   match collections w !! name with
   | None =>
       answered w (<[name := new_collection (required_params api)]> (collections w))
         [GetCollections; CreateCollection name (required_params api)]
   | Some c =>
       if size_agrees (config_size c) (getVectorSize (embeddingService api))
       then answered w (collections w) [GetCollections; GetCollection name]
       else
         answered w (<[name := new_collection (required_params api)]> (collections w))
           [GetCollections; GetCollection name; DeleteCollection name;
            CreateCollection name (required_params api)]
   end).
Proof.
  intros Hf.
  unfold initCollection, try_catch, bind.
  rewrite getCollections_answered by done.
  destruct (collections w !! name) as [c|] eqn:Hc.
  - rewrite (find_name_present _ _ _ Hc).
    rewrite (getCollection_answered _ _ c) by done.
    rewrite answered_answered.
    pose proof (size_checks (config_size c) _ (getVectorSize_pos (embeddingService api)))
      as Hchk.
    destruct (size_agrees _ _).
    + apply orb_false_iff in Hchk as [-> ->]. reflexivity.
    + assert (forall k : M unit,
        (if size_unreadable (config_size c) then k
         else if size_differs (config_size c) (getVectorSize (embeddingService api))
              then k else ret tt) = k) as ->.
      { intros k. destruct (size_unreadable _); [done|].
        simpl in Hchk. by rewrite Hchk. }
      rewrite recreateQdrantCollection_answered by done.
      by rewrite answered_answered.
  - rewrite (find_name_absent _ _ Hc).
    rewrite createQdrantCollection_answered by done.
    by rewrite answered_answered.
Qed.

(** C1: on a store that answers, [initCollection] returns and
    - creates the collection, with the provider's vector size and the cosine
      distance, when it is absent;
    - sends only the two reads when it is present with a readable size equal
      to the required one;
    - deletes it and creates it again with the required size, without
      points, when it is present and its size is unreadable or different. *)
Theorem initCollection_three_cases (api : ApiClient) (name : jsstring)
    (m : gmap jsstring collection) :
  let required := getVectorSize (embeddingService api) in
  let params :=
    {| vectors_size := required; vectors_distance := Cosine;
       cloud_settings := negb (falsy (qdrant_api_key api)) |} in
  let created :=
    {| config_size := Some required; config_distance := Cosine;
       points := ∅ |} in
  let result := initCollection api name (quiet m) in
  fst result = Normal tt
  /\ match m !! name with
     | None =>
         requests (snd result) = [GetCollections; CreateCollection name params]
         /\ collections (snd result) = <[name := created]> m
     | Some c =>
         if bool_decide (config_size c = Some required) then
           requests (snd result) = [GetCollections; GetCollection name]
           /\ collections (snd result) = m
         else
           requests (snd result)
           = [GetCollections; GetCollection name; DeleteCollection name;
              CreateCollection name params]
           /\ collections (snd result) = <[name := created]> m
     end.
Proof.
  intros required params created result. subst result.
  rewrite initCollection_answered by done. split; [done|].
  simpl collections. fold (size_agrees).
  destruct (m !! name) as [c|]; [|done].
  unfold size_agrees. fold required. by destruct (bool_decide _).
Qed.

Example initCollection_absent :
  initCollection api_default COLLECTION_NAME (quiet ∅)
  = (Normal tt,
     {| collections := {[ COLLECTION_NAME := empty_collection (Some 768) ]};
        faults := [];
        requests := [GetCollections;
                     CreateCollection COLLECTION_NAME
                       {| vectors_size := 768; vectors_distance := Cosine;
                          cloud_settings := false |}];
        random_pos := 0; io := [] |}).
Proof. vm_compute. reflexivity. Qed.

Example initCollection_other_size :
  requests (snd (initCollection api_default COLLECTION_NAME
                   (quiet documentation_1536)))
  = [GetCollections; GetCollection COLLECTION_NAME;
     DeleteCollection COLLECTION_NAME;
     CreateCollection COLLECTION_NAME
       {| vectors_size := 768; vectors_distance := Cosine;
          cloud_settings := false |}].
Proof. vm_compute. reflexivity. Qed.

(** On a store that answers every request: after a call of
    [initCollection] that returned, a second call with the same client sends the two reads only (no
    [deleteCollection], no [createCollection]) and leaves every collection,
    with its points and its size, as it was. *)
Lemma initCollection_idempotent (api : ApiClient) (name : jsstring)
    (w w1 : world) :
  faults w = [] ->
  initCollection api name w = (Normal tt, w1) ->
  exists w2 : world,
    initCollection api name w1 = (Normal tt, w2)
    /\ requests w2 = requests w1 ++ [GetCollections; GetCollection name]
    /\ collections w2 = collections w1.
Proof.
  intros Hf Hrun. rewrite initCollection_answered in Hrun by done.
  injection Hrun as Hw1.
  assert (faults w1 = []) as Hf1.
  { subst w1. destruct (collections w !! name) as [c|]; [|done].
    by destruct (size_agrees _ _). }
  assert (exists c, collections w1 !! name = Some c
                    /\ size_agrees (config_size c)
                         (getVectorSize (embeddingService api)) = true)
    as (c & Hc & Hok).
  { subst w1. destruct (collections w !! name) as [c|] eqn:Hc.
    - destruct (size_agrees _ _) eqn:Hs.
      + exists c. by split.
      + exists (new_collection (required_params api)). simpl.
        rewrite lookup_insert_eq. split; [done|].
        unfold size_agrees. simpl. by apply bool_decide_eq_true.
    - exists (new_collection (required_params api)). simpl.
      rewrite lookup_insert_eq. split; [done|].
      unfold size_agrees. simpl. by apply bool_decide_eq_true. }
  eexists. rewrite initCollection_answered by done.
  rewrite Hc, Hok. split; [reflexivity|]. by split.
Qed.

Lemma initCollection_idempotent_witness :
  (faults (quiet documentation_1536) = []
   /\ initCollection api_default COLLECTION_NAME (quiet documentation_1536)
      = (Normal tt, world_recreated))
  /\ exists w2 : world,
      initCollection api_default COLLECTION_NAME world_recreated
      = (Normal tt, w2)
      /\ requests w2
         = requests world_recreated
           ++ [GetCollections; GetCollection COLLECTION_NAME]
      /\ collections w2 = collections world_recreated.
Proof.
  assert (initCollection api_default COLLECTION_NAME (quiet documentation_1536)
          = (Normal tt, world_recreated)) as Hrun
    by (vm_compute; reflexivity).
  split; [split; [reflexivity | exact Hrun]|].
  exact (initCollection_idempotent api_default COLLECTION_NAME
           (quiet documentation_1536) world_recreated eq_refl Hrun).
Defined.

(* --------------------------------------------------------------------- *)
(* Errors of the store during [initCollection]                            *)
(* --------------------------------------------------------------------- *)

Lemma after_after (w : world) (m1 m2 : gmap jsstring collection)
    (fs1 fs2 : list (option store_error)) (rs1 rs2 : list request) :
  after (after w m1 fs1 rs1) m2 fs2 rs2 = after w m2 fs2 (rs1 ++ rs2).
Proof. unfold after. simpl. by rewrite <- app_assoc. Qed.

Lemma send_thrown {A} (r : request)
    (answer : gmap jsstring collection ->
              completion A * gmap jsstring collection)
    (w : world) (e : store_error) (rest : list (option store_error)) :
  faults w = Some e :: rest ->
  send r answer w = (Throw (thrown e), after w (collections w) rest [r]).
Proof. intros Hf. unfold send. by rewrite Hf. Qed.

Lemma send_passed {A} (r : request)
    (answer : gmap jsstring collection ->
              completion A * gmap jsstring collection)
    (w : world) (rest : list (option store_error)) :
  faults w = None :: rest ->
  send r answer w
  = (fst (answer (collections w)), after w (snd (answer (collections w))) rest [r]).
Proof.
  intros Hf. unfold send. rewrite Hf. by destruct (answer (collections w)).
Qed.

Lemma handleQdrantError_typed (api : ApiClient) (e : js_value)
    (context : jsstring) (w : world) :
  handleQdrantError api e context w = (Normal tt, w)
  \/ exists code message,
       handleQdrantError api e context w = (Throw (McpError code message), w).
Proof.
  unfold handleQdrantError, ret, throw.
  repeat match goal with
         | |- context [if ?b then _ else _] => destruct b
         end; eauto.
Qed.

(** What [initCollection] does with an error thrown by one of its reads. *)
Lemma initCollection_read_fault (api : ApiClient) (name : jsstring)
    (w : world) (e : store_error) :
  read_fault name w e ->
  exists w' : world,
    collections w' = collections w
    /\ initCollection api name w
       = handleQdrantError api (thrown e) init_context w'.
Proof.
  intros [(rest & Hf)|(rest & c & Hf & Hc)];
    unfold initCollection, try_catch, bind, getCollections.
  - rewrite (send_thrown _ _ _ _ _ Hf). eexists. split; [|reflexivity]. done.
  - rewrite (send_passed _ _ _ _ Hf). cbn [fst snd].
    rewrite (find_name_present _ _ _ Hc).
    unfold getCollection. erewrite send_thrown by reflexivity.
    eexists. split; [|reflexivity]. done.
Qed.

Lemma createQdrantCollection_exists (api : ApiClient) (name : jsstring)
    (size : Z) (w : world) (n m : jsstring) (rest : list (option store_error)) :
  faults w = Some (StoreError n m) :: rest ->
  includes (js "already exists") m = true ->
  exists w', createQdrantCollection api name size w = (Normal tt, w').
Proof.
  intros Hf Hm. unfold createQdrantCollection, try_catch, createCollection.
  rewrite (send_thrown _ _ _ _ _ Hf).
  unfold handleQdrantError. cbn [thrown instanceof_Error message_of].
  rewrite Hm.
  replace (includes (js "verify") (js "create")) with false by reflexivity.
  rewrite andb_false_r.
  replace (bool_decide (js "create" = js "create")) with true by reflexivity.
  cbn [andb]. eexists. reflexivity.
Qed.

(** The errors of the two reads and of the creation: an error with
    [Not found] in its message thrown
    by the listing or by the read of the collection's size is swallowed and
    [initCollection] returns, the store being as it was; an error with
    [already exists] thrown by [createCollection] is swallowed and
    [initCollection] returns; any other value thrown by one of the two reads
    is thrown again as an [McpError]: for a time-out or a refused connection
    with the endpoint in its message, for a rejected key with the code
    [InvalidRequest], else with the code [InternalError]; and whatever the
    store does, [initCollection] returns or throws an [McpError]. *)
Lemma initCollection_store_errors (api : ApiClient) (name : jsstring) :
  (forall w n m,
      read_fault name w (StoreError n m) ->
      includes (js "Not found") m = true ->
      exists w', initCollection api name w = (Normal tt, w')
                 /\ collections w' = collections w)
  /\ (forall w n m,
      create_fault api name w (StoreError n m) ->
      includes (js "already exists") m = true ->
      exists w', initCollection api name w = (Normal tt, w'))
  /\ (forall w n m,
      read_fault name w (StoreError n m) ->
      includes (js "Not found") m = false ->
      includes (js "timed out") m || includes (js "ECONNREFUSED") m = true ->
      exists w',
        initCollection api name w
        = (Throw (McpError InternalError
             (js "Connection to Qdrant (" ++ qdrant_url api
              ++ js ") failed during collection initialize/verify. Please check Qdrant status and URL.")),
           w'))
  /\ (forall w n m,
      read_fault name w (StoreError n m) ->
      includes (js "Not found") m = false ->
      includes (js "timed out") m || includes (js "ECONNREFUSED") m = false ->
      includes (js "Unauthorized") m || includes (js "Forbidden") m = true ->
      exists w',
        initCollection api name w
        = (Throw (McpError InvalidRequest
             (js "Authentication failed for Qdrant during collection initialize/verify. Please check QDRANT_API_KEY if using Qdrant Cloud.")),
           w'))
  /\ (forall w n m,
      read_fault name w (StoreError n m) ->
      includes (js "Not found") m = false ->
      includes (js "timed out") m || includes (js "ECONNREFUSED") m = false ->
      includes (js "Unauthorized") m || includes (js "Forbidden") m = false ->
      exists w',
        initCollection api name w
        = (Throw (McpError InternalError
             (js "Qdrant error during collection initialize/verify: " ++ m)),
           w'))
  /\ (forall w r,
      read_fault name w (StoreOther r) ->
      exists w',
        initCollection api name w
        = (Throw (McpError InternalError
             (js "Unknown Qdrant error during collection initialize/verify: "
              ++ r)),
           w'))
  /\ (forall w,
      exists w',
        initCollection api name w = (Normal tt, w')
        \/ exists code message,
             initCollection api name w = (Throw (McpError code message), w')).
Proof.
  repeat split.
  - intros w n m Hr Hm.
    destruct (initCollection_read_fault api name w _ Hr) as (w' & Hc & ->).
    exists w'. split; [|done].
    unfold handleQdrantError. cbn [thrown instanceof_Error message_of].
    rewrite Hm. reflexivity.
  - intros w n m [(rest & Hf & Hc)|(rest & c & Hf & Hc & Hs)] Hm;
      unfold initCollection, try_catch, bind, getCollections;
      rewrite (send_passed _ _ _ _ Hf); cbn [fst snd].
    + rewrite (find_name_absent _ _ Hc).
      edestruct createQdrantCollection_exists as (w' & ->);
        [reflexivity | exact Hm |]. eauto.
    + rewrite (find_name_present _ _ _ Hc).
      unfold getCollection. erewrite send_passed by reflexivity.
      cbn [fst snd collections after]. rewrite Hc. cbn [fst snd].
      pose proof (size_checks (config_size c) _
                    (getVectorSize_pos (embeddingService api))) as Hchk.
      rewrite Hs in Hchk.
      assert (forall k : M unit,
        (if size_unreadable (config_size c) then k
         else if size_differs (config_size c) (getVectorSize (embeddingService api))
              then k else ret tt) = k) as ->.
      { intros k. destruct (size_unreadable _); [done|].
        simpl in Hchk. by rewrite Hchk. }
      unfold recreateQdrantCollection, try_catch, bind, deleteCollection.
      erewrite send_passed by reflexivity. cbn [fst snd].
      edestruct createQdrantCollection_exists as (w' & ->);
        [reflexivity | exact Hm |]. eauto.
  - intros w n m Hr Hnf Hconn.
    destruct (initCollection_read_fault api name w _ Hr) as (w' & Hc & ->).
    exists w'. unfold handleQdrantError.
    cbn [thrown instanceof_Error message_of]. rewrite Hnf.
    replace (includes (js "already exists") m
             && bool_decide (init_context = js "create")) with false
      by (symmetry; apply andb_false_r).
    cbn [andb]. rewrite Hconn. reflexivity.
  - intros w n m Hr Hnf Hconn Hauth.
    destruct (initCollection_read_fault api name w _ Hr) as (w' & Hc & ->).
    exists w'. unfold handleQdrantError.
    cbn [thrown instanceof_Error message_of]. rewrite Hnf.
    replace (includes (js "already exists") m
             && bool_decide (init_context = js "create")) with false
      by (symmetry; apply andb_false_r).
    cbn [andb]. rewrite Hconn, Hauth. reflexivity.
  - intros w n m Hr Hnf Hconn Hauth.
    destruct (initCollection_read_fault api name w _ Hr) as (w' & Hc & ->).
    exists w'. unfold handleQdrantError.
    cbn [thrown instanceof_Error message_of]. rewrite Hnf.
    replace (includes (js "already exists") m
             && bool_decide (init_context = js "create")) with false
      by (symmetry; apply andb_false_r).
    cbn [andb]. rewrite Hconn, Hauth. reflexivity.
  - intros w r Hr.
    destruct (initCollection_read_fault api name w _ Hr) as (w' & Hc & ->).
    exists w'. reflexivity.
  - intros w. unfold initCollection, try_catch.
    match goal with |- context [match ?b w with _ => _ end] =>
      destruct (b w) as [[[]|e] w1] end.
    + exists w1. by left.
    + exists w1.
      destruct (handleQdrantError_typed api e (js "initialize/verify") w1)
        as [H|(code & msg & H)]; rewrite H; eauto.
Qed.

(* --------------------------------------------------------------------- *)
(* Paths                                                                  *)
(* --------------------------------------------------------------------- *)

Lemma split_on_not_nil (sep : N) (s : jsstring) : split_on sep s <> [].
Proof.
  induction s as [|c s IH]; [done|]. simpl.
  destruct (N.eqb c sep); [done|]. by destruct (split_on sep s).
Qed.

Lemma split_on_sep_app (sep : N) (a b : jsstring) :
  split_on sep (a ++ sep :: b) = split_on sep a ++ split_on sep b.
Proof.
  induction a as [|c a IH]; simpl.
  - by rewrite N.eqb_refl.
  - destruct (N.eqb c sep); [by rewrite IH|].
    rewrite IH. pose proof (split_on_not_nil sep a).
    by destruct (split_on sep a).
Qed.

Lemma split_on_slash_free (s : jsstring) :
  Forall slash_free (split_on slash s).
Proof.
  induction s as [|c s IH]; simpl.
  - repeat constructor.
  - destruct (N.eqb c slash) eqn:Hc.
    + constructor; [constructor | done].
    + destruct (split_on slash s) as [|h r]; [repeat constructor; done|].
      inversion IH; subst. constructor; [by constructor | done].
Qed.

Lemma split_on_word (w : jsstring) : slash_free w -> split_on slash w = [w].
Proof.
  induction 1 as [|c w Hc Hw IH]; [done|]. simpl. by rewrite Hc, IH.
Qed.

Lemma split_on_join (segs : list jsstring) :
  segs <> [] -> Forall slash_free segs ->
  split_on slash (join (js "/") segs) = segs.
Proof.
  induction segs as [|seg segs IH]; [done|]. intros _ Hall.
  inversion Hall as [|? ? Hseg Hrest]; subst.
  destruct segs as [|seg' segs].
  - by apply split_on_word.
  - change (join (js "/") (seg :: seg' :: segs))
      with (seg ++ slash :: join (js "/") (seg' :: segs)).
    rewrite split_on_sep_app, IH, split_on_word by done. done.
Qed.

Lemma normalize_step_kept (kept : list jsstring) (seg : jsstring) :
  kept_segment seg -> normalize_step kept seg = seg :: kept.
Proof.
  intros (H1 & H2 & H3 & _). unfold normalize_step.
  rewrite !bool_decide_eq_false_2 by done. done.
Qed.

Lemma normalize_fold_kept (segs kept : list jsstring) :
  Forall kept_segment segs ->
  fold_left normalize_step segs kept = rev segs ++ kept.
Proof.
  intros Hall. revert kept.
  induction Hall as [|seg segs Hseg Hall IH]; intros kept; [done|].
  simpl. rewrite normalize_step_kept, IH by done. by rewrite <- app_assoc.
Qed.

Lemma normalize_fold_invariant (segs kept : list jsstring) :
  Forall slash_free segs -> Forall kept_segment kept ->
  Forall kept_segment (fold_left normalize_step segs kept).
Proof.
  intros Hall. revert kept.
  induction Hall as [|seg segs Hseg Hall IH]; intros kept Hkept; [done|].
  simpl. apply IH. unfold normalize_step.
  case_bool_decide as H1; [done|]. case_bool_decide as H2; [done|].
  simpl. case_bool_decide as H3.
  - destruct kept; [done|]. by inversion Hkept.
  - constructor; [|done]. done.
Qed.

Lemma resolve_segments_kept (cwd p : jsstring) :
  Forall kept_segment (resolve_segments cwd p).
Proof.
  unfold resolve_segments, normalize_segments.
  apply Forall_rev, normalize_fold_invariant; [apply split_on_slash_free | done].
Qed.

Lemma kept_slash_free (segs : list jsstring) :
  Forall kept_segment segs -> Forall slash_free segs.
Proof.
  intros H. eapply Forall_impl; [exact H|]. by intros seg (_ & _ & _ & ?).
Qed.

(** Resolving a resolved path gives the same segments. *)
Lemma resolve_resolved (cwd p : jsstring) :
  resolve_segments cwd (path_resolve cwd p) = resolve_segments cwd p.
Proof.
  pose proof (resolve_segments_kept cwd p) as Hkept.
  unfold path_resolve.
  generalize dependent (resolve_segments cwd p). intros segs Hkept.
  unfold resolve_segments at 1.
  change (js "/" ++ join (js "/") segs) with (slash :: join (js "/") segs).
  change (startsWith (js "/") (slash :: join (js "/") segs)) with true.
  cbn match.
  change (slash :: join (js "/") segs) with ([] ++ slash :: join (js "/") segs).
  rewrite split_on_sep_app.
  unfold normalize_segments. rewrite fold_left_app.
  destruct segs as [|seg segs].
  - reflexivity.
  - rewrite split_on_join by (by apply kept_slash_free || done).
    rewrite normalize_fold_kept by done.
    change (fold_left normalize_step (split_on slash []) []) with (@nil jsstring).
    by rewrite app_nil_r, rev_involutive.
Qed.

Lemma resolve_empty (cwd : jsstring) :
  resolve_segments cwd [] = resolve_segments cwd (js ".").
Proof.
  unfold resolve_segments.
  change (startsWith (js "/") []) with false.
  change (startsWith (js "/") (js ".")) with false. cbn match.
  change (cwd ++ js "/" ++ []) with (cwd ++ slash :: []).
  change (cwd ++ js "/" ++ js ".") with (cwd ++ slash :: js ".").
  rewrite !split_on_sep_app. unfold normalize_segments.
  by rewrite !fold_left_app.
Qed.

Lemma strip_common_prefix (a b : list jsstring) :
  fst (strip_common a b) = [] -> a `prefix_of` b.
Proof.
  revert b. induction a as [|x a IH]; intros b.
  - intros _. apply prefix_nil.
  - destruct b as [|y b]; [done|]. simpl.
    case_bool_decide as Hxy; [|done]. subst y.
    intros H. by apply prefix_cons, IH.
Qed.

Lemma relative_starts_with_dots (up down : list jsstring) :
  up <> [] ->
  startsWith (js "..") (join (js "/") (map (fun _ => js "..") up ++ down)) = true.
Proof.
  destruct up as [|u up]; [done|]. intros _. simpl map.
  destruct (map (fun _ => js "..") up ++ down) eqn:Hrest;
    simpl; rewrite Hrest; reflexivity.
Qed.

(** A path that resolves outside the working directory has a relative path
    that starts with two dots. *)
Lemma outside_relative (cwd source : jsstring) :
  ~ resolve_segments cwd (js ".") `prefix_of` resolve_segments cwd source ->
  startsWith (js "..")
    (path_relative cwd (path_resolve cwd (js ".")) (path_resolve cwd source))
  = true.
Proof.
  intros Hout. unfold path_relative. rewrite !resolve_resolved.
  destruct (strip_common _ _) as [up down] eqn:Hs.
  apply relative_starts_with_dots. intros ->.
  apply Hout, strip_common_prefix. by rewrite Hs.
Qed.

(* --------------------------------------------------------------------- *)
(* The handler: local paths                                               *)
(* --------------------------------------------------------------------- *)

Lemma read_local_file_outside (E : Env) (source : jsstring) (w : world) :
  ~ resolve_segments (cwd E) (js ".") `prefix_of` resolve_segments (cwd E) source ->
  read_local_file E source w = (Throw access_denied, w).
Proof.
  intros Hout. unfold read_local_file.
  by rewrite outside_relative.
Qed.

(** C6: a source that is not a URL and resolves outside the working
    directory makes the handler throw the [InvalidParams] error of the path
    check; nothing was done before: no file access, no read, no embedding,
    no request to the store (the state is the one the call started in). *)
Theorem handle_rejects_outside_path (E : Env) (source : jsstring) (w : world) :
  startsWith (js "http://") source = false ->
  startsWith (js "https://") source = false ->
  ~ resolve_segments (cwd E) (js ".") `prefix_of` resolve_segments (cwd E) source ->
  handle E (ArgString source) w = (Throw access_denied, w).
Proof.
  intros Hhttp Hhttps Hout.
  destruct source as [|c s].
  { destruct Hout. by rewrite resolve_empty. }
  unfold handle, try_catch, bind, fetchAndProcessUrl, try_catch, bind.
  rewrite Hhttp, Hhttps. cbn [orb].
  by rewrite read_local_file_outside.
Qed.

Example path_resolve_traversal :
  path_resolve (js "/srv/app") (js "../../etc/passwd") = js "/etc/passwd".
Proof. vm_compute. reflexivity. Qed.

Example path_relative_traversal :
  path_relative (js "/srv/app") (js "/srv/app") (js "/etc/passwd")
  = js "../../etc/passwd".
Proof. vm_compute. reflexivity. Qed.

Example path_relative_inside :
  path_relative (js "/srv/app") (js "/srv/app")
    (path_resolve (js "/srv/app") (js "docs/./a/../guide.txt"))
  = js "docs/guide.txt".
Proof. vm_compute. reflexivity. Qed.

Lemma handle_rejects_outside_path_witness :
  (startsWith (js "http://") (js "../../etc/passwd") = false
   /\ startsWith (js "https://") (js "../../etc/passwd") = false
   /\ ~ resolve_segments (js "/srv/app") (js ".")
        `prefix_of` resolve_segments (js "/srv/app") (js "../../etc/passwd"))
  /\ handle env_srv_app (ArgString (js "../../etc/passwd")) (quiet ∅)
     = (Throw access_denied, quiet ∅).
Proof.
  assert (~ resolve_segments (js "/srv/app") (js ".")
            `prefix_of` resolve_segments (js "/srv/app") (js "../../etc/passwd"))
    as Hout.
  { intros [k Hk]. vm_compute in Hk. discriminate Hk. }
  split; [split; [reflexivity | split; [reflexivity | exact Hout]]|].
  exact (handle_rejects_outside_path env_srv_app (js "../../etc/passwd")
           (quiet ∅) eq_refl eq_refl Hout).
Defined.

(* --------------------------------------------------------------------- *)
(* The handler: point identifiers                                         *)
(* --------------------------------------------------------------------- *)

Lemma same_store_refl (w : world) : same_store w w.
Proof. done. Qed.

Lemma same_store_trans (w1 w2 w3 : world) :
  same_store w1 w2 -> same_store w2 w3 -> same_store w1 w3.
Proof. intros (? & ? & ?) (? & ? & ?). repeat split; congruence. Qed.

Lemma point_ids_S (source : nat -> N) (pos n : nat) :
  point_ids source pos (S n)
  = toString_hex (randomBytes source pos 16) :: point_ids source (pos + 16) n.
Proof.
  unfold point_ids. simpl seq. rewrite map_cons.
  replace (pos + 0 * 16)%nat with pos by lia. f_equal.
  rewrite <- seq_shift, map_map. apply map_ext. intros j.
  do 2 f_equal. lia.
Qed.

Lemma point_ids_app (source : nat -> N) (pos a b : nat) :
  point_ids source pos (a + b)
  = point_ids source pos a ++ point_ids source (pos + a * 16) b.
Proof.
  revert pos. induction a as [|a IH]; intros pos.
  - simpl. do 2 f_equal. lia.
  - change (S a + b)%nat with (S (a + b)).
    rewrite !point_ids_S, IH. simpl. do 3 f_equal. lia.
Qed.

Lemma upsert_ids_app (rs1 rs2 : list request) :
  upsert_ids (rs1 ++ rs2) = upsert_ids rs1 ++ upsert_ids rs2.
Proof. apply flat_map_app. Qed.

Lemma upsert_points_other (pts : list point) (ps : gmap jsstring point)
    (k : jsstring) :
  k ∉ map id pts -> upsert_points pts ps !! k = ps !! k.
Proof.
  revert ps. induction pts as [|p pts IH]; intros ps Hk; [done|].
  simpl in *. apply not_elem_of_cons in Hk as [Hp Hk].
  unfold upsert_points in *. simpl. rewrite IH by done.
  by rewrite lookup_insert_ne.
Qed.

Lemma omap_ext_in {A B} (f g : A -> option B) (l : list A) :
  (forall x, x ∈ l -> f x = g x) -> omap f l = omap g l.
Proof.
  induction l as [|x l IH]; intros Hfg; [done|].
  cbn [omap list_omap]. rewrite (Hfg x) by left.
  rewrite IH; [done|]. intros y Hy. apply Hfg. by right.
Qed.

(** Reading off a list by its indices gives the list. *)
Lemma omap_seq_lookup {A B} (f : nat -> option B) (g : B -> A) (l : list A)
    (s : nat) :
  (forall j c, l !! j = Some c -> exists p, f (s + j)%nat = Some p /\ g p = c) ->
  map g (omap f (seq s (length l))) = l.
Proof.
  revert s. induction l as [|c l IH]; intros s Hf; [done|].
  cbn [length seq omap list_omap].
  destruct (Hf 0%nat c eq_refl) as (p & Hp & Hg).
  rewrite Nat.add_0_r in Hp. rewrite Hp. cbn [map]. rewrite Hg. f_equal.
  apply IH. intros j c' Hj. destruct (Hf (S j) c' Hj) as (p' & Hp' & Hg').
  exists p'. split; [|done]. by rewrite <- Hp', Nat.add_succ_r.
Qed.

(** Every pending call settles, once. *)
Lemma settle_order_perm (choice : nat -> nat) (step : nat)
    (pending : list nat) (n : nat) :
  n = length pending -> settle_order choice step pending n ≡ₚ pending.
Proof.
  revert step pending. induction n as [|n IH]; intros step pending Hn.
  { by destruct pending. }
  cbn [settle_order].
  assert (choice step mod length pending < length pending)%nat as Hk
    by (apply Nat.mod_upper_bound; lia).
  destruct (lookup_lt_is_Some_2 pending _ Hk) as [i Hi]. rewrite Hi.
  etransitivity; [|symmetry; apply (delete_Permutation pending _ i Hi)].
  constructor. apply IH. rewrite length_delete by eauto. lia.
Qed.

Lemma first_rejection_none {B} (rs : list (nat * completion B)) :
  first_rejection rs = None ->
  Forall (fun ir => exists b, snd ir = Normal b) rs
  /\ length (fulfilled_values rs) = length rs.
Proof.
  induction rs as [|[i [b|e]] rs IH]; intros Hnone; [done| |done].
  destruct (IH Hnone) as [Hall Hlen]. split.
  - constructor; [by exists b | done].
  - unfold fulfilled_values in *. cbn [omap list_omap snd length].
    by rewrite Hlen.
Qed.

Lemma first_rejection_some {B} (rs : list (nat * completion B)) (e : js_value) :
  first_rejection rs = Some e -> exists i, (i, Throw e) ∈ rs.
Proof.
  induction rs as [|[i [b|e']] rs IH]; intros Hsome; [done| |].
  - destruct (IH Hsome) as [j Hj]. exists j. by right.
  - injection Hsome as ->. exists i. by left.
Qed.

Lemma fulfilled_elem {B} (i : nat) (rs : list (nat * completion B)) (b : B) :
  fulfilled i rs = Some b -> (i, Normal b) ∈ rs.
Proof.
  induction rs as [|[j r] rs IH]; [done|]. cbn [fulfilled].
  destruct (i =? j)%nat eqn:Hij.
  - apply Nat.eqb_eq in Hij as ->. destruct r; [|done].
    intros [= ->]. by left.
  - intros Hf. right. by apply IH.
Qed.

Lemma fulfilled_values_keys {B} (rs : list (nat * completion B)) :
  NoDup (map fst rs) -> first_rejection rs = None ->
  omap (fun i => fulfilled i rs) (map fst rs) = fulfilled_values rs.
Proof.
  induction rs as [|[i [b|e]] rs IH]; intros Hnd Hnone; [done| |done].
  cbn [map fst] in *. apply NoDup_cons in Hnd as [Hi Hnd].
  change (fulfilled_values ((i, Normal b) :: rs))
    with (b :: fulfilled_values rs).
  cbn [omap list_omap fulfilled]. rewrite Nat.eqb_refl. f_equal.
  rewrite <- (IH Hnd Hnone). apply omap_ext_in.
  intros j Hj. cbn [fulfilled].
  destruct (j =? i)%nat eqn:Hji; [|done].
  apply Nat.eqb_eq in Hji as ->. done.
Qed.

Lemma fulfilled_lookup {B} (i : nat) (rs : list (nat * completion B)) :
  i ∈ map fst rs -> first_rejection rs = None ->
  exists b, fulfilled i rs = Some b.
Proof.
  induction rs as [|[j [b|e]] rs IH]; intros Hin Hnone;
    [by apply elem_of_nil in Hin| |done].
  cbn [fulfilled]. destruct (i =? j)%nat eqn:Hij; [by exists b|].
  apply IH; [|done]. cbn [map fst] in Hin.
  apply elem_of_cons in Hin as [->|Hin]; [|done].
  by rewrite Nat.eqb_refl in Hij.
Qed.

Section HandlerFacts.

Variable E : Env.

Lemma getEmbeddings_settled_run (input : jsstring) (w : world) :
  getEmbeddings_settled E input w
  = match provider_embeddings E input with
    | inr v => (Normal v, w)
    | inl m =>
        (Throw (McpError InternalError
           (js "Failed to generate embeddings: "
            ++ message_of (McpError InternalError m))), w)
    end.
Proof.
  unfold getEmbeddings_settled, try_catch.
  by destruct (provider_embeddings E input).
Qed.

Lemma make_point_settled_run (c : DocumentChunk) (w : world) :
  make_point_settled E c w
  = match provider_embeddings E (text c) with
    | inr v =>
        (Normal {| id := toString_hex
                           (randomBytes (random_source E) (random_pos w) 16);
                   vector_of := v;
                   payload_of := {| chunk := c; _type := js "DocumentChunk" |} |},
         {| collections := collections w; faults := faults w;
            requests := requests w; random_pos := random_pos w + 16;
            io := io w |})
    | inl m =>
        (Throw (McpError InternalError
           (js "Failed to generate embeddings: "
            ++ message_of (McpError InternalError m))), w)
    end.
Proof.
  unfold make_point_settled, bind. rewrite getEmbeddings_settled_run.
  by destruct (provider_embeddings E (text c)).
Qed.

(** The callback, once the embedding has settled: the identifier is the
    next block of the random source, whatever the chunk is. *)
Lemma make_point_frame (c : DocumentChunk) (w w' : world)
    (r : completion point) :
  make_point_settled E c w = (r, w') ->
  same_store w w' /\ io w' = io w
  /\ match r with
     | Normal p =>
         id p = toString_hex (randomBytes (random_source E) (random_pos w) 16)
         /\ random_pos w' = (random_pos w + 16)%nat
     | Throw e => random_pos w' = random_pos w
     end
  /\ settled_for E [c] (0%nat, r).
Proof.
  rewrite make_point_settled_run. unfold settled_for, embeddable.
  destruct (provider_embeddings E (text c)) as [m|v] eqn:Hp;
    intros [= <- <-]; repeat split; try done; exists c; cbn [fst snd].
  - split; [done|]. split; [eauto|]. intros [v Hv]. by rewrite Hp in Hv.
  - repeat split; try done. rewrite Hp. eauto.
Qed.

(** All callbacks of a batch are started: each asks for its embedding. *)
Lemma start_all_make_point (batch : list DocumentChunk) (w : world) :
  exists w1,
    start_all (make_point E) batch w = (map (make_point_settled E) batch, w1)
    /\ same_store w w1 /\ random_pos w1 = random_pos w
    /\ io w1 = io w ++ map (fun c => Embed (text c)) batch.
Proof.
  revert w. induction batch as [|c batch IH]; intros w.
  { exists w. cbn [map start_all]. by rewrite app_nil_r. }
  cbn [start_all map].
  unfold make_point at 1, getEmbeddings, bind, log_io, ret.
  match goal with
  | |- context [start_all _ batch ?w0] =>
      destruct (IH w0) as (w1 & -> & Hs & Hp & Hio)
  end.
  exists w1. split; [done|]. cbn [io collections faults requests random_pos] in *.
  split; [done|]. split; [done|]. by rewrite Hio, <- app_assoc.
Qed.

(** The callbacks go on in the order given: each that has its embedding
    draws the next block of the random source. *)
Lemma settle_all_points (batch : list DocumentChunk) (order : list nat)
    (w w' : world) (rs : list (nat * completion point)) :
  Forall (fun i => (i < length batch)%nat) order ->
  settle_all (map (make_point_settled E) batch) order w = (rs, w') ->
  same_store w w' /\ io w' = io w
  /\ map fst rs = order
  /\ Forall (settled_for E batch) rs
  /\ map id (fulfilled_values rs)
     = point_ids (random_source E) (random_pos w) (length (fulfilled_values rs))
  /\ random_pos w' = (random_pos w + length (fulfilled_values rs) * 16)%nat.
Proof.
  revert w w' rs. induction order as [|i order IH]; intros w w' rs Hlt.
  { intros [= <- <-]. repeat split; try done. }
  apply Forall_cons in Hlt as [Hi Hlt]. cbn [settle_all].
  rewrite list_lookup_fmap.
  destruct (lookup_lt_is_Some_2 batch i Hi) as [c Hc]. rewrite Hc.
  cbn [fmap option_fmap option_map].
  destruct (make_point_settled E c w) as [r w1] eqn:Hm.
  apply make_point_frame in Hm as (Hs & Hio & Hid & Hfor).
  destruct (settle_all _ order w1) as [rs1 w2] eqn:Hrest.
  apply (IH _ _ _ Hlt) in Hrest as (Hs' & Hio' & Hkeys & Hall & Hids & Hpos).
  intros [= <- <-].
  split; [by eapply same_store_trans|]. split; [congruence|].
  split; [cbn [map fst]; by rewrite Hkeys|].
  split.
  { constructor; [|done]. destruct Hfor as (c' & [= <-] & Hfor).
    exists c. by split. }
  unfold fulfilled_values in *. cbn [omap list_omap snd].
  destruct r as [p|e].
  - destruct Hid as [Hid Hp1]. cbn [map length].
    rewrite point_ids_S, Hids, Hid, Hp1, Hpos, Hp1. split; [done|]. lia.
  - by rewrite Hids, Hid, Hpos, Hid.
Qed.

(** [Promise.all] over the callbacks of a batch: with an embedding for
    every chunk the points come back in the order of the batch, their
    identifiers being the next blocks of the random source in the order in
    which the embeddings settled; if not, it throws the error of the
    embedding that failed first. *)
Lemma Promise_all_frame (batch : list DocumentChunk) (w w' : world)
    (r : completion (list point)) :
  Promise_all_map E (make_point E) batch w = (r, w') ->
  same_store w w'
  /\ io w' = io w ++ map (fun c => Embed (text c)) batch
  /\ match r with
     | Normal pts =>
         map id pts
           ≡ₚ point_ids (random_source E) (random_pos w) (length batch)
         /\ random_pos w' = (random_pos w + length batch * 16)%nat
         /\ map chunk_of pts = batch
         /\ Forall (fun p => _type (payload_of p) = js "DocumentChunk") pts
         /\ Forall (embeddable E) batch
     | Throw e =>
         (exists m, e = McpError InternalError m)
         /\ exists c, c ∈ batch /\ ~ embeddable E c
     end.
Proof.
  unfold Promise_all_map.
  destruct (start_all_make_point batch w) as (w1 & -> & Hs & Hp & Hio).
  rewrite length_map.
  set (order := settle_order _ _ _ _).
  assert (order ≡ₚ seq 0 (length batch)) as Hperm
    by (apply settle_order_perm; by rewrite length_seq).
  assert (Forall (fun i => (i < length batch)%nat) order) as Hlt.
  { rewrite Hperm. apply Forall_forall. intros i Hin.
    apply elem_of_seq in Hin. lia. }
  destruct (settle_all _ order w1) as [rs w2] eqn:Hrun.
  apply (settle_all_points _ _ _ _ _ Hlt) in Hrun
    as (Hs' & Hio' & Hkeys & Hall & Hids & Hpos).
  assert (NoDup (map fst rs)) as Hnd
    by (rewrite Hkeys, Hperm; apply NoDup_seq).
  destruct (first_rejection rs) as [e|] eqn:Hrej; intros [= <- <-];
    (split; [by eapply same_store_trans|]); (split; [congruence|]).
  - apply first_rejection_some in Hrej as [i Hin].
    rewrite Forall_forall in Hall.
    destruct (Hall _ Hin) as (c & Hc & Hm & Hno). cbn [fst] in Hc.
    split; [done|]. exists c. split; [|done].
    by eapply list_elem_of_lookup_2.
  - destruct (first_rejection_none _ Hrej) as [Hnormal Hlen].
    assert (length rs = length batch) as Hlenrs.
    { rewrite <- (length_map fst rs), Hkeys, Hperm. apply length_seq. }
    rewrite Hlen, Hlenrs, Hp in Hids, Hpos.
    split; [|split; [|split; [|split]]].
    + rewrite <- Hids, <- (fulfilled_values_keys rs Hnd Hrej), Hkeys.
      by rewrite Hperm.
    + done.
    + apply (omap_seq_lookup _ chunk_of batch 0). intros j c Hc.
      assert (j ∈ map fst rs) as Hj.
      { rewrite Hkeys, Hperm. apply elem_of_seq.
        apply lookup_lt_Some in Hc. lia. }
      destruct (fulfilled_lookup j rs Hj Hrej) as [p Hf]. exists p.
      split; [done|]. apply fulfilled_elem in Hf.
      rewrite Forall_forall in Hall.
      destruct (Hall _ Hf) as (c' & Hc' & Hch & _). cbn [fst] in Hc'.
      congruence.
    + apply Forall_forall. intros p Hin.
      apply list_elem_of_omap in Hin as (j & _ & Hf).
      apply fulfilled_elem in Hf. rewrite Forall_forall in Hall.
      by destruct (Hall _ Hf) as (c' & _ & _ & Ht & _).
    + apply Forall_forall. intros c Hin.
      apply list_elem_of_lookup_1 in Hin as [j Hc].
      assert (j ∈ map fst rs) as Hj.
      { rewrite Hkeys, Hperm. apply elem_of_seq.
        apply lookup_lt_Some in Hc. lia. }
      destruct (fulfilled_lookup j rs Hj Hrej) as [p Hf].
      apply fulfilled_elem in Hf. rewrite Forall_forall in Hall.
      destruct (Hall _ Hf) as (c' & Hc' & _ & _ & He). cbn [fst] in Hc'.
      congruence.
Qed.

Lemma upsert_batch_run (pts : list point) (w : world) :
  upsert_batch pts w
  = match upsert COLLECTION_NAME true pts w with
    | (Normal a, w') => (Normal a, w')
    | (Throw e, w') => (Throw (upsert_rethrown e), w')
    end.
Proof.
  unfold upsert_batch, try_catch, upsert_rethrown, throw.
  destruct (upsert COLLECTION_NAME true pts w) as [[a|e] w']; [done|].
  repeat (destruct (_ && _); [done|]). done.
Qed.

Lemma upsert_frame (pts : list point) (w w' : world) (r : completion unit) :
  upsert COLLECTION_NAME true pts w = (r, w') ->
  requests w' = requests w ++ [Upsert COLLECTION_NAME true pts]
  /\ random_pos w' = random_pos w
  /\ forall k, k ∉ map id pts -> stored w' k = stored w k.
Proof.
  unfold upsert, send, stored.
  destruct (faults w) as [|[f|] rest];
    try destruct (collections w !! COLLECTION_NAME) as [c|] eqn:Hc;
    intros [= <- <-]; simpl; repeat split; try done;
    try (by rewrite Hc);
    intros k Hk; rewrite lookup_insert_eq; simpl;
    by apply upsert_points_other.
Qed.

Lemma upsert_batch_frame (pts : list point) (w w' : world)
    (r : completion unit) :
  upsert_batch pts w = (r, w') ->
  requests w' = requests w ++ [Upsert COLLECTION_NAME true pts]
  /\ random_pos w' = random_pos w
  /\ forall k, k ∉ map id pts -> stored w' k = stored w k.
Proof.
  rewrite upsert_batch_run.
  destruct (upsert COLLECTION_NAME true pts w) as [[a|e] w1] eqn:Hu;
    apply upsert_frame in Hu; by intros [= <- <-].
Qed.

(** What the loop over the batches does to the store: the identifiers it
    hands to [upsert] are the next blocks of the random source, each batch
    in the order in which its embeddings settled, and a stored point is kept
    unless its identifier is among them. *)
Lemma batch_loop_ids (fuel i : nat) (chunks : list DocumentChunk)
    (w w' : world) (r : completion unit) :
  batch_loop E fuel i chunks w = (r, w') ->
  exists (new : list jsstring) (n : nat),
    upsert_ids (requests w') = upsert_ids (requests w) ++ new
    /\ new ≡ₚ point_ids (random_source E) (random_pos w) n
    /\ forall k, k ∉ new -> stored w' k = stored w k.
Proof.
  revert i w w' r. induction fuel as [|fuel IH]; intros i w w' r.
  - intros [= <- <-]. exists [], 0%nat. by rewrite app_nil_r.
  - cbn [batch_loop]. destruct (i <? length chunks)%nat.
    2:{ intros [= <- <-]. exists [], 0%nat. by rewrite app_nil_r. }
    unfold bind.
    destruct (Promise_all_map _ _ _ w) as [[pts|e] w1] eqn:Hall;
      apply Promise_all_frame in Hall as ((Hc & _ & Hreq) & _ & Hp).
    2:{ intros [= <- <-]. exists [], 0%nat.
        rewrite Hreq, app_nil_r. split; [done|]. split; [done|].
        intros k _. unfold stored. by rewrite Hc. }
    destruct Hp as (Hids & Hpos & _).
    destruct (upsert_batch pts w1) as [[[]|e] w2] eqn:Hup;
      apply upsert_batch_frame in Hup as (Hr & Hq & Hk).
    + intros Hloop. apply IH in Hloop as (new & n & Hn & Hperm & Hkeep).
      exists (map id pts ++ new),
        (length (slice chunks i (i + batchSize)) + n)%nat.
      rewrite point_ids_app. rewrite Hq, Hpos in Hperm. split; [|split].
      * rewrite Hn, Hr, upsert_ids_app, Hreq. simpl.
        by rewrite app_nil_r, <- app_assoc.
      * by rewrite Hids, Hperm.
      * intros k Hnot. apply not_elem_of_app in Hnot as [Hk1 Hk2].
        rewrite Hkeep by done. rewrite Hk by done.
        unfold stored. by rewrite Hc.
    + intros [= <- <-].
      exists (map id pts), (length (slice chunks i (i + batchSize))).
      split; [|split].
      * rewrite Hr, upsert_ids_app, Hreq. simpl. by rewrite app_nil_r.
      * done.
      * intros k Hnot. rewrite Hk by done. unfold stored. by rewrite Hc.
Qed.

Lemma read_local_file_frame (source : jsstring) (w w' : world)
    (r : completion (jsstring * jsstring)) :
  read_local_file E source w = (r, w') ->
  same_store w w' /\ random_pos w' = random_pos w.
Proof.
  unfold read_local_file.
  destruct (_ || _); [by intros [= <- <-]|].
  unfold try_catch, bind, access, readFile, bind, log_io, throw, ret.
  destruct (fs_access E _).
  - repeat (case_bool_decide; [by intros [= <- <-]|]). by intros [= <- <-].
  - destruct (fs_readFile E _); [|by intros [= <- <-]].
    repeat (case_bool_decide; [by intros [= <- <-]|]). by intros [= <- <-].
Qed.

Lemma fetchAndProcessUrl_frame (source : jsstring) (w w' : world)
    (r : completion (list DocumentChunk)) :
  fetchAndProcessUrl E source w = (r, w') ->
  same_store w w' /\ random_pos w' = random_pos w
  /\ forall e, r = Throw e -> instanceof_McpError e = true.
Proof.
  unfold fetchAndProcessUrl, try_catch, bind.
  destruct (_ || _).
  - unfold read_url, bind, log_io, throw, ret.
    destruct (load_url E source) as [e|[t c]].
    + destruct (instanceof_McpError e) eqn:He; intros [= <- <-];
        repeat split; try done; by intros ? [= <-].
    + intros [= <- <-]. repeat split; done.
  - destruct (read_local_file E source w) as [[[t c]|e] w1] eqn:Hread;
      apply read_local_file_frame in Hread as (Hs & Hp).
    + intros [= <- <-]. repeat split; try done; apply Hs.
    + unfold throw.
      destruct (instanceof_McpError e) eqn:He; intros [= <- <-];
        repeat split; try done; try apply Hs; by intros ? [= <-].
Qed.

End HandlerFacts.

Lemma ErrorCode_text_value (c : ErrorCode) :
  ErrorCode_text c = js (pretty (ErrorCode_value c)).
Proof. by destruct c. Qed.

(** The fuel the handler gives to the loop is enough: the loop ends because
    its condition fails, and more fuel changes nothing. *)
Lemma batch_loop_fuel (E : Env) (fuel extra i : nat)
    (chunks : list DocumentChunk) (w : world) :
  (length chunks <= i + fuel * batchSize)%nat ->
  batch_loop E (fuel + extra) i chunks w = batch_loop E fuel i chunks w.
Proof.
  revert i w. induction fuel as [|fuel IH]; intros i w Hlen.
  - cbn [batch_loop]. destruct extra as [|extra]; [done|].
    cbn [Nat.add batch_loop].
    assert ((i <? length chunks)%nat = false) as ->
      by (apply Nat.ltb_ge; unfold batchSize in *; lia).
    done.
  - cbn [Nat.add batch_loop]. destruct (i <? length chunks)%nat; [|done].
    unfold bind.
    destruct (Promise_all_map _ _ _ w) as [[pts|e] w1]; [|done].
    destruct (upsert_batch pts w1) as [[[]|e] w2]; [|done].
    apply IH. unfold batchSize in *. lia.
Qed.

Lemma handle_fuel (E : Env) (extra : nat) (chunks : list DocumentChunk)
    (w : world) :
  batch_loop E (length chunks + extra) 0 chunks w
  = batch_loop E (length chunks) 0 chunks w.
Proof. apply batch_loop_fuel. unfold batchSize. lia. Qed.

Lemma hex_digit_inj (n m : N) :
  (n < 16)%N -> (m < 16)%N -> hex_digit n = hex_digit m -> n = m.
Proof.
  unfold hex_digit. intros Hn Hm.
  destruct (N.ltb_spec n 10), (N.ltb_spec m 10); lia.
Qed.

Lemma hex_byte_inj (a b : N) :
  (a < 256)%N -> (b < 256)%N -> hex_byte a = hex_byte b -> a = b.
Proof.
  intros Ha Hb [= Hhi Hlo].
  apply hex_digit_inj in Hhi;
    [|apply N.Div0.div_lt_upper_bound; lia..].
  apply hex_digit_inj in Hlo; [|apply N.mod_lt; lia..].
  rewrite (N.div_mod a 16), (N.div_mod b 16) by lia. by rewrite Hhi, Hlo.
Qed.

Lemma toString_hex_inj (a b : list N) :
  Forall (fun x => (x < 256)%N) a -> Forall (fun x => (x < 256)%N) b ->
  toString_hex a = toString_hex b -> a = b.
Proof.
  intros Ha. revert b. induction Ha as [|x a Hx Ha IH]; intros b Hb.
  - destruct b; [done|]. discriminate.
  - destruct Hb as [|y b Hy Hb]; [discriminate|].
    unfold toString_hex. simpl. intros [= Hhi Hlo Hrest].
    f_equal.
    + apply hex_byte_inj; [done..|]. unfold hex_byte. by rewrite Hhi, Hlo.
    + by apply IH.
Qed.

Lemma randomBytes_bytes (source : nat -> N) (pos n : nat) :
  Forall (fun x => (x < 256)%N) (randomBytes source pos n).
Proof.
  unfold randomBytes. apply Forall_forall. intros x Hx.
  apply list_elem_of_In, in_map_iff in Hx as (i & <- & _).
  by apply N.mod_lt.
Qed.

Lemma toString_hex_length (bytes : list N) :
  length (toString_hex bytes) = (2 * length bytes)%nat.
Proof.
  unfold toString_hex. induction bytes as [|b bytes IH]; [done|].
  simpl in *. rewrite IH. lia.
Qed.

Lemma randomBytes_length (source : nat -> N) (pos n : nat) :
  length (randomBytes source pos n) = n.
Proof. unfold randomBytes. by rewrite length_map, length_seq. Qed.

(* --------------------------------------------------------------------- *)
(* The handler: errors                                                    *)
(* --------------------------------------------------------------------- *)

Lemma instanceof_McpError_inv (e : js_value) :
  instanceof_McpError e = true -> exists code message, e = McpError code message.
Proof. destruct e; try done. eauto. Qed.

(** The ways of an error through the handler: in a round of the loop whose
    points were built, a value thrown by
    [upsert] leaves the loop as an [InvalidRequest] error when it is an
    [Error] whose message has [unauthorized], as an [InternalError] error
    when its message has [ECONNREFUSED] or [ETIMEDOUT], and as it is
    otherwise; an [McpError] thrown while building the points leaves the loop
    as it is; what [fetchAndProcessUrl] throws is an [McpError] and the
    handler throws it unchanged; of what the loop throws, the handler throws
    an [McpError] unchanged and turns any other value into a response with
    [isError]; so the handler never throws anything but an [McpError]. *)
Lemma handle_error_taxonomy (E : Env) :
  (forall fuel i chunks w pts w1 f rest,
      (i < length chunks)%nat ->
      Promise_all_map E (make_point E) (slice chunks i (i + batchSize)) w
      = (Normal pts, w1) ->
      faults w1 = Some f :: rest ->
      fst (batch_loop E (S fuel) i chunks w)
      = Throw
          match f with
          | StoreError n m =>
              if includes (js "unauthorized") m then auth_failed
              else if includes (js "ECONNREFUSED") m
                      || includes (js "ETIMEDOUT") m
                   then connection_failed
                   else JsError n m
          | StoreOther r => JsOther r
          end)
  /\ (forall fuel i chunks w e w1,
      (i < length chunks)%nat ->
      Promise_all_map E (make_point E) (slice chunks i (i + batchSize)) w
      = (Throw e, w1) ->
      (exists code message, e = McpError code message)
      /\ batch_loop E (S fuel) i chunks w = (Throw e, w1))
  /\ (forall url w e w1,
      url <> [] ->
      fetchAndProcessUrl E url w = (Throw e, w1) ->
      (exists code message, e = McpError code message)
      /\ handle E (ArgString url) w = (Throw e, w1))
  /\ (forall url w chunks w1 e w2,
      url <> [] ->
      fetchAndProcessUrl E url w = (Normal chunks, w1) ->
      batch_loop E (length chunks) 0 chunks w1 = (Throw e, w2) ->
      handle E (ArgString url) w
      = if instanceof_McpError e then (Throw e, w2)
        else (Normal (failure_response e), w2))
  /\ (forall arg w e,
      fst (handle E arg w) = Throw e ->
      exists code message, e = McpError code message).
Proof.
  split; [|split; [|split; [|split]]].
  - intros fuel i chunks w pts w1 f rest Hi Hall Hf.
    cbn [batch_loop]. apply Nat.ltb_lt in Hi. rewrite Hi.
    unfold bind. rewrite Hall, upsert_batch_run.
    unfold upsert. rewrite (send_thrown _ _ _ _ _ Hf). cbn [fst].
    f_equal. unfold upsert_rethrown.
    destruct f as [n m|r]; cbn [thrown instanceof_Error message_of andb];
      [|done].
    destruct (includes (js "unauthorized") m); [done|].
    by destruct (_ || _).
  - intros fuel i chunks w e w1 Hi Hall.
    cbn [batch_loop]. apply Nat.ltb_lt in Hi. rewrite Hi.
    unfold bind. rewrite Hall. split; [|done].
    apply Promise_all_frame in Hall as (_ & _ & (m & ->) & _). eauto.
  - intros url w e w1 Hurl Hfetch.
    pose proof Hfetch as Hfr.
    apply fetchAndProcessUrl_frame in Hfr as (_ & _ & He).
    specialize (He e eq_refl). split; [by apply instanceof_McpError_inv|].
    destruct url as [|c s]; [done|].
    unfold handle, try_catch, bind. by rewrite Hfetch, He.
  - intros url w chunks w1 e w2 Hurl Hfetch Hloop.
    destruct url as [|c s]; [done|].
    unfold handle, try_catch, bind. rewrite Hfetch, Hloop.
    by destruct (instanceof_McpError e).
  - intros arg w e. unfold handle.
    destruct arg as [|[|c s]|]; try (intros [= <-]; eauto).
    unfold try_catch, bind.
    destruct (fetchAndProcessUrl E (c :: s) w) as [[chunks|e1] w1] eqn:Hfetch.
    + destruct (batch_loop _ _ _ _ _) as [[[]|e2] w2]; [done|].
      destruct (instanceof_McpError e2) eqn:He2; [|done].
      intros [= <-]. by apply instanceof_McpError_inv.
    + apply fetchAndProcessUrl_frame in Hfetch as (_ & _ & He).
      rewrite (He e1 eq_refl). intros [= <-].
      by apply instanceof_McpError_inv, He.
Qed.

(* --------------------------------------------------------------------- *)
(* Concrete runs                                                          *)
(* --------------------------------------------------------------------- *)

(** The read of the collection's size throws [Not found]:
    [initCollection] swallows it and returns, and no [createCollection] was
    sent: the two reads are all it did. *)
Example initCollection_not_found_no_create :
  fst (initCollection api_default COLLECTION_NAME world_not_found) = Normal tt
  /\ requests (snd (initCollection api_default COLLECTION_NAME world_not_found))
     = [GetCollections; GetCollection COLLECTION_NAME]
  /\ ~ exists params,
         CreateCollection COLLECTION_NAME params
         ∈ requests (snd (initCollection api_default COLLECTION_NAME
                            world_not_found)).
Proof.
  assert (requests (snd (initCollection api_default COLLECTION_NAME world_not_found))
          = [GetCollections; GetCollection COLLECTION_NAME]) as Hreq
    by (vm_compute; reflexivity).
  split; [vm_compute; reflexivity|]. split; [exact Hreq|].
  intros [params Hin]. rewrite Hreq in Hin.
  apply elem_of_cons in Hin as [Hin|Hin]; [discriminate Hin|].
  apply elem_of_cons in Hin as [Hin|Hin]; [discriminate Hin|].
  by apply elem_of_nil in Hin.
Qed.

(** Two more runs, for errors thrown by other requests than the reads: a key
    that may read but not write has [createCollection] throw [Forbidden],
    and the error leaves [initCollection] with the code [InternalError],
    handled twice; a [Not found] thrown by [deleteCollection] is swallowed
    like one thrown by a read. *)
Example initCollection_forbidden_create :
  fst (initCollection api_default COLLECTION_NAME
         (world_with ∅ [None; Some forbidden_error]))
  = Throw (McpError InternalError
      (js "Qdrant error during collection initialize/verify: MCP error -32600: Authentication failed for Qdrant during collection create. Please check QDRANT_API_KEY if using Qdrant Cloud.")).
Proof. vm_compute. reflexivity. Qed.

Example initCollection_delete_not_found :
  initCollection api_default COLLECTION_NAME
    (world_with documentation_1536 [None; None; Some not_found_error])
  = (Normal tt,
     {| collections := documentation_1536; faults := [];
        requests := [GetCollections; GetCollection COLLECTION_NAME;
                     DeleteCollection COLLECTION_NAME];
        random_pos := 0; io := [] |}).
Proof. vm_compute. reflexivity. Qed.

Lemma initCollection_store_errors_witness :
  (exists w',
      initCollection api_default COLLECTION_NAME world_not_found = (Normal tt, w')
      /\ collections w' = collections world_not_found)
  /\ (exists w',
        initCollection api_default COLLECTION_NAME
          (world_with ∅ [None; Some already_exists_error]) = (Normal tt, w'))
  /\ (exists w',
        initCollection api_default COLLECTION_NAME
          (world_with ∅ [Some refused_error])
        = (Throw (McpError InternalError
             (js "Connection to Qdrant (" ++ qdrant_url api_default
              ++ js ") failed during collection initialize/verify. Please check Qdrant status and URL.")),
           w'))
  /\ (exists w',
        initCollection api_default COLLECTION_NAME
          (world_with ∅ [Some forbidden_error])
        = (Throw (McpError InvalidRequest
             (js "Authentication failed for Qdrant during collection initialize/verify. Please check QDRANT_API_KEY if using Qdrant Cloud.")),
           w'))
  /\ (exists w',
        initCollection api_default COLLECTION_NAME
          (world_with ∅ [Some bad_request_error])
        = (Throw (McpError InternalError
             (js "Qdrant error during collection initialize/verify: "
              ++ js "Bad Request")),
           w'))
  /\ (exists w',
        initCollection api_default COLLECTION_NAME
          (world_with ∅ [Some (StoreOther (js "undefined"))])
        = (Throw (McpError InternalError
             (js "Unknown Qdrant error during collection initialize/verify: "
              ++ js "undefined")),
           w')).
Proof.
  destruct (initCollection_store_errors api_default COLLECTION_NAME)
    as (Hnf & Hex & Hconn & Hauth & Hother & Hunknown & _).
  repeat split.
  - apply (Hnf world_not_found (js "Error")
             (js "Not found: Collection `documentation` doesn't exist!")).
    + right. exists [], (empty_collection (Some 768)). split; reflexivity.
    + reflexivity.
  - apply (Hex (world_with ∅ [None; Some already_exists_error]) (js "Error")
             (js "Wrong input: Collection `documentation` already exists!")).
    + left. exists []. split; reflexivity.
    + reflexivity.
  - apply (Hconn (world_with ∅ [Some refused_error]) (js "Error")
             (js "connect ECONNREFUSED 127.0.0.1:6333")).
    + left. exists []. reflexivity.
    + reflexivity.
    + reflexivity.
  - apply (Hauth (world_with ∅ [Some forbidden_error]) (js "Error")
             (js "Forbidden")).
    + left. exists []. reflexivity.
    + reflexivity.
    + reflexivity.
    + reflexivity.
  - apply (Hother (world_with ∅ [Some bad_request_error]) (js "Error")
             (js "Bad Request")).
    + left. exists []. reflexivity.
    + reflexivity.
    + reflexivity.
    + reflexivity.
  - apply (Hunknown (world_with ∅ [Some (StoreOther (js "undefined"))])
             (js "undefined")).
    left. exists []. reflexivity.
Defined.

(** Adding [guide.txt] to a store that answers: one chunk, one point, whose
    identifier is the first 16 bytes of the random source in hexadecimal. *)
Example handle_guide :
  fst (handle env_docs (ArgString guide) (world_with documentation_768 []))
  = Normal {| content_text :=
                js "Successfully added documentation from guide.txt (1 chunks processed in 1 batches)";
              isError := false |}
  /\ upsert_ids (requests (snd (handle env_docs (ArgString guide)
                                  (world_with documentation_768 []))))
     = [js "000102030405060708090a0b0c0d0e0f"].
Proof. split; vm_compute; reflexivity. Qed.

(** Adding it twice: the second run draws the next block, and the collection
    holds two points. *)
Example handle_guide_twice :
  upsert_ids (requests (snd (handle env_docs (ArgString guide)
     (snd (handle env_docs (ArgString guide) (world_with documentation_768 []))))))
  = [js "000102030405060708090a0b0c0d0e0f";
     js "101112131415161718191a1b1c1d1e1f"]
  /\ point_count (snd (handle env_docs (ArgString guide)
                    (snd (handle env_docs (ArgString guide)
                            (world_with documentation_768 [])))))
     = 2%nat.
Proof. split; vm_compute; reflexivity. Qed.

Example handle_upsert_unauthorized :
  fst (handle env_docs (ArgString guide) world_unauthorized) = Throw auth_failed.
Proof. vm_compute. reflexivity. Qed.

Example handle_upsert_bad_request :
  fst (handle env_docs (ArgString guide) world_bad_request)
  = Normal {| content_text :=
                js "Failed to add documentation: Error: Bad Request";
              isError := true |}.
Proof. vm_compute. reflexivity. Qed.

(** A page that cannot be fetched: the error is wrapped by
    [fetchAndProcessUrl] and the handler throws the wrapper. *)
Example handle_fetch_failed :
  fst (handle env_docs (ArgString (js "https://example.com/docs"))
         (world_with documentation_768 []))
  = Throw (McpError InternalError
      (js "Failed to fetch or process source https://example.com/docs: fetch failed")).
Proof. vm_compute. reflexivity. Qed.

(* --------------------------------------------------------------------- *)
(* More on the chunker                                                    *)
(* --------------------------------------------------------------------- *)


Lemma join_prefix_length (l1 l2 : list jsstring) :
  (length (join space l1) <= length (join space (l1 ++ l2)))%nat.
Proof.
  destruct l1 as [|a l1]; [simpl; lia|].
  destruct l2 as [|b l2]; [by rewrite app_nil_r|].
  rewrite join_app by done. rewrite length_app. lia.
Qed.




Lemma chunk_loop_every_word (maxSize : Z) (words chunks : list jsstring) :
  maxSize <= 0 ->
  chunk_loop maxSize words chunks [] = (chunks ++ words, []).
Proof.
  intros Hmax. revert chunks. induction words as [|word rest IH]; intros chunks.
  - simpl. by rewrite app_nil_r.
  - cbn [chunk_loop app join].
    destruct (Z.leb_spec maxSize (Z.of_nat (length word))); [|lia].
    rewrite IH. by rewrite <- app_assoc.
Qed.

(** X2 (chunkText, bound of zero or less): every word closes its chunk at
    once, so the chunks are the words of the text, one by one. *)
Theorem chunkText_nonpositive_bound (text : jsstring) (maxSize : Z) :
  maxSize <= 0 -> chunkText text maxSize = split_ws text.
Proof.
  intros Hmax. unfold chunkText. by rewrite chunk_loop_every_word.
Qed.

Lemma chunkText_nonpositive_bound_witness :
  0 <= 0 /\ chunkText (js " aa  bb ") 0 = [js ""; js "aa"; js "bb"; js ""].
Proof.
  split; [lia|].
  rewrite (chunkText_nonpositive_bound (js " aa  bb ") 0 ltac:(lia)).
  reflexivity.
Defined.

Lemma chunk_loop_never_closes (maxSize : Z) (words cur : list jsstring) :
  Z.of_nat (length (join space (cur ++ words))) < maxSize ->
  chunk_loop maxSize words [] cur = ([], cur ++ words).
Proof.
  revert cur. induction words as [|word rest IH]; intros cur Hlen.
  - by rewrite app_nil_r.
  - cbn [chunk_loop].
    pose proof (join_prefix_length (cur ++ [word]) rest) as Hpre.
    rewrite <- app_assoc in Hpre. simpl in Hpre.
    destruct (Z.leb_spec maxSize (Z.of_nat (length (join space (cur ++ [word])))));
      [lia|].
    rewrite IH; rewrite <- app_assoc; done.
Qed.

(** X3 (chunkText, short text): when the words of the text joined by single
    spaces stay below the bound, there is one chunk: these words joined by
    single spaces (runs of white space come out as one space each). *)
Theorem chunkText_short_text (text : jsstring) (maxSize : Z) :
  Z.of_nat (length (join space (split_ws text))) < maxSize ->
  chunkText text maxSize = [join space (split_ws text)].
Proof.
  intros Hlen. unfold chunkText.
  rewrite chunk_loop_never_closes by done. simpl.
  pose proof (split_ws_not_nil text). by destruct (split_ws text).
Qed.

Lemma chunkText_short_text_witness :
  Z.of_nat (length (join space (split_ws (js "alpha   beta  gamma")))) < 1000
  /\ chunkText (js "alpha   beta  gamma") 1000 = [js "alpha beta gamma"].
Proof.
  assert (Z.of_nat (length (join space (split_ws (js "alpha   beta  gamma")))) < 1000) as Hlen by (vm_compute; reflexivity).
  split; [exact Hlen|].
  rewrite (chunkText_short_text _ 1000 Hlen). reflexivity.
Defined.

Lemma split_scan_run_not_nil (s : jsstring) : split_scan true [] s <> [].
Proof.
  induction s as [|c s IH]; [done|].
  destruct (is_white_space c) eqn:Hc.
  - by rewrite split_after_space.
  - rewrite split_after_char by done. apply split_ws_not_nil.
Qed.

(** The last word of a text that does not end with white space is not
    empty.  (The default of [List.last] is a space: the empty text counts as
    ending with white space.) *)
Lemma split_last_word (s : jsstring) :
  is_white_space (List.last s 32%N) = false ->
  List.last (split_ws s) [] <> [] /\ List.last (split_scan true [] s) [] <> [].
Proof.
  induction s as [|c s IH]; [done|]. intros Hlast.
  destruct s as [|c' s].
  - simpl in Hlast. rewrite split_after_char, split_ws_char by done. by simpl.
  - change (List.last (c :: c' :: s) 32%N) with (List.last (c' :: s) 32%N)
      in Hlast.
    destruct (IH Hlast) as [IH1 IH2].
    destruct (is_white_space c) eqn:Hc.
    + rewrite split_after_space, split_ws_space by done. split; [|done].
      pose proof (split_scan_run_not_nil (c' :: s)).
      by destruct (split_scan true [] (c' :: s)).
    + rewrite split_after_char by done. rewrite split_ws_char by done.
      assert (List.last (cons_head c (split_ws (c' :: s))) [] <> []); [|done].
      destruct (split_ws (c' :: s)) as [|h [|h' r]]; [done|done|].
      exact IH1.
Qed.

Lemma join_nil_inv (l : list jsstring) :
  l <> [] -> join space l = [] -> l = [[]].
Proof.
  destruct l as [|w [|w' l]]; [done| |].
  - simpl. by intros _ ->.
  - intros _ H. change (join space (w :: w' :: l))
      with (w ++ space ++ join space (w' :: l)) in H.
    apply app_eq_nil in H as [_ H]. discriminate H.
Qed.

(** X4 (chunkText, no empty chunk): for a positive bound and a text that is
    not empty and does not end with white space, no chunk is the empty
    string. *)
Theorem chunkText_no_empty_chunk (text : jsstring) (maxSize : Z) :
  0 < maxSize ->
  is_white_space (List.last text 32%N) = false ->
  Forall (fun c => c <> []) (chunkText text maxSize).
Proof.
  intros Hmax Hlast.
  destruct (chunkText_shape text maxSize) as (gs & cur & -> & Hcat & _ & Hbig).
  apply Forall_app. split.
  - apply Forall_map. eapply Forall_impl; [exact Hbig|].
    intros g Hg Hnil. unfold reaches in Hg. rewrite Hnil in Hg. simpl in Hg. lia.
  - destruct cur as [|w cur]; [done|]. constructor; [|done].
    intros Hnil. apply join_nil_inv in Hnil; [|done].
    destruct (split_last_word text Hlast) as [Hword _].
    apply Hword. rewrite <- Hcat, Hnil. by rewrite last_last.
Qed.

Lemma chunkText_no_empty_chunk_witness :
  (0 < 1 /\ is_white_space (List.last (js "a b") 32%N) = false)
  /\ Forall (fun c => c <> []) (chunkText (js "a b") 1).
Proof.
  split; [split; [lia | reflexivity]|].
  exact (chunkText_no_empty_chunk (js "a b") 1 ltac:(lia) eq_refl).
Defined.

(** A text that ends with white space can end with an empty chunk: here the
    chunk [a] closes at the last word, and the empty word after the space is
    a chunk of its own. *)
Example chunkText_trailing_space : chunkText (js "a ") 1 = [js "a"; js ""].
Proof. reflexivity. Qed.

(* --------------------------------------------------------------------- *)
(* More on the provider factory                                           *)
(* --------------------------------------------------------------------- *)

(** X5 (createFromConfig, when it returns): it returns a service exactly for
    [ollama], for [openai] with a key that is not empty and for [google]
    with a key that is not empty; whatever else it is given, a provider name
    outside the three included, what it throws is an [McpError] with the
    code [InvalidParams]. *)
Theorem createFromConfig_returns_iff (c : config) :
  ((exists service, createFromConfig c = Normal service) <-> config_complete c)
  /\ (forall e, createFromConfig c = Throw e ->
        exists message, e = McpError InvalidParams message).
Proof.
  unfold config_complete, createFromConfig.
  destruct (decide (provider c = js "ollama")) as [Ho|Ho].
  { rewrite bool_decide_eq_true_2 by done. split; [|done].
    split; [by left | eauto]. }
  rewrite (bool_decide_eq_false_2 _ Ho).
  destruct (decide (provider c = js "openai")) as [Hp|Hp].
  { rewrite bool_decide_eq_true_2 by done.
    destruct (falsy (openaiApiKey c)) eqn:Hk.
    - split; [|intros e [= <-]; eauto]. split; [by intros [? ?]|].
      intros [?|[[_ ?]|[Hg _]]]; [done|done|].
      rewrite Hp in Hg. discriminate Hg.
    - split; [|done]. split; [intros _; right; by left | eauto]. }
  rewrite (bool_decide_eq_false_2 _ Hp).
  destruct (decide (provider c = js "google")) as [Hg|Hg].
  { rewrite bool_decide_eq_true_2 by done.
    destruct (falsy (geminiApiKey c)) eqn:Hk.
    - split; [|intros e [= <-]; eauto]. split; [by intros [? ?]|].
      intros [?|[[? _]|[_ ?]]]; done.
    - split; [|done]. split; [intros _; right; by right | eauto]. }
  rewrite (bool_decide_eq_false_2 _ Hg).
  split; [|intros e [= <-]; eauto]. split; [by intros [? ?]|].
  intros [?|[[? _]|[? _]]]; done.
Qed.

Lemma createFromConfig_returns_iff_witness :
  (exists service, createFromConfig config_openai_large = Normal service)
  /\ exists message,
       createFromConfig (config_of_env env_openai_no_key)
       = Throw (McpError InvalidParams message).
Proof.
  split.
  - apply (proj1 (createFromConfig_returns_iff config_openai_large)).
    right. left. split; reflexivity.
  - destruct (createFromConfig (config_of_env env_openai_no_key))
      as [service|e] eqn:Hc; [vm_compute in Hc; discriminate Hc|].
    destruct (proj2 (createFromConfig_returns_iff
                       (config_of_env env_openai_no_key)) e Hc)
      as [message ->].
    by exists message.
Defined.

(** X6 (createFromConfig with getVectorSize): the service built for [ollama]
    or [google] asks for 768 components whatever the model is named, known
    or not; the one built for [openai] asks for 1536, or for 3072, and 3072
    only when a model is configured whose name has
    [text-embedding-3-large]; without a configured model the sizes are those
    of the default models, 768, 1536 and 768. *)
Theorem createFromConfig_vector_size (c : config) (service : EmbeddingProvider) :
  createFromConfig c = Normal service ->
  (provider c <> js "openai" -> getVectorSize service = 768)
  /\ (provider c = js "openai" ->
      getVectorSize service = 1536
      \/ (getVectorSize service = 3072
          /\ exists m, model c = Some m
                       /\ includes (js "text-embedding-3-large") m = true))
  /\ (model c = None ->
      getVectorSize service
      = if bool_decide (provider c = js "openai") then 1536 else 768).
Proof.
  unfold createFromConfig.
  destruct (decide (provider c = js "ollama")) as [Ho|Ho].
  { rewrite bool_decide_eq_true_2 by done. intros [= <-].
    assert (getVectorSize (new_OllamaProvider (model c)) = 768) as Hsize
      by (simpl; by destruct (includes _ _)).
    rewrite Hsize. repeat split; try done.
    - intros Hp. rewrite Ho in Hp. discriminate Hp.
    - intros _. rewrite bool_decide_eq_false_2; [done|].
      rewrite Ho. discriminate. }
  rewrite (bool_decide_eq_false_2 _ Ho).
  destruct (decide (provider c = js "openai")) as [Hp|Hp].
  { rewrite bool_decide_eq_true_2 by done.
    destruct (falsy (openaiApiKey c)); [done|]. intros [= <-].
    split; [done|]. split.
    - intros _. unfold new_OpenAIProvider, getVectorSize.
      destruct (_ || _); [by left|].
      destruct (includes (js "text-embedding-3-large") _) eqn:Hl; [|by left].
      right. split; [done|].
      destruct (model c) as [m|]; [eauto|]. simpl in Hl.
      vm_compute in Hl. discriminate Hl.
    - intros Hm. rewrite Hm. reflexivity. }
  rewrite (bool_decide_eq_false_2 _ Hp).
  destruct (decide (provider c = js "google")) as [Hg|Hg].
  { rewrite bool_decide_eq_true_2 by done.
    destruct (falsy (geminiApiKey c)); [done|]. intros [= <-].
    assert (getVectorSize (new_GoogleGenAIProvider (default [] (geminiApiKey c))
                             (model c)) = 768) as Hsize
      by (simpl; by destruct (includes _ _)).
    rewrite Hsize. repeat split; try done. }
  by rewrite (bool_decide_eq_false_2 _ Hg).
Qed.

Lemma createFromConfig_vector_size_witness :
  createFromConfig config_openai_large
  = Normal (OpenAIProvider (js "sk-test") (js "text-embedding-3-large") None)
  /\ (getVectorSize
        (OpenAIProvider (js "sk-test") (js "text-embedding-3-large") None) = 1536
      \/ (getVectorSize
            (OpenAIProvider (js "sk-test") (js "text-embedding-3-large") None)
          = 3072
          /\ exists m, model config_openai_large = Some m
                       /\ includes (js "text-embedding-3-large") m = true)).
Proof.
  assert (createFromConfig config_openai_large
          = Normal (OpenAIProvider (js "sk-test")
                      (js "text-embedding-3-large") None)) as Hc
    by reflexivity.
  split; [exact Hc|].
  apply (createFromConfig_vector_size _ _ Hc). reflexivity.
Defined.

(* --------------------------------------------------------------------- *)
(* More on the collection lifecycle: whatever the store does              *)
(* --------------------------------------------------------------------- *)

Lemma others_kept_refl (name : jsstring) (w : world) : others_kept name w w.
Proof. by intros other _. Qed.

Lemma others_kept_trans (name : jsstring) (w1 w2 w3 : world) :
  others_kept name w1 w2 -> others_kept name w2 w3 -> others_kept name w1 w3.
Proof.
  intros H12 H23 other Hne. by rewrite (H23 other Hne), (H12 other Hne).
Qed.

Lemma others_kept_same (name : jsstring) (w w' : world) :
  collections w' = collections w -> others_kept name w w'.
Proof. intros Hc other _. by rewrite Hc. Qed.

(** A request is recorded whether it is answered or not, and the store is
    then as it was or as the answer leaves it. *)
Lemma send_run {A} (r : request)
    (answer : gmap jsstring collection ->
              completion A * gmap jsstring collection)
    (w w' : world) (res : completion A) :
  send r answer w = (res, w') ->
  requests w' = requests w ++ [r]
  /\ faults w' = tail (faults w)
  /\ ((collections w' = collections w
       /\ exists e, head (faults w) = Some (Some e) /\ res = Throw (thrown e))
      \/ (collections w' = snd (answer (collections w))
          /\ res = fst (answer (collections w))
          /\ (head (faults w) = None \/ head (faults w) = Some None))).
Proof.
  unfold send. destruct (faults w) as [|[e|] rest];
    try destruct (answer (collections w)) as [c m] eqn:Ha;
    intros [= <- <-]; simpl; repeat split; try done; eauto 8.
Qed.

Lemma handleQdrantError_state (api : ApiClient) (e : js_value)
    (context : jsstring) (w w' : world) (r : completion unit) :
  handleQdrantError api e context w = (r, w') -> w' = w.
Proof.
  unfold handleQdrantError, ret, throw.
  repeat match goal with
         | |- context [if ?b then _ else _] => destruct b
         end; by intros [= <- <-].
Qed.

Lemma getCollections_run (w w' : world) (res : completion (list jsstring)) :
  getCollections w = (res, w') ->
  requests w' = requests w ++ [GetCollections]
  /\ faults w' = tail (faults w)
  /\ collections w' = collections w
  /\ forall names, res = Normal names ->
                   names = map fst (map_to_list (collections w)).
Proof.
  unfold getCollections. intros Hs.
  apply send_run in Hs as (Hr & Hf & [(Hc & e & _ & ->)|(Hc & -> & _)]);
    repeat split; try done.
  by intros names [= <-].
Qed.

Lemma getCollection_run (name : jsstring) (w w' : world)
    (res : completion (option Z)) :
  getCollection name w = (res, w') ->
  requests w' = requests w ++ [GetCollection name]
  /\ faults w' = tail (faults w)
  /\ collections w' = collections w
  /\ forall size, res = Normal size ->
       exists c, collections w !! name = Some c /\ size = config_size c.
Proof.
  unfold getCollection. intros Hs.
  apply send_run in Hs as (Hr & Hf & [(Hc & e & _ & ->)|(Hc & -> & _)]);
    repeat split; try done;
    destruct (collections w !! name) as [c|] eqn:Hl; try done.
  intros size [= <-]. eauto.
Qed.

Lemma createQdrantCollection_run (api : ApiClient) (name : jsstring)
    (w w' : world) (res : completion unit) :
  createQdrantCollection api name (getVectorSize (embeddingService api)) w
  = (res, w') ->
  requests w' = requests w ++ [CreateCollection name (required_params api)]
  /\ faults w' = tail (faults w)
  /\ others_kept name w w'.
Proof.
  unfold createQdrantCollection, try_catch, createCollection.
  destruct (send _ _ w) as [[[]|e] w1] eqn:Hs;
    apply send_run in Hs as (Hr & Hf & Hc); intros Hres;
    [injection Hres as <- <- | apply handleQdrantError_state in Hres as ->];
    (repeat split; [done..|]);
    (destruct Hc as [(Hc & _)|(Hc & _)]; [by apply others_kept_same|]);
    intros other Hne; rewrite Hc;
    (destruct (collections w !! name); [done|]); simpl;
    by rewrite lookup_insert_ne.
Qed.

Lemma deleteCollection_run (name : jsstring) (w w' : world)
    (res : completion unit) :
  deleteCollection name w = (res, w') ->
  requests w' = requests w ++ [DeleteCollection name]
  /\ faults w' = tail (faults w)
  /\ others_kept name w w'
  /\ (res = Normal tt -> collections w' = delete name (collections w))
  /\ (forall e, res = Throw e -> collections w' = collections w).
Proof.
  unfold deleteCollection. intros Hs.
  apply send_run in Hs as (Hr & Hf & [(Hc & e & _ & ->)|(Hc & -> & _)]);
    repeat split; try done.
  - by apply others_kept_same.
  - intros other Hne. rewrite Hc. simpl. by rewrite lookup_delete_ne.
Qed.

Lemma recreateQdrantCollection_run (api : ApiClient) (name : jsstring)
    (w w' : world) (res : completion unit) :
  recreateQdrantCollection api name (getVectorSize (embeddingService api)) w
  = (res, w') ->
  (requests w' = requests w ++ [DeleteCollection name]
   \/ requests w'
      = requests w ++ [DeleteCollection name;
                       CreateCollection name (required_params api)])
  /\ others_kept name w w'.
Proof.
  unfold recreateQdrantCollection, try_catch, bind.
  destruct (deleteCollection name w) as [[[]|e] w1] eqn:Hd;
    apply deleteCollection_run in Hd as (Hr & _ & Hk & _).
  - destruct (createQdrantCollection _ _ _ w1) as [[[]|e] w2] eqn:Hc;
      apply createQdrantCollection_run in Hc as (Hr2 & _ & Hk2); intros Hres;
      [injection Hres as <- <- | apply handleQdrantError_state in Hres as ->];
      (split; [right; by rewrite Hr2, Hr, <- app_assoc
              | by eapply others_kept_trans]).
  - intros Hres. apply handleQdrantError_state in Hres as ->.
    split; [by left | done].
Qed.

Ltac init_requests :=
  repeat (constructor; [unfold init_request; auto 6|]); constructor.

(** X7 (initCollection, what it never does): whatever the store answers or
    throws, [initCollection] sends at most four requests, each one the
    listing, the read of this collection, its deletion or its creation with
    the provider's size, cosine distance and the cloud settings of the
    client; it sends no upsert and names no other collection, and the other
    collections of the store are as they were. *)
Theorem initCollection_requests (api : ApiClient) (name : jsstring)
    (w w' : world) (res : completion unit) :
  initCollection api name w = (res, w') ->
  (exists new : list request,
      requests w' = requests w ++ new
      /\ Forall (init_request api name) new
      /\ (length new <= 4)%nat)
  /\ others_kept name w w'.
Proof.
  unfold initCollection, try_catch, bind.
  destruct (getCollections w) as [[names|e] w1] eqn:Hl;
    apply getCollections_run in Hl as (Hr1 & _ & Hc1 & _).
  2:{ intros Hres. apply handleQdrantError_state in Hres as ->. split.
      - exists [GetCollections]. split; [done|].
        split; [|simpl; lia]. init_requests.
      - by apply others_kept_same. }
  destruct (find _ names).
  - destruct (getCollection name w1) as [[size|e] w2] eqn:Hg;
      apply getCollection_run in Hg as (Hr2 & _ & Hc2 & _).
    2:{ intros Hres. apply handleQdrantError_state in Hres as ->. split.
        - exists [GetCollections; GetCollection name].
          split; [by rewrite Hr2, Hr1, <- app_assoc|].
          split; [|simpl; lia]. init_requests.
        - apply others_kept_same. by rewrite Hc2. }
    assert (forall k : M unit,
      (if size_unreadable size then k
       else if size_differs size (getVectorSize (embeddingService api))
            then k else ret tt) = k
      \/ (if size_unreadable size then k
          else if size_differs size (getVectorSize (embeddingService api))
               then k else ret tt) = ret tt) as Hif.
    { intros k. destruct (size_unreadable size); [by left|].
      destruct (size_differs size _); [by left | by right]. }
    destruct (Hif (recreateQdrantCollection api name
                     (getVectorSize (embeddingService api)))) as [-> | ->].
    + destruct (recreateQdrantCollection _ _ _ w2) as [[[]|e] w3] eqn:Hre;
        apply recreateQdrantCollection_run in Hre as (Hr3 & Hk3); intros Hres;
        [injection Hres as <- <- | apply handleQdrantError_state in Hres as ->];
        (split;
         [|eapply others_kept_trans; [|exact Hk3];
           apply others_kept_same; by rewrite Hc2]);
        (destruct Hr3 as [Hr3|Hr3];
         [exists [GetCollections; GetCollection name; DeleteCollection name]
         |exists [GetCollections; GetCollection name; DeleteCollection name;
                  CreateCollection name (required_params api)]]);
        (split; [by rewrite Hr3, Hr2, Hr1, <- !app_assoc|]);
        (split; [|simpl; lia]); init_requests.
    + intros [= <- <-]. split.
      * exists [GetCollections; GetCollection name].
        split; [by rewrite Hr2, Hr1, <- app_assoc|].
        split; [|simpl; lia]. init_requests.
      * apply others_kept_same. by rewrite Hc2.
  - destruct (createQdrantCollection _ _ _ w1) as [[[]|e] w2] eqn:Hc;
      apply createQdrantCollection_run in Hc as (Hr2 & _ & Hk2); intros Hres;
      [injection Hres as <- <- | apply handleQdrantError_state in Hres as ->];
      (split;
       [|eapply others_kept_trans; [|exact Hk2]; by apply others_kept_same]);
      exists [GetCollections; CreateCollection name (required_params api)];
      (split; [by rewrite Hr2, Hr1, <- app_assoc|]);
      (split; [|simpl; lia]); init_requests.
Qed.

Lemma initCollection_requests_witness :
  (exists new : list request,
      requests (snd (initCollection api_default COLLECTION_NAME world_not_found))
      = requests world_not_found ++ new
      /\ Forall (init_request api_default COLLECTION_NAME) new
      /\ (length new <= 4)%nat)
  /\ others_kept COLLECTION_NAME world_not_found
       (snd (initCollection api_default COLLECTION_NAME world_not_found)).
Proof.
  apply (initCollection_requests api_default COLLECTION_NAME world_not_found _
           (fst (initCollection api_default COLLECTION_NAME world_not_found))).
  apply surjective_pairing.
Defined.

(** X8 (initCollection, a collection of the right size is never lost):
    whatever the store answers or throws, when the collection is there with
    a readable size equal to the provider's, [initCollection] leaves the
    store as it is, points included, and sends neither a deletion nor a
    creation. *)
Theorem initCollection_keeps_matching (api : ApiClient) (name : jsstring)
    (w w' : world) (res : completion unit) (c : collection) :
  collections w !! name = Some c ->
  config_size c = Some (getVectorSize (embeddingService api)) ->
  initCollection api name w = (res, w') ->
  collections w' = collections w
  /\ (requests w' = requests w ++ [GetCollections]
      \/ requests w' = requests w ++ [GetCollections; GetCollection name]).
Proof.
  intros Hc Hsize. unfold initCollection, try_catch, bind.
  destruct (getCollections w) as [[names|e] w1] eqn:Hl;
    apply getCollections_run in Hl as (Hr1 & _ & Hc1 & Hnames).
  2:{ intros Hres. apply handleQdrantError_state in Hres as ->.
      split; [done | by left]. }
  rewrite (Hnames names eq_refl), (find_name_present _ _ _ Hc).
  destruct (getCollection name w1) as [[size|e] w2] eqn:Hg;
    apply getCollection_run in Hg as (Hr2 & _ & Hc2 & Hread).
  2:{ intros Hres. apply handleQdrantError_state in Hres as ->.
      split; [by rewrite Hc2 | right; by rewrite Hr2, Hr1, <- app_assoc]. }
  destruct (Hread size eq_refl) as (c' & Hc' & ->).
  rewrite Hc1, Hc in Hc'. injection Hc' as <-.
  pose proof (size_checks (config_size c) _
                (getVectorSize_pos (embeddingService api))) as Hchk.
  unfold size_agrees in Hchk. rewrite bool_decide_eq_true_2 in Hchk by done.
  apply orb_false_iff in Hchk as [-> ->].
  intros [= <- <-].
  split; [by rewrite Hc2 | right; by rewrite Hr2, Hr1, <- app_assoc].
Qed.

Lemma initCollection_keeps_matching_witness :
  (collections world_not_found !! COLLECTION_NAME
   = Some (empty_collection (Some 768))
   /\ config_size (empty_collection (Some 768))
      = Some (getVectorSize (embeddingService api_default)))
  /\ collections (snd (initCollection api_default COLLECTION_NAME world_not_found))
     = collections world_not_found.
Proof.
  split; [split; reflexivity|].
  apply (initCollection_keeps_matching api_default COLLECTION_NAME
           world_not_found _
           (fst (initCollection api_default COLLECTION_NAME world_not_found))
           (empty_collection (Some 768)) eq_refl eq_refl).
  apply surjective_pairing.
Defined.

Lemma size_mismatch_recreates (api : ApiClient) (size : option Z) (k : M unit) :
  size <> Some (getVectorSize (embeddingService api)) ->
  (if size_unreadable size then k
   else if size_differs size (getVectorSize (embeddingService api))
        then k else ret tt) = k.
Proof.
  intros Hne.
  pose proof (size_checks size _ (getVectorSize_pos (embeddingService api)))
    as Hchk.
  unfold size_agrees in Hchk. rewrite bool_decide_eq_false_2 in Hchk by done.
  destruct (size_unreadable size); [done|]. simpl in Hchk. by rewrite Hchk.
Qed.

(** The run of [initCollection] up to the re-creation, for a collection
    whose size does not agree, the two reads being answered. *)
Lemma initCollection_to_recreate (api : ApiClient) (name : jsstring)
    (w : world) (c : collection) (rest : list (option store_error)) :
  collections w !! name = Some c ->
  config_size c <> Some (getVectorSize (embeddingService api)) ->
  faults w = None :: None :: rest ->
  initCollection api name w
  = try_catch
      (recreateQdrantCollection api name (getVectorSize (embeddingService api)))
      (fun error => handleQdrantError api error (js "initialize/verify"))
      (after w (collections w) rest [GetCollections; GetCollection name]).
Proof.
  intros Hc Hsize Hf. unfold initCollection, try_catch, bind, getCollections.
  rewrite (send_passed _ _ _ _ Hf). cbn [fst snd].
  rewrite (find_name_present _ _ _ Hc).
  unfold getCollection. erewrite send_passed by reflexivity.
  cbn [fst snd collections after]. rewrite Hc. cbn [fst snd].
  rewrite size_mismatch_recreates by done.
  by rewrite after_after.
Qed.

(** X9 (initCollection, the deletion fails): when the collection is there
    with a size that does not agree and [deleteCollection] throws, whatever
    it throws, no creation is sent after it: the requests are the two reads
    and the deletion, and the call has changed nothing in the store. *)
Theorem initCollection_delete_fails (api : ApiClient) (name : jsstring)
    (w : world) (c : collection) (e : store_error)
    (rest : list (option store_error)) :
  collections w !! name = Some c ->
  config_size c <> Some (getVectorSize (embeddingService api)) ->
  faults w = None :: None :: Some e :: rest ->
  snd (initCollection api name w)
  = after w (collections w) rest
      [GetCollections; GetCollection name; DeleteCollection name].
Proof.
  intros Hc Hsize Hf.
  rewrite (initCollection_to_recreate _ _ _ _ _ Hc Hsize Hf).
  unfold try_catch at 1, recreateQdrantCollection, try_catch, bind,
    deleteCollection.
  erewrite send_thrown by reflexivity. rewrite after_after.
  destruct (handleQdrantError api (thrown e) (js "recreate") _)
    as [[[]|e1] w1] eqn:H1; apply handleQdrantError_state in H1 as ->;
    [done|].
  destruct (handleQdrantError api e1 _ _) as [r2 w2] eqn:H2.
  by apply handleQdrantError_state in H2 as ->.
Qed.

Lemma initCollection_delete_fails_witness :
  (collections (world_with documentation_1536 [None; None; Some refused_error])
     !! COLLECTION_NAME = Some (empty_collection (Some 1536))
   /\ config_size (empty_collection (Some 1536))
      <> Some (getVectorSize (embeddingService api_default)))
  /\ snd (initCollection api_default COLLECTION_NAME
            (world_with documentation_1536 [None; None; Some refused_error]))
     = after (world_with documentation_1536 [None; None; Some refused_error])
         documentation_1536 []
         [GetCollections; GetCollection COLLECTION_NAME;
          DeleteCollection COLLECTION_NAME].
Proof.
  assert (config_size (empty_collection (Some 1536))
          <> Some (getVectorSize (embeddingService api_default))) as Hsize
    by discriminate.
  split; [split; [reflexivity | exact Hsize]|].
  exact (initCollection_delete_fails api_default COLLECTION_NAME
           (world_with documentation_1536 [None; None; Some refused_error])
           (empty_collection (Some 1536)) refused_error [] eq_refl Hsize eq_refl).
Defined.

(** X10 (initCollection, the creation fails after the deletion): when the
    collection is there with a size that does not agree, the deletion is
    answered and [createCollection] then throws (something else than that
    the collection exists already), the collection is gone from the store,
    with its points, when [initCollection] ends: the deletion is not
    undone. *)
Theorem initCollection_create_fails (api : ApiClient) (name : jsstring)
    (w : world) (c : collection) (e : store_error)
    (rest : list (option store_error)) :
  collections w !! name = Some c ->
  config_size c <> Some (getVectorSize (embeddingService api)) ->
  faults w = None :: None :: None :: Some e :: rest ->
  says_already_exists e = false ->
  snd (initCollection api name w)
  = after w (delete name (collections w)) rest
      [GetCollections; GetCollection name; DeleteCollection name;
       CreateCollection name (required_params api)]
  /\ collections (snd (initCollection api name w)) !! name = None.
Proof.
  intros Hc Hsize Hf _.
  assert (snd (initCollection api name w)
          = after w (delete name (collections w)) rest
              [GetCollections; GetCollection name; DeleteCollection name;
               CreateCollection name (required_params api)]) as Hend.
  { rewrite (initCollection_to_recreate _ _ _ _ _ Hc Hsize Hf).
    unfold try_catch at 1, recreateQdrantCollection, try_catch at 1, bind,
      deleteCollection.
    erewrite send_passed by reflexivity. cbn [fst snd]. rewrite after_after.
    unfold createQdrantCollection, try_catch, createCollection.
    erewrite send_thrown by reflexivity. rewrite after_after.
    cbn [collections after app].
    destruct (handleQdrantError api (thrown e) (js "create") _)
      as [[[]|e1] w1] eqn:H1; apply handleQdrantError_state in H1 as ->;
      [done|].
    destruct (handleQdrantError api e1 (js "recreate") _)
      as [[[]|e2] w2] eqn:H2; apply handleQdrantError_state in H2 as ->;
      [done|].
    destruct (handleQdrantError api e2 _ _) as [r3 w3] eqn:H3.
    by apply handleQdrantError_state in H3 as ->. }
  split; [exact Hend|]. rewrite Hend. simpl. apply lookup_delete_eq.
Qed.

Lemma initCollection_create_fails_witness :
  (collections
     (world_with documentation_1536 [None; None; None; Some refused_error])
     !! COLLECTION_NAME = Some (empty_collection (Some 1536))
   /\ config_size (empty_collection (Some 1536))
      <> Some (getVectorSize (embeddingService api_default))
   /\ says_already_exists refused_error = false)
  /\ collections
       (snd (initCollection api_default COLLECTION_NAME
               (world_with documentation_1536
                  [None; None; None; Some refused_error])))
     !! COLLECTION_NAME = None.
Proof.
  assert (config_size (empty_collection (Some 1536))
          <> Some (getVectorSize (embeddingService api_default))) as Hsize
    by discriminate.
  split; [split; [reflexivity | split; [exact Hsize | reflexivity]]|].
  exact (proj2 (initCollection_create_fails api_default COLLECTION_NAME
           (world_with documentation_1536 [None; None; None; Some refused_error])
           (empty_collection (Some 1536)) refused_error [] eq_refl Hsize
           eq_refl eq_refl)).
Defined.

Example initCollection_create_refused :
  fst (initCollection api_default COLLECTION_NAME
         (world_with documentation_1536 [None; None; None; Some refused_error]))
  = Throw (McpError InternalError
      (js "Qdrant error during collection initialize/verify: MCP error -32603: Qdrant error during collection recreate: MCP error -32603: Connection to Qdrant (http://127.0.0.1:6333) failed during collection create. Please check Qdrant status and URL.")).
Proof. vm_compute. reflexivity. Qed.

(* --------------------------------------------------------------------- *)
(* More on the handler: what it sends                                     *)
(* --------------------------------------------------------------------- *)

Lemma ceil_div_zero : ceil_div 0 batchSize = 0%nat.
Proof. reflexivity. Qed.

Lemma ceil_div_step (n : nat) :
  (0 < n)%nat -> ceil_div n batchSize = S (ceil_div (n - batchSize) batchSize).
Proof.
  intros Hn. unfold ceil_div, batchSize.
  destruct (Nat.le_gt_cases 100 n) as [Hge|Hlt].
  - replace (n + 100 - 1)%nat with ((n - 100 + 100 - 1) + 1 * 100)%nat by lia.
    rewrite Nat.div_add by lia. lia.
  - replace (n - 100)%nat with 0%nat by lia.
    change ((0 + 100 - 1) / 100)%nat with 0%nat.
    symmetry. apply Nat.div_unique with (r := (n - 1)%nat); lia.
Qed.

Lemma Forall_imap {A B} (P : B -> Prop) (f : nat -> A -> B) (l : list A) :
  (forall i x, P (f i x)) -> Forall P (imap f l).
Proof.
  revert f. induction l as [|x l IH]; intros f Hf; [constructor|].
  rewrite imap_cons. constructor; [done|]. apply IH. intros i y. apply Hf.
Qed.

Lemma slice_length (chunks : list DocumentChunk) (i : nat) :
  (i < length chunks)%nat ->
  (0 < length (slice chunks i (i + batchSize)) <= batchSize)%nat.
Proof.
  intros Hi. unfold slice. rewrite length_take, length_drop.
  unfold batchSize. lia.
Qed.

Lemma slice_drop (chunks : list DocumentChunk) (i : nat) :
  slice chunks i (i + batchSize) ++ drop (i + batchSize) chunks = drop i chunks.
Proof.
  unfold slice. replace (i + batchSize - i)%nat with batchSize by lia.
  rewrite <- drop_drop. apply take_drop.
Qed.

Section HandlerSends.

Variable E : Env.

(** What [fetchAndProcessUrl] returns: at least one chunk, each with the
    source string as its [url]. *)
Lemma fetchAndProcessUrl_chunks (source : jsstring) (w w' : world)
    (chunks : list DocumentChunk) :
  fetchAndProcessUrl E source w = (Normal chunks, w') ->
  chunks <> [] /\ Forall (fun c => url c = source) chunks.
Proof.
  unfold fetchAndProcessUrl, try_catch, bind.
  match goal with
  | |- context [(if ?b then _ else _) w] =>
      destruct ((if b then read_url E source else read_local_file E source) w)
        as [[[title content]|e] w1]
  end.
  - unfold ret. intros [= <- <-]. split.
    + pose proof (chunkText_not_nil content 1000) as Hne.
      destruct (chunkText content 1000); [done|]. by rewrite imap_cons.
    + by apply Forall_imap.
  - unfold throw. by destruct (instanceof_McpError e).
Qed.

Lemma point_ids_length (source : nat -> N) (pos n : nat) :
  Forall (fun k => length k = 32%nat) (point_ids source pos n).
Proof.
  unfold point_ids. apply Forall_forall. intros k Hin.
  apply list_elem_of_fmap in Hin as (j & -> & _).
  by rewrite toString_hex_length, randomBytes_length.
Qed.

Lemma Promise_all_points (batch : list DocumentChunk) (w w' : world)
    (pts : list point) :
  Promise_all_map E (make_point E) batch w = (Normal pts, w') ->
  map chunk_of pts = batch /\ Forall tagged pts.
Proof.
  intros Hall.
  apply Promise_all_frame in Hall as (_ & _ & Hids & _ & Hchunks & Htype & _).
  split; [done|].
  pose proof (point_ids_length (random_source E) (random_pos w) (length batch))
    as Hlen.
  rewrite <- Hids in Hlen. rewrite Forall_forall in Hlen.
  rewrite Forall_forall in Htype.
  apply Forall_forall. intros p Hp. split; [by apply Htype|].
  apply Hlen. by apply list_elem_of_fmap_2.
Qed.

Lemma upsert_batch_sizes (pts : list point) (w w' : world)
    (r : completion unit) :
  upsert_batch pts w = (r, w') ->
  forall name, size_of w' name = size_of w name.
Proof.
  rewrite upsert_batch_run. unfold upsert.
  destruct (send _ _ w) as [res w1] eqn:Hs.
  apply send_run in Hs as (_ & _ & Hc). intros Hres.
  assert (w' = w1) as -> by (destruct res; by injection Hres).
  intros name. unfold size_of.
  destruct Hc as [(-> & _)|(-> & _)]; [done|].
  destruct (collections w !! COLLECTION_NAME) as [c|] eqn:Hl; [|done].
  simpl. destruct (decide (name = COLLECTION_NAME)) as [->|Hne].
  - by rewrite lookup_insert_eq, Hl.
  - by rewrite lookup_insert_ne.
Qed.

(** The loop over the batches: one upsert for each round it gets to, of at
    most a hundred points built from consecutive chunks; when it returns,
    every chunk from [i] on went out, in order, in as many upserts as the
    response counts. *)
Lemma batch_loop_batches (fuel i : nat) (chunks : list DocumentChunk)
    (w w' : world) (r : completion unit) :
  batch_loop E fuel i chunks w = (r, w') ->
  exists batches : list (list point),
    requests w' = requests w ++ map (Upsert COLLECTION_NAME true) batches
    /\ concat (map (map chunk_of) batches) `prefix_of` drop i chunks
    /\ Forall (fun b => (0 < length b <= batchSize)%nat /\ Forall tagged b)
         batches
    /\ (forall name, size_of w' name = size_of w name)
    /\ (r = Normal tt -> (length chunks <= i + fuel * batchSize)%nat ->
        concat (map (map chunk_of) batches) = drop i chunks
        /\ length batches = ceil_div (length chunks - i) batchSize).
Proof.
  assert (forall j (v : world), (length chunks <= j)%nat ->
    exists batches : list (list point),
      requests v = requests v ++ map (Upsert COLLECTION_NAME true) batches
      /\ concat (map (map chunk_of) batches) `prefix_of` drop j chunks
      /\ Forall (fun b => (0 < length b <= batchSize)%nat /\ Forall tagged b)
           batches
      /\ (forall name, size_of v name = size_of v name)
      /\ (Normal tt = Normal tt -> True ->
          concat (map (map chunk_of) batches) = drop j chunks
          /\ length batches = ceil_div (length chunks - j) batchSize)) as Hdone.
  { intros j v Hj. exists []. simpl. rewrite app_nil_r.
    repeat split; try done.
    - apply prefix_nil.
    - by rewrite drop_ge.
    - by replace (length chunks - j)%nat with 0%nat by lia. }
  revert i w w' r. induction fuel as [|fuel IH]; intros i w w' r.
  - intros [= <- <-]. exists []. simpl. rewrite app_nil_r.
    repeat split; try done; try apply prefix_nil.
    + by rewrite drop_ge by lia.
    + by replace (length chunks - i)%nat with 0%nat by lia.
  - cbn [batch_loop]. destruct (Nat.ltb_spec i (length chunks)) as [Hi|Hi].
    2:{ intros [= <- <-]. destruct (Hdone i w Hi) as (bs & ? & ? & ? & ? & Hs).
        exists bs. repeat split; try done; by apply Hs. }
    unfold bind.
    destruct (Promise_all_map _ _ _ w) as [[pts|e] w1] eqn:Hall.
    2:{ apply Promise_all_frame in Hall as ((Hc & _ & Hreq) & _).
        intros [= <- <-]. exists []. simpl. rewrite Hreq, app_nil_r.
        repeat split; try done; try apply prefix_nil.
        intros name. unfold size_of. by rewrite Hc. }
    pose proof Hall as Hpts. apply Promise_all_points in Hpts as [Hchunks Htag].
    apply Promise_all_frame in Hall as ((Hc & _ & Hreq) & _).
    assert ((0 < length pts <= batchSize)%nat) as Hlen.
    { rewrite <- (length_map chunk_of), Hchunks. by apply slice_length. }
    destruct (upsert_batch pts w1) as [[[]|e] w2] eqn:Hup;
      pose proof (upsert_batch_sizes _ _ _ _ Hup) as Hsz;
      apply upsert_batch_frame in Hup as (Hr & _ & _).
    + intros Hloop.
      apply IH in Hloop as (bs & Hrs & Hpre & Hall' & Hsz' & Hsucc).
      exists (pts :: bs). split; [|split; [|split; [|split]]].
      * rewrite Hrs, Hr, Hreq. simpl. by rewrite <- app_assoc.
      * simpl. rewrite Hchunks, <- (slice_drop chunks i). by apply prefix_app.
      * by constructor.
      * intros name. rewrite Hsz', Hsz. unfold size_of. by rewrite Hc.
      * intros Hres Hfuel.
        destruct (Hsucc Hres) as [Hcat Hcount];
          [unfold batchSize in *; lia|].
        split.
        -- simpl. by rewrite Hchunks, Hcat, slice_drop.
        -- cbn [length]. rewrite Hcount.
           rewrite (ceil_div_step (length chunks - i)) by lia.
           f_equal. f_equal. lia.
    + intros [= <- <-]. exists [pts]. split; [|split; [|split; [|split]]].
      * by rewrite Hr, Hreq.
      * simpl. rewrite app_nil_r, Hchunks, <- (slice_drop chunks i).
        by apply prefix_app_r.
      * constructor; [done | constructor].
      * intros name. rewrite Hsz. unfold size_of. by rewrite Hc.
      * done.
Qed.

End HandlerSends.

Lemma Forall_prefix {A} (P : A -> Prop) (l1 l2 : list A) :
  l1 `prefix_of` l2 -> Forall P l2 -> Forall P l1.
Proof. intros [k ->] H. by apply Forall_app in H as [? _]. Qed.

(** X11 (handle, what it sends): whatever the argument, the files, the
    provider and the store do, the requests of the handler are upserts into
    [documentation] with [wait] set, each of one to a hundred points; every
    point carries the tag [DocumentChunk], an identifier of 32 code units
    and, as [url], the source string as it was given; the handler creates,
    deletes and resizes no collection. *)
Theorem handle_sends_upserts_only (E : Env) (source : jsstring)
    (w w' : world) (r : completion McpToolResponse) :
  handle E (ArgString source) w = (r, w') ->
  exists batches : list (list point),
    requests w' = requests w ++ map (Upsert COLLECTION_NAME true) batches
    /\ Forall (fun b =>
                 (0 < length b <= batchSize)%nat
                 /\ Forall (fun p => tagged p /\ url (chunk_of p) = source) b)
         batches
    /\ forall name, size_of w' name = size_of w name.
Proof.
  assert (exists batches : list (list point),
    requests w = requests w ++ map (Upsert COLLECTION_NAME true) batches
    /\ Forall (fun b =>
                 (0 < length b <= batchSize)%nat
                 /\ Forall (fun p => tagged p /\ url (chunk_of p) = source) b)
         batches
    /\ forall name, size_of w name = size_of w name) as Hnone.
  { exists []. simpl. by rewrite app_nil_r. }
  unfold handle. destruct source as [|c s]; [by intros [= <- <-]|].
  unfold try_catch, bind.
  destruct (fetchAndProcessUrl E (c :: s) w) as [[chunks|e] w1] eqn:Hfetch.
  2:{ apply fetchAndProcessUrl_frame in Hfetch as ((Hc & _ & Hr) & _ & He).
      rewrite (He e eq_refl). intros [= <- <-]. exists []. simpl.
      rewrite Hr, app_nil_r. repeat split; try done.
      intros name. unfold size_of. by rewrite Hc. }
  pose proof (fetchAndProcessUrl_chunks _ _ _ _ _ Hfetch) as [_ Hurl].
  apply fetchAndProcessUrl_frame in Hfetch as ((Hc & _ & Hr) & _ & _).
  destruct (batch_loop E (length chunks) 0 chunks w1) as [res w2] eqn:Hloop.
  apply batch_loop_batches in Hloop as (bs & Hrs & Hpre & Hall & Hsz & _).
  intros Hres.
  assert (w' = w2) as ->.
  { destruct res as [[]|e]; [by injection Hres|].
    unfold throw, ret in Hres. destruct (instanceof_McpError e);
      by injection Hres. }
  exists bs. split; [by rewrite Hrs, Hr|]. split.
  - rewrite drop_0 in Hpre.
    pose proof (Forall_prefix _ _ _ Hpre Hurl) as Hurls.
    apply Forall_concat in Hurls.
    rewrite Forall_forall in Hall. rewrite Forall_forall in Hurls.
    apply Forall_forall. intros b Hb.
    destruct (Hall b Hb) as [Hlen Htag]. split; [done|].
    assert (Forall (fun c0 => url c0 = c :: s) (map chunk_of b)) as Hb'.
    { apply Hurls. apply list_elem_of_In, in_map_iff.
      exists b. split; [done | by apply list_elem_of_In]. }
    rewrite Forall_forall in Htag. apply Forall_forall. intros p Hp.
    split; [by apply Htag|].
    rewrite Forall_forall in Hb'. apply Hb'.
    apply list_elem_of_In, in_map_iff. exists p.
    split; [done | by apply list_elem_of_In].
  - intros name. rewrite Hsz. unfold size_of. by rewrite Hc.
Qed.

Lemma handle_sends_upserts_only_witness :
  exists batches : list (list point),
    requests (snd (handle env_docs (ArgString guide) world_unauthorized))
    = requests world_unauthorized
      ++ map (Upsert COLLECTION_NAME true) batches
    /\ Forall (fun b =>
                 (0 < length b <= batchSize)%nat
                 /\ Forall (fun p => tagged p /\ url (chunk_of p) = guide) b)
         batches
    /\ forall name,
         size_of (snd (handle env_docs (ArgString guide) world_unauthorized))
           name
         = size_of world_unauthorized name.
Proof.
  apply (handle_sends_upserts_only env_docs guide world_unauthorized _
           (fst (handle env_docs (ArgString guide) world_unauthorized))).
  apply surjective_pairing.
Defined.

(** X12 (handle, a success is complete): when the handler returns the
    success response, the chunks [fetchAndProcessUrl] gave went out, each
    once and in order, and the response counts them and the upserts that
    were sent. *)
Theorem handle_success_complete (E : Env) (source : jsstring)
    (w w1 w' : world) (chunks : list DocumentChunk) (resp : McpToolResponse) :
  fetchAndProcessUrl E source w = (Normal chunks, w1) ->
  handle E (ArgString source) w = (Normal resp, w') ->
  isError resp = false ->
  exists batches : list (list point),
    requests w' = requests w ++ map (Upsert COLLECTION_NAME true) batches
    /\ concat (map (map chunk_of) batches) = chunks
    /\ resp = success_response source (length chunks) (length batches).
Proof.
  intros Hfetch. unfold handle. destruct source as [|c s]; [done|].
  unfold try_catch, bind. rewrite Hfetch.
  apply fetchAndProcessUrl_frame in Hfetch as ((_ & _ & Hr) & _ & _).
  destruct (batch_loop E (length chunks) 0 chunks w1) as [[[]|e] w2] eqn:Hloop.
  - apply batch_loop_batches in Hloop as (bs & Hrs & _ & _ & _ & Hsucc).
    destruct (Hsucc eq_refl) as [Hcat Hcount]; [unfold batchSize; lia|].
    rewrite drop_0 in Hcat. rewrite Nat.sub_0_r in Hcount.
    unfold ret. intros [= <- <-] _. exists bs.
    split; [by rewrite Hrs, Hr|]. split; [done|].
    unfold success_response. by rewrite Hcount.
  - unfold throw, ret. destruct (instanceof_McpError e); [done|].
    intros [= <- <-]. done.
Qed.

Lemma handle_success_complete_witness :
  exists batches : list (list point),
    requests (snd (handle env_docs (ArgString guide)
                     (world_with documentation_768 [])))
    = requests (world_with documentation_768 [])
      ++ map (Upsert COLLECTION_NAME true) batches
    /\ concat (map (map chunk_of) batches)
       = [ {| text := js "alpha beta gamma"; url := guide; title := guide;
              timestamp := js "2025-01-01T00:00:00.000Z" |} ]
    /\ success_response guide 1 1
       = success_response guide 1 (length batches).
Proof.
  destruct (handle env_docs (ArgString guide) (world_with documentation_768 []))
    as [[resp|e] w'] eqn:Hrun; [|vm_compute in Hrun; discriminate Hrun].
  destruct (fetchAndProcessUrl env_docs guide (world_with documentation_768 []))
    as [[chunks|e] w1] eqn:Hfetch; [|vm_compute in Hfetch; discriminate Hfetch].
  assert (chunks = [ {| text := js "alpha beta gamma"; url := guide;
                        title := guide;
                        timestamp := js "2025-01-01T00:00:00.000Z" |} ]
          /\ resp = success_response guide 1 1) as [Hchunks Hresp].
  { vm_compute in Hfetch. injection Hfetch as <- _.
    vm_compute in Hrun. injection Hrun as <- _. split; reflexivity. }
  destruct (handle_success_complete env_docs guide
              (world_with documentation_768 []) w1 w' chunks resp Hfetch Hrun)
    as (batches & Hreq & Hcat & Hcount).
  { by rewrite Hresp. }
  exists batches. simpl. split; [exact Hreq|].
  split; [by rewrite Hcat|]. rewrite <- Hresp, Hcount. by rewrite Hchunks.
Defined.

(* --------------------------------------------------------------------- *)
(* More on the handler: the path check and the errors of the source       *)
(* --------------------------------------------------------------------- *)

Lemma strip_common_app (a rest : list jsstring) :
  strip_common a (a ++ rest) = ([], rest).
Proof.
  induction a as [|x a IH]; [by destruct rest|].
  simpl. by rewrite bool_decide_eq_true_2.
Qed.

Lemma join_starts_with_dots (seg : jsstring) (rest : list jsstring) :
  startsWith (js "..") (join (js "/") (seg :: rest))
  = startsWith (js "..") seg.
Proof.
  destruct rest as [|seg' rest]; [done|].
  change (join (js "/") (seg :: seg' :: rest))
    with (seg ++ slash :: join (js "/") (seg' :: rest)).
  change (js "..") with [46%N; 46%N].
  destruct seg as [|a [|b seg]]; simpl; [done| |done].
  by rewrite !andb_false_r.
Qed.

Lemma join_not_absolute (segs : list jsstring) :
  Forall kept_segment segs -> path_isAbsolute (join (js "/") segs) = false.
Proof.
  destruct 1 as [|seg segs (Hne & _ & _ & Hfree) _]; [done|].
  destruct seg as [|a seg]; [done|].
  inversion Hfree as [|? ? Ha _]; subst.
  unfold path_isAbsolute. change (js "/") with [slash].
  destruct segs; cbn [join app startsWith]; by rewrite N.eqb_sym, Ha.
Qed.

(** The relative path of a target in the working directory. *)
Lemma inside_relative (cwd source : jsstring) (rest : list jsstring) :
  resolve_segments cwd source = resolve_segments cwd (js ".") ++ rest ->
  path_relative cwd (path_resolve cwd (js ".")) (path_resolve cwd source)
  = join (js "/") rest
  /\ Forall kept_segment rest.
Proof.
  intros Hrest. unfold path_relative. rewrite !resolve_resolved, Hrest.
  rewrite strip_common_app. split; [done|].
  pose proof (resolve_segments_kept cwd source) as Hkept.
  rewrite Hrest in Hkept. by apply Forall_app in Hkept as [_ ?].
Qed.

(** X13 (the path check, exactly): a local source is refused, before any
    file is touched, when it resolves outside the working directory and also
    when it resolves inside it to a path whose first segment below the
    working directory starts with two dots (a file or directory named
    [..notes], say); every other local source has its file accessed. *)
Theorem read_local_file_path_check (E : Env) (source : jsstring) (w : world) :
  (~ resolve_segments (cwd E) (js ".") `prefix_of` resolve_segments (cwd E) source
   \/ dotted_below (resolve_segments (cwd E) (js "."))
        (resolve_segments (cwd E) source) ->
   read_local_file E source w = (Throw access_denied, w))
  /\ (resolve_segments (cwd E) (js ".") `prefix_of` resolve_segments (cwd E) source ->
      ~ dotted_below (resolve_segments (cwd E) (js "."))
          (resolve_segments (cwd E) source) ->
      exists more,
        io (snd (read_local_file E source w))
        = io w ++ FsAccess (path_resolve (cwd E) source) :: more).
Proof.
  split.
  - intros [Hout|(seg & rest & Htarget & Hdots)].
    + by apply read_local_file_outside.
    + unfold read_local_file.
      destruct (inside_relative _ _ _ Htarget) as [-> _].
      by rewrite join_starts_with_dots, Hdots.
  - intros [rest Htarget] Hplain. unfold read_local_file.
    destruct (inside_relative _ _ _ Htarget) as [-> Hkept].
    rewrite (join_not_absolute _ Hkept).
    assert (startsWith (js "..") (join (js "/") rest) = false) as ->.
    { destruct rest as [|seg rest]; [done|].
      rewrite join_starts_with_dots.
      destruct (startsWith (js "..") seg) eqn:Hdots; [|done].
      destruct Hplain. by exists seg, rest. }
    cbn [orb]. unfold try_catch, bind, access, readFile, bind, log_io, throw, ret.
    destruct (fs_access E _); [|destruct (fs_readFile E _)];
      repeat case_bool_decide; simpl;
      first [by exists [] | eexists; by rewrite <- app_assoc].
Qed.

Lemma read_local_file_path_check_witness :
  dotted_below (resolve_segments (cwd env_docs) (js "."))
    (resolve_segments (cwd env_docs) (js "..notes/a.txt"))
  /\ read_local_file env_docs (js "..notes/a.txt") (quiet ∅)
     = (Throw access_denied, quiet ∅).
Proof.
  assert (dotted_below (resolve_segments (cwd env_docs) (js "."))
            (resolve_segments (cwd env_docs) (js "..notes/a.txt"))) as Hdots.
  { exists (js "..notes"), [js "a.txt"]. split; reflexivity. }
  split; [exact Hdots|].
  apply (proj1 (read_local_file_path_check env_docs (js "..notes/a.txt")
                  (quiet ∅))).
  by right.
Defined.

Lemma read_local_file_allowed (E : Env) (source : jsstring) :
  resolve_segments (cwd E) (js ".") `prefix_of` resolve_segments (cwd E) source ->
  ~ dotted_below (resolve_segments (cwd E) (js "."))
      (resolve_segments (cwd E) source) ->
  startsWith (js "..")
    (path_relative (cwd E) (path_resolve (cwd E) (js "."))
       (path_resolve (cwd E) source))
  || path_isAbsolute
       (path_relative (cwd E) (path_resolve (cwd E) (js "."))
          (path_resolve (cwd E) source)) = false.
Proof.
  intros [rest Htarget] Hplain.
  destruct (inside_relative _ _ _ Htarget) as [-> Hkept].
  rewrite (join_not_absolute _ Hkept), orb_false_r.
  destruct rest as [|seg rest]; [done|].
  rewrite join_starts_with_dots.
  destruct (startsWith (js "..") seg) eqn:Hdots; [|done].
  destruct Hplain. by exists seg, rest.
Qed.

(** X14 (a local file that cannot be read): for a local source that passes
    the path check, when [fs.access] or [fs.readFile] fails the handler
    throws an [McpError] chosen by the [code] of the error: [InvalidParams]
    with the resolved path for [ENOENT] (not found) and for [EACCES]
    (permission denied), [InternalError] with the path and the message of
    the error for any other code; nothing is embedded and nothing is sent to
    the store. *)
Theorem handle_local_file_errors (E : Env) (source : jsstring) (w : world)
    (err : fs_error) :
  source <> [] ->
  local_source source ->
  resolve_segments (cwd E) (js ".") `prefix_of` resolve_segments (cwd E) source ->
  ~ dotted_below (resolve_segments (cwd E) (js "."))
      (resolve_segments (cwd E) source) ->
  read_failure E (path_resolve (cwd E) source) = Some err ->
  fst (handle E (ArgString source) w)
  = Throw
      (if bool_decide (fe_code err = js "ENOENT") then
         McpError InvalidParams
           (js "Local file not found: " ++ path_resolve (cwd E) source)
       else if bool_decide (fe_code err = js "EACCES") then
         McpError InvalidParams
           (js "Permission denied reading local file: "
            ++ path_resolve (cwd E) source)
       else
         McpError InternalError
           (js "Error reading local file " ++ path_resolve (cwd E) source
            ++ js ": " ++ fe_message err))
  /\ requests (snd (handle E (ArgString source) w)) = requests w
  /\ collections (snd (handle E (ArgString source) w)) = collections w
  /\ Forall (fun ev => forall input, ev <> Embed input)
       (drop (length (io w)) (io (snd (handle E (ArgString source) w)))).
Proof.
  intros Hne [Hhttp Hhttps] Hin Hplain Hfail.
  destruct source as [|c s]; [done|].
  unfold handle, try_catch at 1, bind at 1, fetchAndProcessUrl, try_catch at 1,
    bind at 1.
  rewrite Hhttp, Hhttps. cbn [orb].
  unfold read_local_file. rewrite (read_local_file_allowed _ _ Hin Hplain).
  unfold read_failure in Hfail.
  unfold try_catch, bind, access, readFile, bind, log_io, throw, ret.
  assert (forall l (e1 e2 : io_event),
            (forall input, e1 <> Embed input) ->
            (forall input, e2 <> Embed input) ->
            Forall (fun ev => forall input, ev <> Embed input)
              (drop (length l) ((l ++ [e1]) ++ [e2]))) as Htwo.
  { intros l e1 e2 H1 H2. rewrite <- app_assoc, drop_app_length.
    by repeat constructor. }
  assert (forall l (e1 : io_event),
            (forall input, e1 <> Embed input) ->
            Forall (fun ev => forall input, ev <> Embed input)
              (drop (length l) (l ++ [e1]))) as Hone.
  { intros l e1 H1. rewrite drop_app_length. by repeat constructor. }
  destruct (fs_access E _) as [e|].
  - injection Hfail as ->. cbn [fs_throw code_of message_of].
    assert (forall x y : jsstring,
              bool_decide (Some x = Some y) = bool_decide (x = y)) as Hsome.
    { intros x y. apply bool_decide_ext. split; [by intros [= ->] | by intros ->]. }
    rewrite !Hsome.
    repeat case_bool_decide; simpl; (repeat split; [done..|]); by apply Hone.
  - destruct (fs_readFile E _) as [e|content]; [|done].
    injection Hfail as ->. cbn [fs_throw code_of message_of].
    assert (forall x y : jsstring,
              bool_decide (Some x = Some y) = bool_decide (x = y)) as Hsome.
    { intros x y. apply bool_decide_ext. split; [by intros [= ->] | by intros ->]. }
    rewrite !Hsome.
    repeat case_bool_decide; simpl; (repeat split; [done..|]); by apply Htwo.
Qed.

Lemma handle_local_file_errors_witness :
  (js "notes.txt" <> []
   /\ local_source (js "notes.txt")
   /\ resolve_segments (cwd env_files) (js ".")
        `prefix_of` resolve_segments (cwd env_files) (js "notes.txt")
   /\ ~ dotted_below (resolve_segments (cwd env_files) (js "."))
          (resolve_segments (cwd env_files) (js "notes.txt"))
   /\ read_failure env_files (path_resolve (cwd env_files) (js "notes.txt"))
      = Some {| fe_code := js "ENOENT";
                fe_message := js "ENOENT: no such file or directory" |})
  /\ fst (handle env_files (ArgString (js "notes.txt")) (quiet ∅))
     = Throw (McpError InvalidParams
         (js "Local file not found: " ++ js "/srv/app/notes.txt")).
Proof.
  assert (resolve_segments (cwd env_files) (js ".")
            `prefix_of` resolve_segments (cwd env_files) (js "notes.txt"))
    as Hin by (exists [js "notes.txt"]; reflexivity).
  assert (~ dotted_below (resolve_segments (cwd env_files) (js "."))
              (resolve_segments (cwd env_files) (js "notes.txt"))) as Hplain.
  { intros (seg & rest & Ht & Hd). vm_compute in Ht.
    injection Ht as <- _. vm_compute in Hd. discriminate Hd. }
  assert (read_failure env_files (path_resolve (cwd env_files) (js "notes.txt"))
          = Some {| fe_code := js "ENOENT";
                    fe_message := js "ENOENT: no such file or directory" |})
    as Hfail by reflexivity.
  split; [repeat split; try done; discriminate|].
  destruct (handle_local_file_errors env_files (js "notes.txt") (quiet ∅) _
              ltac:(discriminate) ltac:(by split) Hin Hplain Hfail)
    as (Hres & _).
  rewrite Hres. reflexivity.
Defined.

(** X15 (a URL that cannot be loaded): when the source starts with
    [http://] or [https://] and loading it throws a value that is not an
    [McpError], the handler throws an [McpError] with the code
    [InternalError] whose message names the source and carries the message
    of the error (or the value itself when it is not an [Error]); the load
    is the only thing that was done. *)
Theorem handle_url_load_fails (E : Env) (source : jsstring) (w : world)
    (error : js_value) :
  url_source source ->
  load_url E source = inl error ->
  instanceof_McpError error = false ->
  handle E (ArgString source) w
  = (Throw (McpError InternalError
       (js "Failed to fetch or process source " ++ source ++ js ": "
        ++ (if instanceof_Error error then message_of error
            else String_of error))),
     with_io w [LoadUrl source]).
Proof.
  unfold url_source. intros Hurl Hload Htyped.
  destruct source as [|c s]; [done|].
  unfold handle, try_catch, bind, fetchAndProcessUrl, try_catch, bind.
  rewrite Hurl. unfold read_url, bind, log_io. rewrite Hload.
  unfold throw. by rewrite Htyped.
Qed.

Lemma handle_url_load_fails_witness :
  (url_source (js "https://example.com/docs")
   /\ load_url env_docs (js "https://example.com/docs")
      = inl (JsError (js "TypeError") (js "fetch failed"))
   /\ instanceof_McpError (JsError (js "TypeError") (js "fetch failed")) = false)
  /\ handle env_docs (ArgString (js "https://example.com/docs")) (quiet ∅)
     = (Throw (McpError InternalError
          (js "Failed to fetch or process source "
           ++ js "https://example.com/docs" ++ js ": " ++ js "fetch failed")),
        with_io (quiet ∅) [LoadUrl (js "https://example.com/docs")]).
Proof.
  split; [repeat split|].
  exact (handle_url_load_fails env_docs (js "https://example.com/docs")
           (quiet ∅) (JsError (js "TypeError") (js "fetch failed"))
           eq_refl eq_refl eq_refl).
Defined.

Section EmbeddingFails.

Variable E : Env.

Lemma Promise_all_fails (batch : list DocumentChunk) (w : world) :
  (exists c message, c ∈ batch /\ provider_embeddings E (text c) = inl message) ->
  exists message w',
    Promise_all_map E (make_point E) batch w
    = (Throw (McpError InternalError message), w')
    /\ requests w' = requests w /\ collections w' = collections w.
Proof.
  intros (c & m & Hin & Hp).
  destruct (Promise_all_map E (make_point E) batch w) as [[pts|e] w'] eqn:Hall;
    apply Promise_all_frame in Hall as ((Hc & _ & Hr) & _ & Hres).
  - destruct Hres as (_ & _ & _ & _ & Hemb). rewrite Forall_forall in Hemb.
    destruct (Hemb c Hin) as [v Hv]. by rewrite Hp in Hv.
  - destruct Hres as ((message & ->) & _). by exists message, w'.
Qed.

(** X16 (an embedding fails): when the provider fails for one of the first
    hundred chunks of the source, the handler throws an [McpError] with the
    code [InternalError] and nothing goes to the store: the batch is
    upserted as a whole or not at all. *)
Theorem handle_embedding_fails (source : jsstring) (w w1 : world)
    (chunks : list DocumentChunk) (c : DocumentChunk) (reason : jsstring) :
  source <> [] ->
  fetchAndProcessUrl E source w = (Normal chunks, w1) ->
  c ∈ take batchSize chunks ->
  provider_embeddings E (text c) = inl reason ->
  exists message w',
    handle E (ArgString source) w = (Throw (McpError InternalError message), w')
    /\ requests w' = requests w
    /\ collections w' = collections w.
Proof.
  intros Hsrc Hfetch Hin Hp.
  pose proof (fetchAndProcessUrl_chunks _ _ _ _ _ Hfetch) as [Hne _].
  destruct source as [|s0 s]; [done|].
  unfold handle, try_catch, bind. rewrite Hfetch.
  apply fetchAndProcessUrl_frame in Hfetch as ((Hc & _ & Hr) & _ & _).
  destruct chunks as [|c1 chunks]; [done|].
  cbn [length batch_loop]. cbn [Nat.ltb Nat.leb]. unfold bind.
  destruct (Promise_all_fails (slice (c1 :: chunks) 0 (0 + batchSize)) w1)
    as (m & w' & Hrun & Hr' & Hc').
  { exists c, reason. split; [|done]. unfold slice. by rewrite drop_0. }
  rewrite Hrun. cbn [instanceof_McpError]. exists m, w'.
  split; [done|]. split; congruence.
Qed.

End EmbeddingFails.

Lemma handle_embedding_fails_witness :
  exists (chunks : list DocumentChunk) (w1 : world) (c : DocumentChunk),
    (guide <> []
     /\ fetchAndProcessUrl env_no_model guide (quiet ∅) = (Normal chunks, w1)
     /\ c ∈ take batchSize chunks
     /\ provider_embeddings env_no_model (text c)
        = inl (js "Failed to generate embeddings with Ollama: Error: model not found"))
    /\ exists message w',
         handle env_no_model (ArgString guide) (quiet ∅)
         = (Throw (McpError InternalError message), w')
         /\ requests w' = requests (quiet ∅)
         /\ collections w' = collections (quiet ∅).
Proof.
  assert (exists chunks w1 c,
             fetchAndProcessUrl env_no_model guide (quiet ∅) = (Normal chunks, w1)
             /\ c ∈ take batchSize chunks) as (chunks & w1 & c & Hfetch & Hin).
  { eexists _, _, _. split; [vm_compute; reflexivity|]. cbn [take batchSize]. left. }
  exists chunks, w1, c.
  assert (guide <> []) as Hsrc by discriminate.
  split; [done|].
  exact (handle_embedding_fails env_no_model guide (quiet ∅) w1 chunks c _
           Hsrc Hfetch Hin eq_refl).
Defined.

Section HandlerSucceeds.

Variable E : Env.

Lemma Promise_all_succeeds (batch : list DocumentChunk) (w : world) :
  Forall (embeddable E) batch ->
  exists pts w',
    Promise_all_map E (make_point E) batch w = (Normal pts, w')
    /\ same_store w w'.
Proof.
  intros Hemb.
  destruct (Promise_all_map E (make_point E) batch w) as [[pts|e] w'] eqn:Hall;
    apply Promise_all_frame in Hall as (Hs & _ & Hres).
  - by exists pts, w'.
  - destruct Hres as (_ & c & Hin & Hno). rewrite Forall_forall in Hemb.
    destruct Hno. by apply Hemb.
Qed.

Lemma upsert_batch_succeeds (pts : list point) (w : world) :
  store_ready w ->
  exists w', upsert_batch pts w = (Normal tt, w') /\ store_ready w'.
Proof.
  intros [Hf [c Hc]]. rewrite upsert_batch_run.
  unfold upsert, send. rewrite Hf, Hc. eexists. split; [done|].
  split; [done|]. cbn [collections]. by rewrite lookup_insert_eq.
Qed.

Lemma batch_loop_succeeds (fuel i : nat) (chunks : list DocumentChunk)
    (w : world) :
  Forall (embeddable E) chunks -> store_ready w ->
  exists w', batch_loop E fuel i chunks w = (Normal tt, w') /\ store_ready w'.
Proof.
  intros Hall. revert i w. induction fuel as [|fuel IH]; intros i w Hw.
  { by exists w. }
  cbn [batch_loop]. destruct (i <? length chunks)%nat; [|by exists w].
  unfold bind.
  destruct (Promise_all_succeeds (slice chunks i (i + batchSize)) w)
    as (pts & w1 & Hrun & Hc & Hf & _).
  { unfold slice. apply Forall_take, Forall_drop, Hall. }
  rewrite Hrun.
  destruct (upsert_batch_succeeds pts w1) as (w2 & Hup & Hw2).
  { destruct Hw as [Hwf Hwc]. split; congruence. }
  rewrite Hup. by apply IH.
Qed.

(** X17 (the handler succeeds): when the source can be read, the provider
    has an embedding for every chunk of it, the store answers and has the
    collection [documentation], the handler returns the success response,
    which counts the chunks and, as batches, the chunks divided by a hundred
    and rounded up; the store is left answering. *)
Theorem handle_succeeds (source : jsstring) (w w1 : world)
    (chunks : list DocumentChunk) :
  source <> [] ->
  fetchAndProcessUrl E source w = (Normal chunks, w1) ->
  Forall (embeddable E) chunks ->
  store_ready w ->
  exists w',
    handle E (ArgString source) w
    = (Normal (success_response source (length chunks)
                 (ceil_div (length chunks) batchSize)), w')
    /\ store_ready w'.
Proof.
  intros Hsrc Hfetch Hall Hw. destruct source as [|c s]; [done|].
  unfold handle, try_catch, bind. rewrite Hfetch.
  apply fetchAndProcessUrl_frame in Hfetch as ((Hc & Hf & _) & _ & _).
  destruct (batch_loop_succeeds (length chunks) 0 chunks w1 Hall)
    as (w' & Hloop & Hw').
  { destruct Hw as [Hwf Hwc]. split; congruence. }
  rewrite Hloop. by exists w'.
Qed.

End HandlerSucceeds.

Lemma handle_succeeds_witness :
  exists (chunks : list DocumentChunk) (w1 : world),
    (guide <> []
     /\ fetchAndProcessUrl env_docs guide (world_with documentation_768 [])
        = (Normal chunks, w1)
     /\ Forall (embeddable env_docs) chunks
     /\ store_ready (world_with documentation_768 []))
    /\ exists w',
         handle env_docs (ArgString guide) (world_with documentation_768 [])
         = (Normal (success_response guide (length chunks)
                      (ceil_div (length chunks) batchSize)), w')
         /\ store_ready w'.
Proof.
  assert (exists chunks w1,
             fetchAndProcessUrl env_docs guide (world_with documentation_768 [])
             = (Normal chunks, w1)) as (chunks & w1 & Hfetch).
  { eexists _, _. vm_compute. reflexivity. }
  assert (guide <> []) as Hsrc by discriminate.
  assert (Forall (embeddable env_docs) chunks) as Hall.
  { apply Forall_forall. intros c _. by exists [1; 2; 3]. }
  assert (store_ready (world_with documentation_768 [])) as Hw.
  { split; [reflexivity|]. by eexists. }
  exists chunks, w1. split; [done|].
  exact (handle_succeeds env_docs guide (world_with documentation_768 []) w1
           chunks Hsrc Hfetch Hall Hw).
Defined.

(* --------------------------------------------------------------------- *)
(* The environment of the client                                          *)
(* --------------------------------------------------------------------- *)

(** X18 (new ApiClient, the environment): a client that was built has an
    endpoint that is not empty, the local one when [QDRANT_URL] is unset or
    empty and the configured one otherwise, and the [ollama] provider when
    [EMBEDDING_PROVIDER] is unset or empty; when the constructor throws
    after the store client was built, a provider was named, and what it
    throws is an [Error] that is no [McpError]: the code [InvalidParams] of
    the factory is lost. *)
Theorem new_ApiClient_defaults (e : process_env) :
  (forall api : ApiClient,
      new_ApiClient (Normal tt) e = Normal api ->
      qdrant_url api <> []
      /\ (falsy (env_QDRANT_URL e) = true ->
          qdrant_url api = js "http://127.0.0.1:6333")
      /\ (falsy (env_QDRANT_URL e) = false ->
          env_QDRANT_URL e = Some (qdrant_url api))
      /\ (falsy (env_EMBEDDING_PROVIDER e) = true ->
          embeddingService api = new_OllamaProvider (env_EMBEDDING_MODEL e)))
  /\ (forall error : js_value,
      new_ApiClient (Normal tt) e = Throw error ->
      instanceof_Error error = true
      /\ instanceof_McpError error = false
      /\ falsy (env_EMBEDDING_PROVIDER e) = false).
Proof.
  unfold new_ApiClient, config_of_env, createFromConfig, EMBEDDING_PROVIDER,
    QDRANT_URL, or_default.
  cbn [provider model openaiApiKey openaiBaseUrl geminiApiKey].
  split.
  - intros api Hnew.
    assert (qdrant_url api
            = match env_QDRANT_URL e with
              | Some (c :: s) => c :: s
              | _ => js "http://127.0.0.1:6333"
              end) as Hurl.
    { revert Hnew.
      repeat (case_bool_decide; [try destruct (falsy _)|]);
        try done; by intros [= <-]. }
    split; [|split; [|split]].
    + rewrite Hurl. by destruct (env_QDRANT_URL e) as [[|? ?]|].
    + rewrite Hurl. by destruct (env_QDRANT_URL e) as [[|? ?]|].
    + rewrite Hurl. by destruct (env_QDRANT_URL e) as [[|? ?]|].
    + intros Hp. revert Hnew.
      destruct (env_EMBEDDING_PROVIDER e) as [[|? ?]|]; try done;
        rewrite bool_decide_eq_true_2 by done; by intros [= <-].
  - intros error Hnew.
    destruct (env_EMBEDDING_PROVIDER e) as [[|? ?]|];
      [by rewrite bool_decide_eq_true_2 in Hnew by done| |
       by rewrite bool_decide_eq_true_2 in Hnew by done].
    revert Hnew.
    repeat (case_bool_decide; [try destruct (falsy _)|]);
      try done; by intros [= <-].
Qed.

Lemma new_ApiClient_defaults_witness :
  exists api : ApiClient,
    new_ApiClient (Normal tt) env_empty = Normal api
    /\ qdrant_url api = js "http://127.0.0.1:6333"
    /\ embeddingService api = new_OllamaProvider None.
Proof.
  destruct (new_ApiClient (Normal tt) env_empty) as [api|error] eqn:Hnew;
    [|vm_compute in Hnew; discriminate Hnew].
  exists api. split; [reflexivity|].
  destruct (proj1 (new_ApiClient_defaults env_empty) api Hnew)
    as (_ & Hurl & _ & Hprov).
  split; [by apply Hurl | by apply Hprov].
Defined.

(* --------------------------------------------------------------------- *)
(* Errors that are swallowed, errors that are not recognised              *)
(* --------------------------------------------------------------------- *)

(** C3: when the listing, or the read of the size of a listed collection,
    throws an [Error] with [Not found] in its message, [initCollection]
    swallows it and returns at once: the read or the two reads are all it
    sent, no [createCollection] follows, and the store is as it was, so that
    a collection that was not there is still not there when the call has
    returned. *)
Theorem initCollection_not_found_swallowed (api : ApiClient) (name : jsstring)
    (w : world) (n m : jsstring) :
  read_fault name w (StoreError n m) ->
  includes (js "Not found") m = true ->
  exists w' : world,
    initCollection api name w = (Normal tt, w')
    /\ collections w' = collections w
    /\ (requests w' = requests w ++ [GetCollections]
        \/ requests w' = requests w ++ [GetCollections; GetCollection name]).
Proof.
  assert (forall v : world,
    handleQdrantError api (JsError n m) (js "initialize/verify") v
    = (Normal tt, v) \/ includes (js "Not found") m = false) as Hswallow.
  { intros v. unfold handleQdrantError. cbn [instanceof_Error message_of].
    destruct (includes (js "Not found") m); [by left | by right]. }
  intros [(rest & Hf)|(rest & c & Hf & Hc)] Hm;
    unfold initCollection, try_catch, bind, getCollections.
  - rewrite (send_thrown _ _ _ _ _ Hf). cbn [thrown].
    destruct (Hswallow (after w (collections w) rest [GetCollections]))
      as [->|Hno]; [|congruence].
    eexists. split; [reflexivity|]. split; [done | by left].
  - rewrite (send_passed _ _ _ _ Hf). cbn [fst snd].
    rewrite (find_name_present _ _ _ Hc).
    unfold getCollection. erewrite send_thrown by reflexivity. cbn [thrown].
    match goal with
    | |- context [handleQdrantError _ _ _ ?v] =>
        destruct (Hswallow v) as [->|Hno]; [|congruence]
    end.
    eexists. split; [reflexivity|]. split; [done|]. right.
    cbn [requests after]. by rewrite <- app_assoc.
Qed.

Lemma initCollection_not_found_swallowed_witness :
  (read_fault COLLECTION_NAME world_listing_not_found not_found_error
   /\ includes (js "Not found")
        (js "Not found: Collection `documentation` doesn't exist!") = true)
  /\ exists w' : world,
       initCollection api_default COLLECTION_NAME world_listing_not_found
       = (Normal tt, w')
       /\ collections w' = ∅
       /\ (requests w' = [GetCollections]
           \/ requests w' = [GetCollections; GetCollection COLLECTION_NAME]).
Proof.
  assert (read_fault COLLECTION_NAME world_listing_not_found not_found_error)
    as Hfault by (left; by exists []).
  split; [split; [exact Hfault | reflexivity]|].
  exact (initCollection_not_found_swallowed api_default COLLECTION_NAME
           world_listing_not_found _ _ Hfault eq_refl).
Defined.

(** C2: a call of [initCollection] that returned does not make the next one
    harmless.  On a store without the collection whose listing throws an
    [Error] with [Not found] in its message, the first call swallows the
    error and returns, nothing being created; the second call, which the
    store answers, then sends a [createCollection] and changes the store. *)
Theorem initCollection_second_call_creates (api : ApiClient) (name : jsstring)
    (w : world) (n m : jsstring) :
  faults w = [Some (StoreError n m)] ->
  includes (js "Not found") m = true ->
  collections w !! name = None ->
  exists w1 w2 : world,
    initCollection api name w = (Normal tt, w1)
    /\ collections w1 = collections w
    /\ initCollection api name w1 = (Normal tt, w2)
    /\ requests w2
       = requests w1
         ++ [GetCollections; CreateCollection name (required_params api)]
    /\ collections w2 !! name = Some (new_collection (required_params api)).
Proof.
  intros Hf Hm Hnone.
  exists (after w (collections w) [] [GetCollections]).
  assert (initCollection api name w
          = (Normal tt, after w (collections w) [] [GetCollections])) as Hfirst.
  { unfold initCollection, try_catch, bind, getCollections.
    rewrite (send_thrown _ _ _ _ _ Hf). cbn [thrown].
    unfold handleQdrantError. cbn [instanceof_Error message_of].
    rewrite Hm. reflexivity. }
  eexists. split; [exact Hfirst|]. split; [done|].
  rewrite initCollection_answered by done.
  cbn [collections after]. rewrite Hnone.
  split; [reflexivity|]. split; [done|].
  cbn [collections answered after]. by rewrite lookup_insert_eq.
Qed.

Lemma initCollection_second_call_creates_witness :
  (faults world_listing_not_found = [Some not_found_error]
   /\ includes (js "Not found")
        (js "Not found: Collection `documentation` doesn't exist!") = true
   /\ collections world_listing_not_found !! COLLECTION_NAME = None)
  /\ exists w1 w2 : world,
       initCollection api_default COLLECTION_NAME world_listing_not_found
       = (Normal tt, w1)
       /\ collections w1 = collections world_listing_not_found
       /\ initCollection api_default COLLECTION_NAME w1 = (Normal tt, w2)
       /\ requests w2
          = requests w1
            ++ [GetCollections;
                CreateCollection COLLECTION_NAME (required_params api_default)]
       /\ collections w2 !! COLLECTION_NAME
          = Some (new_collection (required_params api_default)).
Proof.
  split; [repeat split|].
  exact (initCollection_second_call_creates api_default COLLECTION_NAME
           world_listing_not_found _ _ eq_refl eq_refl eq_refl).
Defined.

(** The same with a collection of another size, when [deleteCollection]
    throws [Not found]: the first call returns, and the second one deletes
    the collection and creates it again. *)
Example initCollection_second_call_recreates :
  fst (initCollection api_default COLLECTION_NAME
         (world_with documentation_1536 [None; None; Some not_found_error]))
  = Normal tt
  /\ requests (snd (initCollection api_default COLLECTION_NAME
        (snd (initCollection api_default COLLECTION_NAME
           (world_with documentation_1536 [None; None; Some not_found_error])))))
     = [GetCollections; GetCollection COLLECTION_NAME;
        DeleteCollection COLLECTION_NAME;
        GetCollections; GetCollection COLLECTION_NAME;
        DeleteCollection COLLECTION_NAME;
        CreateCollection COLLECTION_NAME
          {| vectors_size := 768; vectors_distance := Cosine;
             cloud_settings := false |}].
Proof. split; vm_compute; reflexivity. Qed.

(** C8: an [Error] thrown by [upsert] is given a type on three exact
    substrings of its message only.  When the points of the first batch are
    built and [upsert] throws an [Error] whose message has none of
    [unauthorized], [ECONNREFUSED] and [ETIMEDOUT], the handler throws
    nothing: it returns the response with [isError] that names the error.
    [Unauthorized], [Forbidden] and [Request timed out] are such
    messages. *)
Theorem handle_upsert_not_reclassified (E : Env) (source : jsstring)
    (w w1 : world) (chunks : list DocumentChunk) (n m : jsstring)
    (rest : list (option store_error)) :
  source <> [] ->
  fetchAndProcessUrl E source w = (Normal chunks, w1) ->
  Forall (embeddable E) (take batchSize chunks) ->
  faults w = Some (StoreError n m) :: rest ->
  includes (js "unauthorized") m = false ->
  includes (js "ECONNREFUSED") m = false ->
  includes (js "ETIMEDOUT") m = false ->
  exists w' : world,
    handle E (ArgString source) w
    = (Normal (failure_response (JsError n m)), w').
Proof.
  intros Hsrc Hfetch Hemb Hf Hauth Hconn Htime.
  pose proof (fetchAndProcessUrl_chunks _ _ _ _ _ Hfetch) as [Hne _].
  pose proof Hfetch as Hframe.
  apply fetchAndProcessUrl_frame in Hframe as ((_ & Hf1 & _) & _ & _).
  destruct (handle_error_taxonomy E) as (Hup & _ & _ & Hloop & _).
  destruct chunks as [|c0 chunks]; [done|].
  destruct (Promise_all_succeeds E (slice (c0 :: chunks) 0 (0 + batchSize)) w1)
    as (pts & w2 & Hall & _ & Hf2 & _).
  { unfold slice. by rewrite drop_0. }
  pose proof (Hup (length chunks) 0%nat (c0 :: chunks) w1 pts w2
                (StoreError n m) rest ltac:(cbn [length]; lia) Hall
                ltac:(congruence)) as Hthrown.
  cbv beta iota in Hthrown.
  rewrite Hauth, Hconn, Htime in Hthrown. cbn [orb] in Hthrown.
  destruct (batch_loop E (S (length chunks)) 0 (c0 :: chunks) w1)
    as [r w3] eqn:Hl.
  cbn [fst] in Hthrown. subst r. exists w3.
  by rewrite (Hloop source w (c0 :: chunks) w1 (JsError n m) w3 Hsrc Hfetch Hl).
Qed.

Lemma handle_upsert_not_reclassified_witness :
  exists (chunks : list DocumentChunk) (w1 : world),
    (guide <> []
     /\ fetchAndProcessUrl env_docs guide world_401 = (Normal chunks, w1)
     /\ Forall (embeddable env_docs) (take batchSize chunks)
     /\ faults world_401 = [Some (StoreError (js "Error") (js "Unauthorized"))]
     /\ includes (js "unauthorized") (js "Unauthorized") = false
     /\ includes (js "ECONNREFUSED") (js "Unauthorized") = false
     /\ includes (js "ETIMEDOUT") (js "Unauthorized") = false)
    /\ exists w' : world,
         handle env_docs (ArgString guide) world_401
         = (Normal {| content_text :=
                        js "Failed to add documentation: Error: Unauthorized";
                      isError := true |}, w').
Proof.
  assert (exists chunks w1,
             fetchAndProcessUrl env_docs guide world_401 = (Normal chunks, w1))
    as (chunks & w1 & Hfetch).
  { eexists _, _. vm_compute. reflexivity. }
  assert (guide <> []) as Hsrc by discriminate.
  assert (Forall (embeddable env_docs) (take batchSize chunks)) as Hemb.
  { apply Forall_forall. intros c _. by exists [1; 2; 3]. }
  exists chunks, w1. split; [repeat split; done|].
  exact (handle_upsert_not_reclassified env_docs guide world_401 w1 chunks
           (js "Error") (js "Unauthorized") [] Hsrc Hfetch Hemb
           eq_refl eq_refl eq_refl eq_refl).
Defined.

(** The same error in [initCollection]: there [handleQdrantError] knows
    [Unauthorized], and the caller gets an [McpError] with the code
    [InvalidRequest]. *)
Example initCollection_unauthorized :
  fst (initCollection api_default COLLECTION_NAME
         (world_with ∅ [Some (StoreError (js "Error") (js "Unauthorized"))]))
  = Throw (McpError InvalidRequest
      (js "Authentication failed for Qdrant during collection initialize/verify. Please check QDRANT_API_KEY if using Qdrant Cloud.")).
Proof. vm_compute. reflexivity. Qed.

Example handle_upsert_forbidden :
  fst (handle env_docs (ArgString guide)
         (world_with documentation_768 [Some forbidden_error]))
  = Normal {| content_text := js "Failed to add documentation: Error: Forbidden";
              isError := true |}.
Proof. vm_compute. reflexivity. Qed.

Example handle_upsert_timed_out :
  fst (handle env_docs (ArgString guide)
         (world_with documentation_768
            [Some (StoreError (js "Error") (js "Request timed out"))]))
  = Normal {| content_text :=
                js "Failed to add documentation: Error: Request timed out";
              isError := true |}.
Proof. vm_compute. reflexivity. Qed.

(* --------------------------------------------------------------------- *)
(* The handler: what a successful run stores                              *)
(* --------------------------------------------------------------------- *)

Lemma stored_points_of (w : world) (k : jsstring) :
  stored w k = points_of w !! k.
Proof.
  unfold stored, points_of.
  by destruct (collections w !! COLLECTION_NAME).
Qed.

Lemma point_count_points_of (w : world) : point_count w = size (points_of w).
Proof.
  unfold point_count, points_of.
  destruct (collections w !! COLLECTION_NAME); [done|].
  by rewrite map_size_empty.
Qed.

Lemma upsert_points_app (pts1 pts2 : list point) (ps : gmap jsstring point) :
  upsert_points (pts1 ++ pts2) ps = upsert_points pts2 (upsert_points pts1 ps).
Proof. apply fold_left_app. Qed.

(** Points with identifiers that differ are all stored. *)
Lemma upsert_points_lookup (pts : list point) (ps : gmap jsstring point)
    (p : point) :
  NoDup (map id pts) -> p ∈ pts -> upsert_points pts ps !! id p = Some p.
Proof.
  revert ps. induction pts as [|q pts IH]; intros ps Hnd Hin.
  { by apply elem_of_nil in Hin. }
  cbn [map] in Hnd. apply NoDup_cons in Hnd as [Hq Hnd].
  change (upsert_points (q :: pts) ps)
    with (upsert_points pts (<[id q := q]> ps)).
  apply elem_of_cons in Hin as [->|Hin]; [|by apply IH].
  rewrite upsert_points_other by done. apply lookup_insert_eq.
Qed.

(** Points with fresh identifiers that differ are all added. *)
Lemma upsert_points_size (pts : list point) (ps : gmap jsstring point) :
  NoDup (map id pts) ->
  (forall k, k ∈ map id pts -> ps !! k = None) ->
  size (upsert_points pts ps) = (size ps + length pts)%nat.
Proof.
  revert ps. induction pts as [|q pts IH]; intros ps Hnd Hfresh.
  { cbn. lia. }
  cbn [map] in Hnd, Hfresh. apply NoDup_cons in Hnd as [Hq Hnd].
  change (upsert_points (q :: pts) ps)
    with (upsert_points pts (<[id q := q]> ps)).
  rewrite IH; [|done|].
  - rewrite map_size_insert_None by (apply Hfresh; by left).
    cbn [length]. lia.
  - intros k Hk. rewrite lookup_insert_ne.
    + apply Hfresh. by right.
    + intros <-. done.
Qed.

Lemma upsert_batch_stored (pts : list point) (w w' : world) :
  upsert_batch pts w = (Normal tt, w') ->
  points_of w' = upsert_points pts (points_of w)
  /\ random_pos w' = random_pos w.
Proof.
  rewrite upsert_batch_run. unfold upsert, send, points_of.
  destruct (faults w) as [|[f|] rest]; [| done |];
    (destruct (collections w !! COLLECTION_NAME) as [c|]; [|done]);
    intros [= <-]; cbn [collections random_pos];
    by rewrite lookup_insert_eq.
Qed.

Section HandlerStores.

Variable E : Env.

(** A loop that returns has stored a point for every chunk from [i] on. *)
Lemma batch_loop_stored (fuel i : nat) (chunks : list DocumentChunk)
    (w w' : world) :
  batch_loop E fuel i chunks w = (Normal tt, w') ->
  (length chunks <= i + fuel * batchSize)%nat ->
  exists pts : list point,
    map chunk_of pts = drop i chunks
    /\ map id pts
         ≡ₚ point_ids (random_source E) (random_pos w)
              (length (drop i chunks))
    /\ points_of w' = upsert_points pts (points_of w).
Proof.
  revert i w w'. induction fuel as [|fuel IH]; intros i w w'.
  { intros [= <-] Hfuel. exists []. by rewrite drop_ge by lia. }
  cbn [batch_loop]. destruct (Nat.ltb_spec i (length chunks)) as [Hi|Hi].
  2:{ intros [= <-] _. exists []. by rewrite drop_ge. }
  unfold bind.
  destruct (Promise_all_map _ _ _ w) as [[pts1|e] w1] eqn:Hall; [|done].
  apply Promise_all_frame in Hall
    as ((Hc & _ & _) & _ & Hids & Hpos & Hchunks & _).
  destruct (upsert_batch pts1 w1) as [[[]|e] w2] eqn:Hup; [|done].
  apply upsert_batch_stored in Hup as [Hpts Hpos2].
  intros Hloop Hfuel.
  apply IH in Hloop as (pts2 & Hchunks2 & Hids2 & Hpts2);
    [|unfold batchSize in *; lia].
  assert (length (slice chunks i (i + batchSize))
          + length (drop (i + batchSize) chunks)
          = length (drop i chunks))%nat as Hlen
    by (by rewrite <- length_app, slice_drop).
  exists (pts1 ++ pts2). split; [|split].
  - by rewrite map_app, Hchunks, Hchunks2, slice_drop.
  - rewrite map_app, Hids, Hids2, <- Hlen, point_ids_app.
    by rewrite Hpos2, Hpos.
  - rewrite upsert_points_app, Hpts2, Hpts. unfold points_of. by rewrite Hc.
Qed.

End HandlerStores.

(** C9: the identifier of a point is the hexadecimal form of the 16 bytes
    the random source delivers next: two chunks that differ get the same one
    in the same state, and blocks that differ give identifiers that differ.
    The identifiers a run of the handler hands to [upsert] are the next
    blocks of the source, in each batch in the order in which the
    embeddings settled, and a point stored before is kept unless its
    identifier is drawn again.  When the run succeeds and the blocks it
    draws differ from each other and from the identifiers in the store,
    every point that was stored is still stored, every chunk of the source
    is stored under its own identifier, and the collection has as many
    points more as the source has chunks: adding a source again adds points
    beside the ones it added before. *)
Theorem point_ids_from_random_source (E : Env) :
  (forall w : world,
      fst (generatePointId E w)
      = Normal (toString_hex (randomBytes (random_source E) (random_pos w) 16))
      /\ random_pos (snd (generatePointId E w)) = (random_pos w + 16)%nat)
  /\ (forall (c1 c2 : DocumentChunk) (w w1 w2 : world) (p1 p2 : point),
      make_point_settled E c1 w = (Normal p1, w1) ->
      make_point_settled E c2 w = (Normal p2, w2) ->
      id p1 = id p2
      /\ id p1 = toString_hex (randomBytes (random_source E) (random_pos w) 16)
      /\ length (id p1) = 32%nat)
  /\ (forall pos1 pos2 : nat,
      randomBytes (random_source E) pos1 16
      <> randomBytes (random_source E) pos2 16 ->
      toString_hex (randomBytes (random_source E) pos1 16)
      <> toString_hex (randomBytes (random_source E) pos2 16))
  /\ (forall (arg : js_arg) (w w' : world) (r : completion McpToolResponse),
      handle E arg w = (r, w') ->
      exists (new : list jsstring) (n : nat),
        upsert_ids (requests w') = upsert_ids (requests w) ++ new
        /\ new ≡ₚ point_ids (random_source E) (random_pos w) n
        /\ forall (k : jsstring) (p : point),
             stored w k = Some p -> k ∉ new -> stored w' k = Some p)
  /\ (forall (source : jsstring) (w w1 w' : world)
             (chunks : list DocumentChunk) (resp : McpToolResponse),
      fetchAndProcessUrl E source w = (Normal chunks, w1) ->
      handle E (ArgString source) w = (Normal resp, w') ->
      isError resp = false ->
      NoDup (point_ids (random_source E) (random_pos w) (length chunks)) ->
      (forall k, k ∈ point_ids (random_source E) (random_pos w) (length chunks) ->
                 stored w k = None) ->
      (forall (k : jsstring) (p : point),
          stored w k = Some p -> stored w' k = Some p)
      /\ point_count w' = (point_count w + length chunks)%nat
      /\ exists pts : list point,
           map chunk_of pts = chunks
           /\ map id pts
                ≡ₚ point_ids (random_source E) (random_pos w) (length chunks)
           /\ Forall (fun p => stored w' (id p) = Some p) pts).
Proof.
  split; [done|]. split; [|split; [|split]].
  - intros c1 c2 w w1 w2 p1 p2 H1 H2.
    apply make_point_frame in H1 as (_ & _ & [Hid1 _] & _).
    apply make_point_frame in H2 as (_ & _ & [Hid2 _] & _).
    split; [congruence|]. split; [done|].
    by rewrite Hid1, toString_hex_length, randomBytes_length.
  - intros pos1 pos2 Hne Heq. apply Hne.
    by apply toString_hex_inj; [apply randomBytes_bytes..|].
  - intros arg w w' r.
    assert (exists (new : list jsstring) (n : nat),
      upsert_ids (requests w) = upsert_ids (requests w) ++ new
      /\ new ≡ₚ point_ids (random_source E) (random_pos w) n
      /\ forall (k : jsstring) (p : point),
           stored w k = Some p -> k ∉ new -> stored w k = Some p) as Hsame.
    { exists [], 0%nat. by rewrite app_nil_r. }
    unfold handle.
    destruct arg as [|[|c s]|]; try (by intros [= <- <-]).
    unfold try_catch, bind.
    destruct (fetchAndProcessUrl E (c :: s) w) as [[chunks|e] w1] eqn:Hfetch;
      apply fetchAndProcessUrl_frame in Hfetch as ((Hc & _ & Hr) & Hp & He).
    + destruct (batch_loop E (length chunks) 0 chunks w1) as [res w2] eqn:Hloop.
      apply batch_loop_ids in Hloop as (new & n & Hn & Hperm & Hkeep).
      rewrite Hr in Hn. rewrite Hp in Hperm.
      intros Hres.
      assert (w' = w2) as ->.
      { destruct res as [[]|e]; [by injection Hres|].
        unfold throw, ret in Hres.
        destruct (instanceof_McpError e); by injection Hres. }
      exists new, n. split; [done|]. split; [done|].
      intros k p Hk Hnot. rewrite Hkeep by done.
      unfold stored in *. by rewrite Hc.
    + rewrite (He e eq_refl). intros [= <- <-]. exists [], 0%nat.
      rewrite Hr, app_nil_r. split; [done|]. split; [done|].
      intros k p Hk _. unfold stored in *. by rewrite Hc.
  - intros source w w1 w' chunks resp Hfetch Hrun Hok Hnd Hfresh.
    destruct source as [|c s]; [done|].
    revert Hrun. unfold handle, try_catch, bind. rewrite Hfetch.
    apply fetchAndProcessUrl_frame in Hfetch as ((Hc & _ & _) & Hp & _).
    destruct (batch_loop E (length chunks) 0 chunks w1) as [[[]|e] w2] eqn:Hloop.
    2:{ unfold throw, ret. destruct (instanceof_McpError e); [done|].
        intros [= <- <-]. done. }
    intros [= _ <-].
    apply batch_loop_stored in Hloop as (pts & Hchunks & Hids & Hpts);
      [|unfold batchSize; lia].
    rewrite drop_0 in Hchunks, Hids. rewrite Hp in Hids.
    assert (points_of w1 = points_of w) as Hsame
      by (unfold points_of; by rewrite Hc).
    rewrite Hsame in Hpts.
    assert (NoDup (map id pts)) as Hnd' by (by rewrite Hids).
    assert (forall k, k ∈ map id pts -> points_of w !! k = None) as Hfresh'.
    { intros k Hk. rewrite <- stored_points_of. apply Hfresh.
      by rewrite <- Hids. }
    split; [|split].
    + intros k p Hk. rewrite stored_points_of, Hpts.
      rewrite upsert_points_other; [by rewrite <- stored_points_of|].
      intros Hin. apply Hfresh' in Hin.
      rewrite <- stored_points_of in Hin. congruence.
    + rewrite !point_count_points_of, Hpts.
      rewrite upsert_points_size by done.
      by rewrite <- (length_map chunk_of pts), Hchunks.
    + exists pts. split; [done|]. split; [done|].
      apply Forall_forall. intros p Hin.
      rewrite stored_points_of, Hpts. by apply upsert_points_lookup.
Qed.

(** Two embeddings asked for together, the second of which comes back
    first: the second chunk gets the first block of the random source. *)
Example Promise_all_second_first :
  fst (Promise_all_map env_second_first (make_point env_second_first)
         [chunk_alpha; chunk_beta] (quiet ∅))
  = Normal
      [ {| id := js "101112131415161718191a1b1c1d1e1f"; vector_of := [1; 2; 3];
           payload_of := {| chunk := chunk_alpha;
                            _type := js "DocumentChunk" |} |};
        {| id := js "000102030405060708090a0b0c0d0e0f"; vector_of := [1; 2; 3];
           payload_of := {| chunk := chunk_beta;
                            _type := js "DocumentChunk" |} |} ]
  /\ io (snd (Promise_all_map env_second_first (make_point env_second_first)
                [chunk_alpha; chunk_beta] (quiet ∅)))
     = [Embed (js "alpha"); Embed (js "beta")].
Proof. split; vm_compute; reflexivity. Qed.

Lemma point_ids_from_random_source_witness :
  exists (chunks : list DocumentChunk) (w1 w' : world) (resp : McpToolResponse),
    (fetchAndProcessUrl env_docs guide world_guide_added = (Normal chunks, w1)
     /\ handle env_docs (ArgString guide) world_guide_added = (Normal resp, w')
     /\ isError resp = false
     /\ NoDup (point_ids (random_source env_docs)
                 (random_pos world_guide_added) (length chunks))
     /\ (forall k,
           k ∈ point_ids (random_source env_docs)
                 (random_pos world_guide_added) (length chunks) ->
           stored world_guide_added k = None))
    /\ point_count world_guide_added = 1%nat
    /\ point_count w' = 2%nat
    /\ forall (k : jsstring) (p : point),
         stored world_guide_added k = Some p -> stored w' k = Some p.
Proof.
  destruct (fetchAndProcessUrl env_docs guide world_guide_added)
    as [[chunks|e] w1] eqn:Hfetch; [|vm_compute in Hfetch; discriminate Hfetch].
  destruct (handle env_docs (ArgString guide) world_guide_added)
    as [[resp|e] w'] eqn:Hrun; [|vm_compute in Hrun; discriminate Hrun].
  assert (length chunks = 1%nat /\ isError resp = false) as [Hlen Hok].
  { vm_compute in Hfetch. injection Hfetch as <- _.
    vm_compute in Hrun. injection Hrun as <- _. split; reflexivity. }
  assert (NoDup (point_ids (random_source env_docs)
                   (random_pos world_guide_added) (length chunks))) as Hnd.
  { rewrite Hlen. apply NoDup_singleton. }
  assert (forall k,
            k ∈ point_ids (random_source env_docs)
                  (random_pos world_guide_added) (length chunks) ->
            stored world_guide_added k = None) as Hfresh.
  { rewrite Hlen. intros k Hk. apply list_elem_of_singleton in Hk as ->.
    vm_compute. reflexivity. }
  assert (point_count world_guide_added = 1%nat) as Hone
    by (vm_compute; reflexivity).
  exists chunks, w1, w', resp.
  split; [exact (conj eq_refl (conj eq_refl (conj Hok (conj Hnd Hfresh))))|].
  split; [exact Hone|].
  destruct (point_ids_from_random_source env_docs) as (_ & _ & _ & _ & Hadd).
  destruct (Hadd guide world_guide_added w1 w' chunks resp
              Hfetch Hrun Hok Hnd Hfresh) as (Hkept & Hcount & _).
  split; [by rewrite Hcount, Hone, Hlen | exact Hkept].
Defined.
